(** * simplex-go: exact-fraction simplex tableau

    A shallow embedding of the packages [fraction] and [tableau] of the
    repository, of [ConvertToTableau] of package [parser] and of the solver
    loop of [main], followed by the properties of the specification that were
    checked against it and by further properties of the code.

    Conventions of the embedding:
    - Go's [int] is the 64-bit two's-complement integer.  It is carried by
      [Z]; every arithmetic operator re-normalises its result with
      [GoInt.wrap], so overflow behaves as on the machine.
    - A run-time panic (index out of range) is [None] in the [option] monad.
    - Console input and output are left out, except for the warning line of
      [Pivot] ([Pivot_io]) and the closing line of the loop of [main].
    - Slices are lists, read with [!!] and written with [<[ _ := _ ]>] behind
      an explicit bounds check; the Go maps of [GetSolution] and of
      [Problem.Variables] are [gmap]s. *)

From Stdlib Require Import ZArith Lia QArith DecimalString.
From stdpp Require Import base option list gmap strings sorting.

(** ** Machine integers *)

Module GoInt.
Local Open Scope Z_scope.

Definition min_int : Z := Eval cbv in - 2 ^ 63.
Definition max_int : Z := Eval cbv in 2 ^ 63 - 1.

Definition in_range (z : Z) : Prop := min_int <= z <= max_int.

(** Two's-complement reduction of a mathematical integer to 64 bits: the
    representative of [z] modulo [2^64] in [min_int .. max_int], which is [z]
    itself when [z] fits ([wrap_mod]). *)
Definition modulus : Z := Eval cbv in 2 ^ 64.
Definition wrap (z : Z) : Z :=
  if (min_int <=? z) && (z <=? max_int) then z
  else (z - min_int) mod modulus + min_int.

Definition add (a b : Z) : Z := wrap (a + b).
Definition sub (a b : Z) : Z := wrap (a - b).
Definition mul (a b : Z) : Z := wrap (a * b).

(** [a / b] truncates toward zero; [min_int / -1] wraps to [min_int].  The
    divisor is never zero where the model uses it ([gcd_nonzero]). *)
Definition quo (a b : Z) : Z := wrap (Z.quot a b).

(** [a % b] takes the sign of the dividend. *)
Definition rem (a b : Z) : Z := Z.rem a b.

(** [a ^ b]: the bitwise exclusive or of the two's-complement
    representations.  On [Z] that is [Z.lxor] (a negative number carries
    infinitely many leading ones), and two in-range operands give an in-range
    result. *)
Definition xor (a b : Z) : Z := Z.lxor a b.

End GoInt.

(** ** Package fraction *)

Module fraction.
Local Open Scope Z_scope.

Record Fraction : Set := mkFraction { N : Z; D : Z }.

#[global] Instance Fraction_eq_dec : EqDecision Fraction.
Proof. solve_decision. Defined.

(** The [for] loop of [gcd].  Each iteration replaces [(a, b)] by
    [(b, a % b)], so [|b|] at least halves every two iterations; [fuel] counts
    iterations, and with [gcd_fuel b] of them the loop has returned through
    [f == 0] ([gcd_loop_fuel]: more fuel gives the same result). *)
Fixpoint gcd_loop (fuel : nat) (a b : Z) : Z :=
  match fuel with
  | O => b
  | S k =>
      let f := GoInt.rem a b in
      if f =? 0 then b else gcd_loop k b f
  end.

Definition gcd_fuel (b : Z) : nat := (2 * Z.to_nat (Z.log2 (Z.abs b)) + 3)%nat.

Definition gcd (n : Fraction) : Z :=
  let a := Z.max (D n) (N n) in
  let b := Z.min (D n) (N n) in
  if (b =? 0) || (a =? 0) then 1 else gcd_loop (gcd_fuel b) a b.

Definition Simplify (n : Fraction) : Fraction :=
  let f := gcd n in
  let d := GoInt.quo (D n) f in
  let m := GoInt.quo (N n) f in
  if d <? 0
  then {| N := GoInt.mul m (-1); D := GoInt.mul d (-1) |}
  else {| N := m; D := d |}.

Definition Add (a b : Fraction) : Fraction :=
  Simplify {| N := GoInt.add (GoInt.mul (N a) (D b)) (GoInt.mul (D a) (N b));
              D := GoInt.mul (D a) (D b) |}.

Definition Sub (a b : Fraction) : Fraction :=
  Simplify {| N := GoInt.sub (GoInt.mul (N a) (D b)) (GoInt.mul (N b) (D a));
              D := GoInt.mul (D a) (D b) |}.

Definition Mul (a b : Fraction) : Fraction :=
  Simplify {| N := GoInt.mul (N a) (N b); D := GoInt.mul (D a) (D b) |}.

Definition Div (a b : Fraction) : Fraction :=
  Simplify {| N := GoInt.mul (N a) (D b); D := GoInt.mul (D a) (N b) |}.

Definition Neg (a : Fraction) : Fraction := Mul a {| N := -1; D := 1 |}.

(** [reverse]: three assignments, each reading the fields the previous one
    left. *)
Definition reverse (n : Fraction) : Fraction :=
  let n := {| N := GoInt.xor (N n) (D n); D := D n |} in
  let n := {| N := N n; D := GoInt.xor (N n) (D n) |} in
  {| N := GoInt.xor (N n) (D n); D := D n |}.

(** The rational number a fraction stands for ([0] when the denominator is
    the zero sentinel, as [Qinv 0 = 0]). *)
Definition Qval (f : Fraction) : Q := (inject_Z (N f) / inject_Z (D f))%Q.

(** A fraction with a positive denominator whose numerator and denominator
    stay within the given bounds. *)
Definition bounded (X Y : Z) (f : Fraction) : Prop :=
  Z.abs (N f) <= X /\ 0 < D f /\ D f <= Y.

End fraction.

(** ** Slices, loops and panics *)

Module Slice.
Local Open Scope Z_scope.

Definition len {A} (l : list A) : Z := Z.of_nat (length l).

(** [l[i]]: an index outside [0 .. len l - 1] panics. *)
Definition index {A} (l : list A) (i : Z) : option A :=
  if decide (0 <= i) then l !! Z.to_nat i else None.

(** [l[i] = v]. *)
Definition store {A} (l : list A) (i : Z) (v : A) : option (list A) :=
  if decide (0 <= i < len l) then Some (<[Z.to_nat i := v]> l) else None.

(** [make([]T, n)]: a negative length panics. *)
Definition make {A} (zero : A) (n : Z) : option (list A) :=
  if decide (0 <= n) then Some (replicate (Z.to_nat n) zero) else None.

(** [T[i][j]] and [T[i][j] = v] on a slice of slices. *)
Definition cell {A} (T : list (list A)) (i j : Z) : option A :=
  row ← index T i; index row j.

Definition set_cell {A} (T : list (list A)) (i j : Z) (v : A)
  : option (list (list A)) :=
  row ← index T i; row' ← store row j v; store T i row'.

(** [for k := lo; k < lo + count; k++ { st = body k st }], stopping at the
    first panic. *)
Fixpoint for_range {S} (lo : Z) (count : nat) (body : Z -> S -> option S) (st : S)
  : option S :=
  match count with
  | O => Some st
  | S c => st' ← body lo st; for_range (lo + 1) c body st'
  end.

Definition for_loop {S} (lo hi : Z) (body : Z -> S -> option S) (st : S) : option S :=
  for_range lo (Z.to_nat (hi - lo)) body st.

(** A loop whose body may [return]: the body yields [Some (Some r)] to
    return [r], [Some None] to go on, [None] on a panic. *)
Fixpoint for_return {R} (lo : Z) (count : nat) (body : Z -> option (option R))
  : option (option R) :=
  match count with
  | O => Some None
  | S c =>
      res ← body lo;
      match res with
      | Some r => Some (Some r)
      | None => for_return (lo + 1) c body
      end
  end.

(** A loop whose body may [break]: the body yields the new state and whether
    the loop is left after it. *)
Fixpoint for_break {S} (lo : Z) (count : nat) (body : Z -> S -> option (S * bool))
  (st : S) : option S :=
  match count with
  | O => Some st
  | S c =>
      '(st', stop) ← body lo st;
      if (stop : bool) then Some st' else for_break (lo + 1) c body st'
  end.

End Slice.

(** ** Package tableau *)

Module tableau.
Import Slice.
Module fr := fraction.
Local Open Scope Z_scope.

Record Tableau : Type := mkTableau {
  Table : list (list fr.Fraction);
  dirtX : list bool;
  dirtY : list bool;
  RowNames : list string;
  ColNames : list string;
  IsMaximization : bool
}.

(** [Copy] allocates fresh slices with the same contents; on immutable lists
    that is the same value again, field by field. *)
Definition Copy (t : Tableau) : Tableau :=
  {| Table := (fun row => row) <$> Table t;
     dirtX := dirtX t;
     dirtY := dirtY t;
     RowNames := RowNames t;
     ColNames := ColNames t;
     IsMaximization := IsMaximization t |}.

Definition IsPivotValid (r s : Z) : bool := (0 <=? r) && (0 <=? s).

(** [fmt.Sprintf("%d", z)]. *)
Definition sprint_d (z : Z) : string := NilZero.string_of_int (Z.to_int z).

(** The zero value of [fr.Fraction], which [make] fills a slice with. *)
Definition zero_value : fr.Fraction := {| fr.N := 0; fr.D := 0 |}.

Definition Init (rows cols : Z) : option Tableau :=
  tab ← make ([] : list fr.Fraction) rows;
  tab ← for_loop 0 (len tab)
          (fun i T => row ← make zero_value cols; store T i row) tab;
  dX ← make false cols;
  dY ← make false rows;
  rn ← make ""%string rows;
  cn ← make ""%string cols;
  rn ← for_loop 0 (rows - 1)
         (fun i names => store names i ("s" +:+ sprint_d (i + 1))) rn;
  rn ← store rn (rows - 1) "F"%string;
  cn ← for_loop 0 (cols - 1)
         (fun j names => store names j ("-x" +:+ sprint_d (j + 1))) cn;
  cn ← store cn (cols - 1) "const"%string;
  Some {| Table := tab; dirtX := dX; dirtY := dY;
          RowNames := rn; ColNames := cn; IsMaximization := true |}.

Definition isValidCell (t : Tableau) (i j : Z) : option bool :=
  dx ← index (dirtX t) j;
  if (dx : bool) then Some false else
  dy ← index (dirtY t) i;
  if (dy : bool) then Some false else
  c ← cell (Table t) i j;
  Some (negb (fr.N c =? 0)).

(** One iteration of the first loop of [Pivot]; the state is
    [(s, pivotValue)].  The two arms of the [if / else if] are the two senses:
    the short-circuit [&&] reads the objective-row entry in either. *)
Definition entering_step (t : Tableau) (m : Z) (j : Z) (st : Z * fr.Fraction)
  : option (Z * fr.Fraction) :=
  let '(s, pivotValue) := st in
  dx ← index (dirtX t) j;
  if (dx : bool) then Some st else
  c ← cell (Table t) (m - 1) j;
  if IsMaximization t then
    if fr.N c <? 0 then
      if (s =? -1) || (fr.N c <? fr.N pivotValue) then Some (j, c) else Some st
    else Some st
  else
    if fr.N c >? 0 then
      if (s =? -1) || (fr.N c >? fr.N pivotValue) then Some (j, c) else Some st
    else Some st.

(** The entering column: the first loop of [Pivot], [-1] when no column
    qualifies. *)
Definition Pivot_entering (t : Tableau) : option Z :=
  let m := len (Table t) in
  row0 ← index (Table t) 0;
  let n := len row0 in
  st ← for_loop 0 (n - 1) (entering_step t m) (-1, {| fr.N := 0; fr.D := 1 |});
  Some (fst st).

(** One iteration of the ratio-test loop of [Pivot]; the state is
    [(r, minRatio)]. *)
Definition ratio_step (t : Tableau) (n s : Z) (i : Z) (st : Z * fr.Fraction)
  : option (Z * fr.Fraction) :=
  let '(r, minRatio) := st in
  dy ← index (dirtY t) i;
  if (dy : bool) then Some st else
  e ← cell (Table t) i s;
  if fr.N e >? 0 then
    rhs ← cell (Table t) i (n - 1);
    let ratio := fr.Div rhs e in
    if (r =? -1)
       || ((fr.N ratio >? 0)
           && ((fr.N minRatio <=? 0)
               || (GoInt.mul (fr.N ratio) (fr.D minRatio)
                   <? GoInt.mul (fr.N minRatio) (fr.D ratio))))
    then Some (i, ratio)
    else Some st
  else Some st.

(** The leaving row for entering column [s]: the second loop of [Pivot],
    [-1] when no row limits the column. *)
Definition Pivot_leaving (t : Tableau) (s : Z) : option Z :=
  let m := len (Table t) in
  row0 ← index (Table t) 0;
  let n := len row0 in
  st ← for_loop 0 (m - 1) (ratio_step t n s) (-1, {| fr.N := 0; fr.D := 0 |});
  Some (fst st).

(** [Pivot] with what it prints: the result pair and the lines written to
    standard output. *)
Definition Pivot_io (t : Tableau) : option ((Z * Z) * list string) :=
  s ← Pivot_entering t;
  if s =? -1 then Some ((-1, -1), []) else
  r ← Pivot_leaving t s;
  if r =? -1
  then Some ((-1, -1), ["Warning: Unbounded solution detected"%string])
  else Some ((r, s), []).

Definition Pivot (t : Tableau) : option (Z * Z) := fst <$> Pivot_io t.

(** The row search of [PivotForFeasibility]; once [r] is set the loop has
    been left through [break]. *)
Definition negative_rhs_step (t : Tableau) (n : Z) (i : Z) (r : Z) : option Z :=
  if negb (r =? -1) then Some r else
  c ← cell (Table t) i (n - 1);
  if fr.N c <? 0 then
    dy ← index (dirtY t) i;
    if (dy : bool) then Some r else Some i
  else Some r.

Definition most_negative_step (t : Tableau) (r : Z) (j : Z) (st : Z * fr.Fraction)
  : option (Z * fr.Fraction) :=
  let '(s, mostNegative) := st in
  c ← cell (Table t) r j;
  if fr.N c <? 0 then
    dx ← index (dirtX t) j;
    if (dx : bool) then Some st else
    if (s =? -1) || (fr.N c <? fr.N mostNegative) then Some (j, c) else Some st
  else Some st.

Definition PivotForFeasibility (t : Tableau) : option (Z * Z) :=
  row0 ← index (Table t) 0;
  let n := len row0 in
  let m := len (Table t) in
  r ← for_loop 0 (m - 1) (negative_rhs_step t n) (-1);
  if r =? -1 then Some (-1, -1) else
  st ← for_loop 0 (n - 1) (most_negative_step t r) (-1, {| fr.N := 0; fr.D := 1 |});
  Some (r, fst st).

Definition fillElement (a : Tableau) (i j r s : Z) : option fr.Fraction :=
  pivotElement ← cell (Table a) r s;
  aij ← cell (Table a) i j;
  let term1 := fr.Mul aij pivotElement in
  ais ← cell (Table a) i s;
  arj ← cell (Table a) r j;
  let term2 := fr.Mul ais arj in
  Some (fr.Div (fr.Sub term1 term2) pivotElement).

Definition Transform (t : Tableau) (r s : Z) : option Tableau :=
  let b := Copy t in
  dY ← store (dirtY b) r true;
  dX ← store (dirtX b) s true;
  pivotElement ← cell (Table t) r s;
  T ← set_cell (Table b) r s (fr.Div {| fr.N := 1; fr.D := 1 |} pivotElement);
  row0 ← index (Table t) 0;
  let n := len row0 in
  T ← for_loop 0 n
        (fun j T =>
           if decide (j = s) then Some T else
           x ← cell (Table t) r j;
           set_cell T r j (fr.Div x pivotElement)) T;
  T ← for_loop 0 (len (Table t))
        (fun i T =>
           if decide (i = r) then Some T else
           T ← for_loop 0 n
                 (fun j T =>
                    if decide (j = s) then Some T else
                    v ← fillElement t i j r s;
                    set_cell T i j v) T;
           x ← cell (Table t) i s;
           set_cell T i s (fr.Neg (fr.Div x pivotElement))) T;
  rowName ← index (RowNames b) r;
  colName ← index (ColNames b) s;
  rn ← store (RowNames b) r colName;
  cn ← store (ColNames b) s rowName;
  Some {| Table := T; dirtX := dX; dirtY := dY;
          RowNames := rn; ColNames := cn;
          IsMaximization := IsMaximization b |}.

Definition IsFeasible (a : Tableau) : option bool :=
  row0 ← index (Table a) 0;
  let n := len row0 in
  res ← for_return 0 (Z.to_nat (len (Table a) - 1))
          (fun i =>
             c ← cell (Table a) i (n - 1);
             Some (if fr.N c <? 0 then Some false else None));
  Some (default true res).

Definition IsOptimal (a : Tableau) : option bool :=
  row0 ← index (Table a) 0;
  let n := len row0 in
  let m := len (Table a) in
  res ← for_return 0 (Z.to_nat (n - 1))
          (fun j =>
             c ← cell (Table a) (m - 1) j;
             Some (if (IsMaximization a && (fr.N c <? 0))
                      || (negb (IsMaximization a) && (fr.N c >? 0))
                   then Some false else None));
  Some (default true res).

(** The loop of [MakeFeasible].  [iteration] is the source's counter; the
    loop ends by itself once it passes 20, and [fuel] (20 at the start) only
    carries that bound for the recursion ([MakeFeasible_returns]).  The
    result is the returned flag and the tableau left in the receiver. *)
Fixpoint feasibility_loop (fuel : nat) (iteration : Z) (t : Tableau)
  : option (bool * Tableau) :=
  feasible ← IsFeasible t;
  if (feasible : bool) then Some (true, t) else
  '(r, s) ← PivotForFeasibility t;
  if negb (IsPivotValid r s) then Some (false, t) else
  t' ← Transform t r s;
  let iteration := iteration + 1 in
  if iteration >? 20 then Some (false, t') else
  match fuel with
  | O => None
  | S fuel' => feasibility_loop fuel' iteration t'
  end.

Definition MakeFeasible (t : Tableau) : option (bool * Tableau) :=
  feasibility_loop 20 1 t.

Definition GetSolution (a : Tableau) : option (gmap string fr.Fraction) :=
  let m := len (Table a) in
  row0 ← index (Table a) 0;
  let n := len row0 in
  objective ← cell (Table a) (m - 1) (n - 1);
  let solution : gmap string fr.Fraction := <["objective"%string := objective]> ∅ in
  solution ← for_loop 0 (m - 1)
               (fun i solution =>
                  for_loop 0 (n - 1)
                    (fun j solution =>
                       varName ← index (RowNames a) i;
                       v ← cell (Table a) i (n - 1);
                       Some (<[varName := v]> solution)) solution) solution;
  for_loop 0 (n - 1)
    (fun j solution =>
       varName ← index (ColNames a) j;
       match solution !! varName with
       | Some _ => Some solution
       | None => Some (<[varName := {| fr.N := 0; fr.D := 1 |}]> solution)
       end) solution.

Definition SetMaximization (a : Tableau) (isMax : bool) : Tableau :=
  {| Table := Table a; dirtX := dirtX a; dirtY := dirtY a;
     RowNames := RowNames a; ColNames := ColNames a;
     IsMaximization := isMax |}.

(** A tableau of [m] rows and [n] columns: a rectangular grid with one mask
    entry and one label per row and per column. *)
Definition dims (T : list (list fr.Fraction)) (m n : Z) : Prop :=
  len T = m /\ Forall (fun row => len row = n) T.

Definition well_formed (t : Tableau) (m n : Z) : Prop :=
  dims (Table t) m n /\
  len (dirtY t) = m /\ len (dirtX t) = n /\
  len (RowNames t) = m /\ len (ColNames t) = n.

(** Total reading of an entry, for statements about in-range cells. *)
Definition entry (t : Tableau) (i j : Z) : fr.Fraction :=
  default zero_value (cell (Table t) i j).

(** The objective row is the last row, the right-hand side the last column. *)
Definition objective (t : Tableau) (j : Z) : fr.Fraction :=
  entry t (len (Table t) - 1) j.

Definition rhs (t : Tableau) (n : Z) (i : Z) : fr.Fraction := entry t i (n - 1).

Definition unmasked_col (t : Tableau) (j : Z) : Prop := index (dirtX t) j = Some false.
Definition unmasked_row (t : Tableau) (i : Z) : Prop := index (dirtY t) i = Some false.

(** An objective-row entry that the active sense can still improve on, as
    the code tests it: by the sign of the numerator. *)
Definition improving (t : Tableau) (c : fr.Fraction) : Prop :=
  if IsMaximization t then fr.N c < 0 else 0 < fr.N c.

#[global] Instance improving_dec t c : Decision (improving t c).
Proof. unfold improving. destruct (IsMaximization t); apply _. Defined.

(** The rows the ratio test of [Pivot] looks at for entering column [s]. *)
Definition eligible (t : Tableau) (s i : Z) : Prop :=
  unmasked_row t i /\ 0 < fr.N (entry t i s).

(** The ratio the test of [Pivot] computes for row [i] and column [s]. *)
Definition ratio (t : Tableau) (n s i : Z) : fr.Fraction :=
  fr.Div (rhs t n i) (entry t i s).

(** The exact ratio right-hand side / entry of row [i] for column [s]. *)
Definition ratioQ (t : Tableau) (n s i : Z) : Q :=
  (fr.Qval (rhs t n i) / fr.Qval (entry t i s))%Q.

(** Entries small enough that no product formed by [Pivot] leaves the
    64-bit range, with positive denominators. *)
Definition small_entries (t : Tableau) (B : Z) : Prop :=
  forall i j c, cell (Table t) i j = Some c ->
                Z.abs (fr.N c) <= B /\ 0 < fr.D c <= B.

(** The number of masked entries among the first [k] of a mask. *)
Definition masked_below (mask : list bool) (k : Z) : Z :=
  len (filter (fun b : bool => b = true) (take (Z.to_nat k) mask)).

(** What the two pivoting loops keep, [k] being the loop counter: the
    counter is at most one more than the number of masked constraint rows
    and of masked non-RHS columns, and the sense is the one given. *)
Definition pivots_counted (m n : Z) (sense : bool) (k : Z) (t : Tableau) : Prop :=
  k - 1 <= masked_below (dirtY t) (m - 1) /\
  k - 1 <= masked_below (dirtX t) (n - 1) /\
  IsMaximization t = sense.

End tableau.

(** ** Package parser: assembling the tableau *)

Module parser.
Import Slice.
Module fr := fraction.
Module tb := tableau.
Local Open Scope Z_scope.

Record Term : Type := mkTerm {
  Coefficient : fr.Fraction;
  Variable_ : string  (* the field [Variable]; the name is reserved in Rocq *)
}.

Record Equation : Type := mkEquation {
  LHS : list Term;
  RHS : fr.Fraction;
  Relation : string
}.

Record Problem : Type := mkProblem {
  ObjectiveFunction : Equation;
  Constraints : list Equation;
  IsMaximization : bool;
  Variables : gmap string bool
}.

(** Go compares strings byte by byte, as [String.leb] does. *)
Definition string_le (a b : string) : Prop := String.leb a b = true.

#[global] Instance string_le_dec : RelDecision string_le.
Proof. intros a b. unfold string_le. apply _. Defined.

(** [sort.Strings]. *)
Definition sort_Strings (l : list string) : list string := merge_sort string_le l.

(** The keys of [p.Variables], collected in the order the map yields them and
    then sorted; the keys are pairwise different, so the sorted slice does not
    depend on that order ([decisionVars_sorted]). *)
Definition decisionVars (p : Problem) : list string :=
  sort_Strings ((map_to_list (Variables p)).*1).

(** The search [for j, v := range decisionVars { if v == name { ...; break } }]
    of [ConvertToTableau], storing [value] in row [i] at the column found. *)
Definition assign_column (vars : list string) (name : string) (i : Z)
  (value : fr.Fraction) (T : list (list fr.Fraction))
  : option (list (list fr.Fraction)) :=
  for_break 0 (length vars)
    (fun j T =>
       v ← index vars j;
       if decide (v = name)
       then T' ← set_cell T i j value; Some (T', true)
       else Some (T, false)) T.

(** The body of the loop over the constraints. *)
Definition constraint_row (vars : list string) (numCols : Z) (i : Z)
  (constraint : Equation) (T : list (list fr.Fraction))
  : option (list (list fr.Fraction)) :=
  T ← set_cell T i (numCols - 1) (RHS constraint);
  T ← for_loop 0 (len (LHS constraint))
        (fun k T =>
           term ← index (LHS constraint) k;
           if decide (Variable_ term <> ""%string)
           then assign_column vars (Variable_ term) i (Coefficient term) T
           else
             x ← cell T i (numCols - 1);
             set_cell T i (numCols - 1) (fr.Sub x (Coefficient term))) T;
  if decide (Relation constraint = ">="%string)
  then for_loop 0 numCols
         (fun j T => x ← cell T i j; set_cell T i j (fr.Neg x)) T
  else Some T.

(** The body of the loop over the terms of the objective function. *)
Definition objective_term (vars : list string) (isMax : bool) (objRow numCols : Z)
  (term : Term) (T : list (list fr.Fraction)) : option (list (list fr.Fraction)) :=
  if decide (Variable_ term <> ""%string)
  then assign_column vars (Variable_ term) objRow
         (if isMax then fr.Neg (Coefficient term) else Coefficient term) T
  else
    x ← cell T objRow (numCols - 1);
    set_cell T objRow (numCols - 1)
      (if isMax then fr.Add x (Coefficient term) else fr.Sub x (Coefficient term)).

Definition ConvertToTableau (p : Problem) : option tb.Tableau :=
  let decisionVars := decisionVars p in
  let numRows := len (Constraints p) + 1 in
  let numCols := len decisionVars + 1 in
  t ← tb.Init numRows numCols;
  let t := tb.SetMaximization t (IsMaximization p) in
  cn ← for_loop 0 (len decisionVars)
         (fun i names => v ← index decisionVars i; store names i ("-" +:+ v))
         (tb.ColNames t);
  cn ← store cn (numCols - 1) "const"%string;
  rn ← for_loop 0 (len (Constraints p))
         (fun i names => store names i ("s" +:+ tb.sprint_d (i + 1)))
         (tb.RowNames t);
  rn ← store rn (numRows - 1) "F"%string;
  T ← for_loop 0 (len (Constraints p))
        (fun i T =>
           constraint ← index (Constraints p) i;
           constraint_row decisionVars numCols i constraint T) (tb.Table t);
  let objRow := numRows - 1 in
  T ← for_loop 0 (len (LHS (ObjectiveFunction p)))
        (fun k T =>
           term ← index (LHS (ObjectiveFunction p)) k;
           objective_term decisionVars (IsMaximization p) objRow numCols term T) T;
  Some {| tb.Table := T; tb.dirtX := tb.dirtX t; tb.dirtY := tb.dirtY t;
          tb.RowNames := rn; tb.ColNames := cn;
          tb.IsMaximization := tb.IsMaximization t |}.

(** What the assembly leaves in a coefficient cell of the column of variable
    [v] after the terms [terms], starting from [init]: the coefficient of the
    last term that names [v]. *)
Definition assigned (value : Term -> fr.Fraction) (terms : list Term) (v : string)
  (init : fr.Fraction) : fr.Fraction :=
  foldl (fun acc term =>
           if decide (Variable_ term <> ""%string /\ Variable_ term = v)
           then value term else acc) init terms.

(** What the assembly leaves in the right-hand side of a constraint row: the
    constant terms of the left-hand side subtracted one by one. *)
Definition constants_moved (terms : list Term) (init : fr.Fraction) : fr.Fraction :=
  foldl (fun acc term =>
           if decide (Variable_ term <> ""%string) then acc
           else fr.Sub acc (Coefficient term)) init terms.

(** The final negation of a [>=] row. *)
Definition oriented (constraint : Equation) (x : fr.Fraction) : fr.Fraction :=
  if decide (Relation constraint = ">="%string) then fr.Neg x else x.

(** The entry the assembly leaves in column [j] of the row of [constraint]:
    a coefficient in the column of a variable, the right-hand side in the
    last column. *)
Definition constraint_cell (vars : list string) (constraint : Equation) (j : Z)
  : fr.Fraction :=
  oriented constraint
    match index vars j with
    | Some v => assigned Coefficient (LHS constraint) v tb.zero_value
    | None => constants_moved (LHS constraint) (RHS constraint)
    end.

(** The entry the assembly leaves in column [j] of the objective row. *)
Definition objective_cell (vars : list string) (isMax : bool) (objective : Equation)
  (j : Z) : fr.Fraction :=
  match index vars j with
  | Some v =>
      assigned (fun term => if isMax then fr.Neg (Coefficient term) else Coefficient term)
        (LHS objective) v tb.zero_value
  | None => tb.zero_value
  end.

End parser.

(** ** Package main: the solver loop *)

Module main.
Import Slice tableau.
Local Open Scope Z_scope.

(** The optimization loop of [main], from a tableau and the iteration
    counter.  The loop ends by itself once the counter passes 100; [fuel]
    (100 at the start) carries that bound for the recursion.  The result is
    the line printed on leaving the loop, the counter and the tableau. *)
Fixpoint simplex_loop (fuel : nat) (iteration : Z) (st : Tableau)
  : option (string * Z * Tableau) :=
  optimal ← IsOptimal st;
  if (optimal : bool) then Some ("Optimal solution reached!"%string, iteration, st) else
  '(r, s) ← Pivot st;
  if negb (IsPivotValid r s)
  then Some ("No valid pivot found. Solution may be unbounded."%string, iteration, st)
  else
  b ← Transform st r s;
  let st := Copy b in
  let iteration := iteration + 1 in
  if iteration >? 100
  then Some ("Warning: Maximum iterations reached. Process stopped."%string,
             iteration, st)
  else
  match fuel with
  | O => None
  | S fuel' => simplex_loop fuel' iteration st
  end.

(** What a run of [main] ends with. *)
Record Outcome : Type := mkOutcome {
  message : string;
  final : Tableau;
  solution : gmap string fr.Fraction;
  objectiveValue : fr.Fraction
}.

(** [main] from the point where the tableau [st] has been built.  The inner
    [None] is the early [return] after a failed [MakeFeasible].  Reading a
    missing key of a Go map yields the zero value. *)
Definition solve (st : Tableau) (isMaximization : bool) : option (option Outcome) :=
  feasible ← IsFeasible st;
  '(ok, st) ← (if (feasible : bool) then Some (true, st) else MakeFeasible st);
  if negb ok then Some None else
  '(msg, _, st) ← simplex_loop 100 1 st;
  solution ← GetSolution st;
  let objectiveValue := default zero_value (solution !! "objective"%string) in
  let objectiveValue :=
    if isMaximization then objectiveValue else fr.Neg objectiveValue in
  Some (Some {| message := msg; final := st; solution := solution;
                objectiveValue := objectiveValue |}).

(** The state a tableau assembled by the parser is in, and stays in under
    every pivot: the right-hand side of the objective row is the zero value
    0/0 and no label is the key "objective". *)
Definition objective_lost (m n : Z) (t : Tableau) : Prop :=
  entry t (m - 1) (n - 1) = zero_value /\
  (forall i, index (RowNames t) i <> Some "objective"%string) /\
  (forall j, index (ColNames t) j <> Some "objective"%string).

(** [main] from the parsed problem. *)
Definition run (p : parser.Problem) : option (option Outcome) :=
  st ← parser.ConvertToTableau p;
  solve st (parser.IsMaximization p).

End main.

(** ** Sample tableaux *)

Module Examples.
Import tableau.
Local Open Scope Z_scope.

Definition whole (z : Z) : fr.Fraction := {| fr.N := z; fr.D := 1 |}.
Definition frac (n d : Z) : fr.Fraction := {| fr.N := n; fr.D := d |}.

(** The tableau [main] holds after [Init], [SetMaximization] and reading
    every cell: the given grid, nothing masked, the default labels. *)
Definition fresh (T : list (list fr.Fraction)) (isMax : bool) : Tableau :=
  let rows := length T in
  let cols := length (default [] (head T)) in
  {| Table := T;
     dirtX := replicate cols false;
     dirtY := replicate rows false;
     RowNames := ((fun i : nat => "s" +:+ sprint_d (Z.of_nat i + 1)) <$> seq 0 (rows - 1))
                 ++ ["F"%string];
     ColNames := ((fun j : nat => "-x" +:+ sprint_d (Z.of_nat j + 1)) <$> seq 0 (cols - 1))
                 ++ ["const"%string];
     IsMaximization := isMax |}.

(** maximize 2 x1 + 3 x2 subject to x1 + x2 <= 4 and x1 + 3 x2 <= 6. *)
Definition lp_two_constraints : Tableau :=
  fresh [ [whole 1; whole 1; whole 4];
          [whole 1; whole 3; whole 6];
          [whole (-2); whole (-3); whole 0] ] true.

(** One constraint, one variable: maximize x1 subject to x1 <= 1. *)
Definition lp_one_step : Tableau :=
  fresh [ [whole 1; whole 1];
          [whole (-1); whole 0] ] true.

(** Objective entries -1/3 and -1/2: equal numerators, different values. *)
Definition lp_fraction_objective : Tableau :=
  fresh [ [whole 1; whole 1; whole 1];
          [frac (-1) 3; frac (-1) 2; whole 0] ] true.

(** A degenerate row (ratio 0) ahead of a row with ratio 5. *)
Definition lp_degenerate : Tableau :=
  fresh [ [whole 1; whole 0];
          [whole 1; whole 5];
          [whole (-1); whole 0] ] true.

(** Already optimal: the objective entry is positive. *)
Definition lp_optimal : Tableau :=
  fresh [ [whole 1; whole 1];
          [whole 1; whole 0] ] true.

(** Unbounded: the only column improves and no row limits it. *)
Definition lp_unbounded : Tableau :=
  fresh [ [whole (-1); whole 1];
          [whole (-1); whole 0] ] true.

(** A negative right-hand side in a row with entries -1/3 and -1/2. *)
Definition lp_infeasible_start : Tableau :=
  fresh [ [frac (-1) 3; frac (-1) 2; whole (-1)];
          [whole 1; whole 1; whole 0] ] true.

(** Twenty constraint rows, each [-x_i <= -1], and one objective row. *)
Definition lp_twenty_rows : Tableau :=
  fresh (((fun i : nat =>
             ((fun j : nat => if decide (j = i) then whole (-1) else whole 0)
                <$> seq 0 20) ++ [whole (-1)]) <$> seq 0 20)
         ++ [replicate 21 (whole 0)]) true.

(** A pivot entry of 2^32 next to an entry of 2^32: their product is 2^64,
    which does not fit in 64 bits. *)
Definition lp_large_pivot : Tableau :=
  fresh [ [whole (2 ^ 32); whole 1; whole 1];
          [whole 1; whole (2 ^ 32); whole 1];
          [whole (-1); whole (-1); whole 0] ] true.

(** Two constraint rows that carry the same label. *)
Definition lp_same_label : Tableau :=
  {| Table := [ [whole 1; whole 1]; [whole 1; whole 2]; [whole 0; whole 0] ];
     dirtX := [false; false];
     dirtY := [false; false; false];
     RowNames := ["a"; "a"; "F"]%string;
     ColNames := ["-x1"; "const"]%string;
     IsMaximization := true |}.

Definition term (c : fr.Fraction) (v : string) : parser.Term :=
  {| parser.Coefficient := c; parser.Variable_ := v |}.

(** maximize 2 x1 + 3 x2 subject to x1 + x2 <= 4 and x1 + 3 x2 <= 6, as the
    parser hands it over. *)
Definition problem_two_constraints : parser.Problem :=
  {| parser.ObjectiveFunction :=
       {| parser.LHS := [term (whole 2) "x1"; term (whole 3) "x2"];
          parser.RHS := whole 0; parser.Relation := "=" |};
     parser.Constraints :=
       [ {| parser.LHS := [term (whole 1) "x1"; term (whole 1) "x2"];
            parser.RHS := whole 4; parser.Relation := "<=" |};
         {| parser.LHS := [term (whole 1) "x1"; term (whole 3) "x2"];
            parser.RHS := whole 6; parser.Relation := "<=" |} ];
     parser.IsMaximization := true;
     parser.Variables := <["x2"%string := true]> (<["x1"%string := true]> ∅) |}.

(** minimize x1 subject to x1 + x1 + 1 >= 3, a constraint that names [x1]
    twice and has a constant on the left. *)
Definition problem_repeated_variable : parser.Problem :=
  {| parser.ObjectiveFunction :=
       {| parser.LHS := [term (whole 1) "x1"];
          parser.RHS := whole 0; parser.Relation := "=" |};
     parser.Constraints :=
       [ {| parser.LHS := [term (whole 1) "x1"; term (whole 5) "x1"; term (whole 1) ""];
            parser.RHS := whole 3; parser.Relation := ">=" |} ];
     parser.IsMaximization := false;
     parser.Variables := <["x1"%string := true]> ∅ |}.

(** [lp_two_constraints] after the pivot on row 1, column 1. *)
Definition lp_two_constraints_pivoted : Tableau :=
  Eval vm_compute in default lp_two_constraints (Transform lp_two_constraints 1 1).

(** One constraint [x1 <= -1]: a negative right-hand side in a row without
    a negative coefficient, which no feasibility pivot can repair. *)
Definition lp_infeasible_stuck : Tableau :=
  fresh [ [whole 1; whole (-1)];
          [whole 1; whole 0] ] true.

(** [lp_two_constraints] as the parser assembles it: the right-hand side of
    the objective row was never written and is still the zero value. *)
Definition lp_two_constraints_unset : Tableau :=
  fresh [ [whole 1; whole 1; whole 4];
          [whole 1; whole 3; whole 6];
          [whole (-2); whole (-3); zero_value] ] true.

End Examples.

(** * Properties *)

Import Slice tableau.
Module fr := fraction.
Local Open Scope Z_scope.

Ltac split_conj := repeat match goal with |- _ /\ _ => split end.

(** Closes [well_formed t m n] on a literal tableau. *)
Ltac solve_wf :=
  unfold well_formed, dims; cbn; repeat split; repeat constructor.

(** ** Machine integers *)

Lemma int_constants :
  GoInt.min_int = - 2 ^ 63 /\ GoInt.max_int = 2 ^ 63 - 1 /\ GoInt.modulus = 2 ^ 64.
Proof. repeat split. Qed.

Lemma wrap_mod z :
  GoInt.wrap z = (z - GoInt.min_int) mod GoInt.modulus + GoInt.min_int.
Proof.
  unfold GoInt.wrap.
  destruct (Z.leb_spec GoInt.min_int z), (Z.leb_spec z GoInt.max_int); cbn;
    try reflexivity.
  unfold GoInt.min_int, GoInt.max_int, GoInt.modulus in *.
  rewrite Z.mod_small by lia. lia.
Qed.

Lemma wrap_in_range z : GoInt.in_range (GoInt.wrap z).
Proof.
  rewrite wrap_mod.
  unfold GoInt.in_range, GoInt.min_int, GoInt.max_int, GoInt.modulus.
  pose proof (Z.mod_pos_bound (z - -9223372036854775808) 18446744073709551616
                ltac:(lia)). lia.
Qed.

Lemma wrap_id z : GoInt.in_range z -> GoInt.wrap z = z.
Proof.
  unfold GoInt.in_range, GoInt.wrap. intros [H1 H2].
  apply Z.leb_le in H1, H2. by rewrite H1, H2.
Qed.

Lemma wrap_congruent z : (GoInt.wrap z - z) mod GoInt.modulus = 0.
Proof.
  rewrite wrap_mod.
  replace ((z - GoInt.min_int) mod GoInt.modulus + GoInt.min_int - z)
    with ((z - GoInt.min_int) mod GoInt.modulus - (z - GoInt.min_int)) by lia.
  rewrite Zminus_mod, Z.mod_mod by (unfold GoInt.modulus; lia).
  rewrite Z.sub_diag. reflexivity.
Qed.

(** ** Fractions *)

Section fraction_facts.
Import fraction.

(** *** Euclid's loop *)

Lemma rem_halves a b :
  b <> 0 -> Z.rem a b <> 0 ->
  2 * Z.abs (Z.rem b (Z.rem a b)) < Z.abs b.
Proof.
  intros Hb Hf.
  pose proof (Z.rem_bound_abs a b Hb) as Hlt.
  set (f := Z.rem a b) in *.
  rewrite <- (Z.rem_abs b f) by assumption.
  assert (HF : 0 < Z.abs f) by lia.
  rewrite Z.rem_mod_nonneg by lia.
  pose proof (Z.mod_pos_bound (Z.abs b) (Z.abs f) HF) as Hr.
  pose proof (Z.div_mod (Z.abs b) (Z.abs f) ltac:(lia)) as Hdm.
  assert (1 <= Z.abs b / Z.abs f) by (apply Z.div_le_lower_bound; lia).
  nia.
Qed.

Lemma gcd_loop_spec (k : nat) :
  forall (fuel : nat) (a b : Z),
    b <> 0 -> Z.abs b < 2 ^ Z.of_nat k -> (2 * k + 1 <= fuel)%nat ->
    gcd_loop fuel a b <> 0 /\ Z.abs (gcd_loop fuel a b) = Z.gcd a b.
Proof.
  induction k as [|k IH]; intros fuel a b Hb Hlt Hfuel.
  - simpl in Hlt. lia.
  - destruct fuel as [|[|fuel]]; [lia | lia |].
    cbn [gcd_loop]. unfold GoInt.rem.
    destruct (Z.eqb_spec (Z.rem a b) 0) as [E1|E1].
    { split; [assumption|].
      rewrite (Z.gcd_comm a b), <- (Z.gcd_rem a b Hb), E1. apply Z.gcd_0_l. }
    destruct (Z.eqb_spec (Z.rem b (Z.rem a b)) 0) as [E2|E2].
    { split; [assumption|].
      rewrite (Z.gcd_comm a b), <- (Z.gcd_rem a b Hb).
      rewrite <- (Z.gcd_rem b _ E1), E2.
      apply Z.gcd_0_l. }
    pose proof (rem_halves a b Hb E1) as Hh.
    destruct (IH fuel (Z.rem a b) (Z.rem b (Z.rem a b)) E2) as [H1 H2].
    + rewrite Nat2Z.inj_succ, Z.pow_succ_r in Hlt by lia. lia.
    + lia.
    + split; [assumption|]. rewrite H2.
      rewrite (Z.gcd_comm (Z.rem a b)), (Z.gcd_rem b _ E1).
      rewrite (Z.gcd_rem a b Hb). apply Z.gcd_comm.
Qed.

(** Past [2 k + 1] iterations the fuel no longer matters: the loop has
    returned. *)
Lemma gcd_loop_fuel (k : nat) :
  forall (fuel fuel' : nat) (a b : Z),
    b <> 0 -> Z.abs b < 2 ^ Z.of_nat k ->
    (2 * k + 1 <= fuel)%nat -> (2 * k + 1 <= fuel')%nat ->
    gcd_loop fuel a b = gcd_loop fuel' a b.
Proof.
  induction k as [|k IH]; intros fuel fuel' a b Hb Hlt Hfuel Hfuel'.
  - simpl in Hlt. lia.
  - destruct fuel as [|[|fuel]]; [lia | lia |].
    destruct fuel' as [|[|fuel']]; [lia | lia |].
    cbn [gcd_loop]. unfold GoInt.rem.
    destruct (Z.eqb_spec (Z.rem a b) 0) as [E1|E1]; [reflexivity|].
    destruct (Z.eqb_spec (Z.rem b (Z.rem a b)) 0) as [E2|E2]; [reflexivity|].
    pose proof (rem_halves a b Hb E1) as Hh.
    apply IH; [exact E2 | | lia | lia].
    rewrite Nat2Z.inj_succ, Z.pow_succ_r in Hlt by lia. lia.
Qed.

Lemma gcd_fuel_enough b : b <> 0 -> Z.abs b < 2 ^ Z.of_nat (S (Z.to_nat (Z.log2 (Z.abs b)))).
Proof.
  intros Hb. pose proof (Z.log2_nonneg (Z.abs b)).
  rewrite Nat2Z.inj_succ, Z2Nat.id by assumption.
  apply Z.log2_spec. lia.
Qed.

(** [gcd] never returns zero, so the two divisions of [Simplify] cannot
    panic. *)
Lemma gcd_nonzero n : gcd n <> 0.
Proof.
  unfold gcd. destruct (_ || _) eqn:E; [lia|].
  apply orb_false_iff in E as [Eb _]. apply Z.eqb_neq in Eb.
  eapply gcd_loop_spec; [exact Eb | apply gcd_fuel_enough; exact Eb |].
  unfold gcd_fuel. lia.
Qed.

Lemma gcd_abs n :
  N n <> 0 -> D n <> 0 -> Z.abs (gcd n) = Z.gcd (N n) (D n).
Proof.
  intros HN HD. unfold gcd.
  assert (Hb : Z.min (D n) (N n) <> 0) by lia.
  assert (Ha : Z.max (D n) (N n) <> 0) by lia.
  apply Z.eqb_neq in Hb as Hb', Ha as Ha'. rewrite Hb', Ha'. cbn [orb].
  destruct (gcd_loop_spec _ (gcd_fuel (Z.min (D n) (N n)))
              (Z.max (D n) (N n)) _ Hb (gcd_fuel_enough _ Hb)) as [_ ->].
  { unfold gcd_fuel. lia. }
  destruct (Z.le_gt_cases (D n) (N n)) as [Hle|Hgt].
  - rewrite Z.max_r, Z.min_l by assumption. reflexivity.
  - rewrite Z.max_l, Z.min_r by lia. apply Z.gcd_comm.
Qed.

Lemma gcd_zero_operand n : N n = 0 \/ D n = 0 -> gcd n = 1.
Proof.
  intros H. unfold gcd.
  assert (Z.min (D n) (N n) = 0 \/ Z.max (D n) (N n) = 0) as [E|E] by lia;
    rewrite E; cbn; [reflexivity|].
  destruct (_ =? 0); reflexivity.
Qed.

(** *** Reduction to lowest terms *)

(** Exact division by a common divisor, and the wrap-around it avoids. *)
Lemma quo_exact k g :
  g <> 0 -> Z.abs (k * g) <= GoInt.max_int -> GoInt.quo (k * g) g = k.
Proof.
  intros Hg Hb. unfold GoInt.quo. rewrite Z.quot_mul by assumption.
  apply wrap_id. unfold GoInt.in_range, GoInt.min_int, GoInt.max_int in *.
  rewrite Z.abs_mul in Hb. nia.
Qed.

Lemma neg_exact k : Z.abs k <= GoInt.max_int -> GoInt.mul k (-1) = - k.
Proof.
  intros Hb. unfold GoInt.mul. replace (k * -1) with (- k) by lia.
  apply wrap_id. unfold GoInt.in_range, GoInt.min_int, GoInt.max_int in *. lia.
Qed.

(** With both components non-zero and neither equal to [min_int], [Simplify]
    divides out the greatest common divisor and moves the sign to the
    numerator. *)
Lemma Simplify_nonzero n :
  N n <> 0 -> D n <> 0 ->
  Z.abs (N n) <= GoInt.max_int -> Z.abs (D n) <= GoInt.max_int ->
  0 < D (Simplify n) /\
  Z.gcd (N (Simplify n)) (D (Simplify n)) = 1 /\
  N (Simplify n) * D n = N n * D (Simplify n) /\
  Z.abs (N (Simplify n)) <= Z.abs (N n) /\
  D (Simplify n) <= Z.abs (D n).
Proof.
  intros HN HD BN BD.
  pose proof (gcd_abs n HN HD) as Hg.
  pose proof (gcd_nonzero n) as Hg0.
  assert (exists kn kd, N n = kn * gcd n /\ D n = kd * gcd n /\ Z.gcd kn kd = 1)
    as (kn & kd & En & Ed & Hco).
  { destruct (Z.gcd_divide_l (N n) (D n)) as [a Ha].
    destruct (Z.gcd_divide_r (N n) (D n)) as [b Hb].
    assert (Hab : Z.gcd a b = 1).
    { pose proof (Z.gcd_mul_mono_r a b (Z.gcd (N n) (D n))) as Hm.
      rewrite <- Ha, <- Hb in Hm.
      pose proof (Z.gcd_nonneg (N n) (D n)).
      rewrite (Z.abs_eq (Z.gcd _ _)) in Hm by assumption.
      assert (Z.gcd (N n) (D n) <> 0) by lia. nia. }
    rewrite <- Hg in Ha, Hb.
    destruct (Z.abs_spec (gcd n)) as [[_ E]|[_ E]]; rewrite E in Ha, Hb.
    - exists a, b. auto.
    - exists (- a), (- b). rewrite Z.gcd_opp_l, Z.gcd_opp_r.
      split; [lia | split; [lia | assumption]]. }
  assert (Hkn : Z.abs kn <= Z.abs (N n)) by (rewrite En, Z.abs_mul; nia).
  assert (Hkd : Z.abs kd <= Z.abs (D n)) by (rewrite Ed, Z.abs_mul; nia).
  assert (ES : Simplify n =
               if kd <? 0 then mkFraction (- kn) (- kd) else mkFraction kn kd).
  { unfold Simplify.
    replace (GoInt.quo (D n) (gcd n)) with kd
      by (rewrite Ed at 1; symmetry; apply quo_exact; [|rewrite <- Ed]; assumption).
    replace (GoInt.quo (N n) (gcd n)) with kn
      by (rewrite En at 1; symmetry; apply quo_exact; [|rewrite <- En]; assumption).
    rewrite !neg_exact by lia. reflexivity. }
  rewrite ES.
  destruct (Z.ltb_spec kd 0) as [Hneg|Hpos]; cbn [N D].
  - rewrite Z.gcd_opp_l, Z.gcd_opp_r.
    repeat split; [lia | assumption | rewrite En, Ed; ring | lia | lia].
  - assert (kd <> 0) by (intros ->; lia).
    repeat split; [lia | assumption | rewrite En, Ed; ring | lia | lia].
Qed.

(** A zero numerator takes the guard [b == 0 || a == 0] of [gcd]: nothing is
    divided out and only the sign of the denominator is normalised. *)
Lemma Simplify_zero_numerator d :
  Z.abs d <= GoInt.max_int ->
  Simplify (mkFraction 0 d) = mkFraction 0 (Z.abs d).
Proof.
  intros Bd. unfold Simplify.
  rewrite gcd_zero_operand by (left; reflexivity). cbn [N D].
  assert (Ed : GoInt.quo d 1 = d).
  { unfold GoInt.quo. rewrite Z.quot_1_r. apply wrap_id.
    unfold GoInt.in_range, GoInt.min_int, GoInt.max_int in *. lia. }
  rewrite Ed. change (GoInt.quo 0 1) with 0. change (GoInt.mul 0 (-1)) with 0.
  destruct (Z.ltb_spec d 0).
  - rewrite neg_exact by assumption. f_equal. lia.
  - f_equal. lia.
Qed.

Lemma Qval_cross f g :
  D f <> 0 -> D g <> 0 -> N f * D g = N g * D f -> (Qval f == Qval g)%Q.
Proof.
  intros Hf Hg H. unfold Qval.
  assert (Hq : (inject_Z (N f) * inject_Z (D g) == inject_Z (N g) * inject_Z (D f))%Q).
  { rewrite <- !inject_Z_mult, H. reflexivity. }
  assert (Hf' : ~ (inject_Z (D f) == 0)%Q).
  { unfold Qeq. cbn. lia. }
  assert (Hg' : ~ (inject_Z (D g) == 0)%Q).
  { unfold Qeq. cbn. lia. }
  apply (Qmult_inj_r _ _ (inject_Z (D f) * inject_Z (D g))).
  { intros E. apply Qmult_integral in E. tauto. }
  transitivity (inject_Z (N f) * inject_Z (D g))%Q; [field; assumption|].
  rewrite Hq. field. assumption.
Qed.

End fraction_facts.

(** *** Exactness of the arithmetic below the overflow bound *)

Section fraction_arith.
Import fraction.

Lemma mul_exact a b :
  Z.abs a * Z.abs b <= GoInt.max_int -> GoInt.mul a b = a * b.
Proof.
  intros Hb. unfold GoInt.mul. apply wrap_id.
  unfold GoInt.in_range, GoInt.min_int, GoInt.max_int in *.
  rewrite <- Z.abs_mul in Hb. lia.
Qed.

Lemma Simplify_spec f :
  D f <> 0 -> Z.abs (N f) <= GoInt.max_int -> Z.abs (D f) <= GoInt.max_int ->
  0 < D (Simplify f) /\
  N (Simplify f) * D f = N f * D (Simplify f) /\
  Z.abs (N (Simplify f)) <= Z.abs (N f) /\
  D (Simplify f) <= Z.abs (D f).
Proof.
  intros HD BN BD. destruct (decide (N f = 0)) as [E|HN].
  - destruct f as [nf df]. cbn in *. subst nf.
    rewrite Simplify_zero_numerator by assumption. cbn. lia.
  - destruct (Simplify_nonzero f HN HD BN BD) as (? & _ & ? & ? & ?). auto.
Qed.

Lemma Qval_pos f : 0 < D f -> (Qval f == N f # Z.to_pos (D f))%Q.
Proof.
  intros HD. unfold Qval, Qeq, Qdiv, Qmult, Qinv. destruct f as [nf df]. cbn in *.
  destruct df as [|p|p]; try lia. cbn. lia.
Qed.

Lemma Qval_lt f g :
  0 < D f -> 0 < D g -> (N f * D g < N g * D f <-> (Qval f < Qval g)%Q).
Proof.
  intros Hf Hg. rewrite (Qval_pos f Hf), (Qval_pos g Hg).
  unfold Qlt. cbn. rewrite !Z2Pos.id by assumption. reflexivity.
Qed.

Lemma Qval_le f g :
  0 < D f -> 0 < D g -> (N f * D g <= N g * D f <-> (Qval f <= Qval g)%Q).
Proof.
  intros Hf Hg. rewrite (Qval_pos f Hf), (Qval_pos g Hg).
  unfold Qle. cbn. rewrite !Z2Pos.id by assumption. reflexivity.
Qed.

Lemma Qval_sign f : 0 < D f -> (0 < N f <-> (0 < Qval f)%Q).
Proof.
  intros Hf. rewrite (Qval_pos f Hf). unfold Qlt. cbn. lia.
Qed.

Lemma Qval_Simplify f :
  D f <> 0 -> Z.abs (N f) <= GoInt.max_int -> Z.abs (D f) <= GoInt.max_int ->
  (Qval (Simplify f) == Qval f)%Q.
Proof.
  intros HD BN BD. destruct (Simplify_spec f HD BN BD) as (Hp & Hx & _).
  apply Qval_cross; [lia | assumption | assumption].
Qed.

(** [Div] below the overflow bound: the result is the exact quotient, with a
    positive denominator and components no larger than the products formed. *)
Lemma Div_spec a b :
  D a <> 0 -> N b <> 0 ->
  Z.abs (N a) * Z.abs (D b) <= GoInt.max_int ->
  Z.abs (D a) * Z.abs (N b) <= GoInt.max_int ->
  0 < D (Div a b) /\
  N (Div a b) * (D a * N b) = N a * D b * D (Div a b) /\
  Z.abs (N (Div a b)) <= Z.abs (N a) * Z.abs (D b) /\
  D (Div a b) <= Z.abs (D a) * Z.abs (N b).
Proof.
  intros Ha Hb B1 B2. unfold Div.
  rewrite !mul_exact by assumption.
  destruct (Simplify_spec {| N := N a * D b; D := D a * N b |}) as (H1 & H2 & H3 & H4);
    cbn [N D]; rewrite ?Z.abs_mul; try assumption; [nia|].
  cbn [N D] in *. rewrite Z.abs_mul in H3, H4. auto.
Qed.

Lemma Qval_Div a b :
  D a <> 0 -> D b <> 0 -> N b <> 0 ->
  Z.abs (N a) * Z.abs (D b) <= GoInt.max_int ->
  Z.abs (D a) * Z.abs (N b) <= GoInt.max_int ->
  (Qval (Div a b) == Qval a / Qval b)%Q.
Proof.
  intros Ha Hdb Hb B1 B2.
  destruct (Div_spec a b Ha Hb B1 B2) as (Hp & Hx & _).
  transitivity (Qval {| N := N a * D b; D := D a * N b |}).
  { apply Qval_cross; cbn [N D]; [lia | nia | assumption]. }
  unfold Qval. cbn [N D]. rewrite !inject_Z_mult.
  assert (~ (inject_Z (D a) == 0)%Q) by (unfold Qeq; cbn; lia).
  assert (~ (inject_Z (D b) == 0)%Q) by (unfold Qeq; cbn; lia).
  assert (~ (inject_Z (N b) == 0)%Q) by (unfold Qeq; cbn; lia).
  field. auto.
Qed.

End fraction_arith.

(** *** Exact values of the four operations *)

Section fraction_exact.
Import fraction.

Lemma sub_exact a b :
  Z.abs a + Z.abs b <= GoInt.max_int -> GoInt.sub a b = a - b.
Proof.
  intros Hb. unfold GoInt.sub. apply wrap_id.
  unfold GoInt.in_range, GoInt.min_int, GoInt.max_int in *. lia.
Qed.

Lemma Qval_nonzero_den f : D f <> 0 -> ~ (inject_Z (D f) == 0)%Q.
Proof. intros H. unfold Qeq. cbn. lia. Qed.

Lemma Mul_bounded X Y X' Y' a b :
  bounded X Y a -> bounded X' Y' b ->
  X * X' <= GoInt.max_int -> Y * Y' <= GoInt.max_int ->
  bounded (X * X') (Y * Y') (Mul a b) /\ (Qval (Mul a b) == Qval a * Qval b)%Q.
Proof.
  intros (Ha1 & Ha2 & Ha3) (Hb1 & Hb2 & Hb3) HX HY. unfold Mul.
  assert (B1 : Z.abs (N a) * Z.abs (N b) <= X * X') by nia.
  assert (B2 : Z.abs (D a) * Z.abs (D b) <= Y * Y') by nia.
  rewrite (mul_exact (N a) (N b)) by (clear -B1 HX; lia).
  rewrite (mul_exact (D a) (D b)) by (clear -B2 HY; lia).
  assert (S1 : D a * D b <> 0) by nia.
  assert (S2 : Z.abs (N a * N b) <= GoInt.max_int) by (rewrite Z.abs_mul; lia).
  assert (S3 : Z.abs (D a * D b) <= GoInt.max_int) by (rewrite Z.abs_mul; lia).
  destruct (Simplify_spec {| N := N a * N b; D := D a * D b |} S1 S2 S3)
    as (H1 & H2 & H3 & H4).
  cbn [N D] in *. rewrite Z.abs_mul in H3, H4.
  split; [unfold bounded; lia|].
  rewrite (Qval_Simplify {| N := N a * N b; D := D a * D b |} S1 S2 S3).
  unfold Qval. cbn [N D]. rewrite !inject_Z_mult.
  pose proof (Qval_nonzero_den a ltac:(lia)). pose proof (Qval_nonzero_den b ltac:(lia)).
  field. auto.
Qed.

Lemma Div_bounded X Y X' Y' a b :
  bounded X Y a -> bounded X' Y' b -> N b <> 0 ->
  X * Y' <= GoInt.max_int -> Y * X' <= GoInt.max_int ->
  bounded (X * Y') (Y * X') (Div a b) /\ (Qval (Div a b) == Qval a / Qval b)%Q.
Proof.
  intros (Ha1 & Ha2 & Ha3) (Hb1 & Hb2 & Hb3) Hnb HX HY.
  assert (B1 : Z.abs (N a) * Z.abs (D b) <= X * Y') by nia.
  assert (B2 : Z.abs (D a) * Z.abs (N b) <= Y * X') by nia.
  destruct (Div_spec a b) as (H1 & _ & H3 & H4); [lia | lia | lia | lia |].
  split; [unfold bounded; lia|].
  apply Qval_Div; lia.
Qed.

Lemma Sub_bounded X Y X' Y' a b :
  bounded X Y a -> bounded X' Y' b ->
  X * Y' + X' * Y <= GoInt.max_int -> Y * Y' <= GoInt.max_int ->
  bounded (X * Y' + X' * Y) (Y * Y') (Sub a b)
  /\ (Qval (Sub a b) == Qval a - Qval b)%Q.
Proof.
  intros (Ha1 & Ha2 & Ha3) (Hb1 & Hb2 & Hb3) HX HY. unfold Sub.
  assert (B1 : Z.abs (N a) * Z.abs (D b) <= X * Y') by nia.
  assert (B2 : Z.abs (N b) * Z.abs (D a) <= X' * Y) by nia.
  assert (B3 : Z.abs (D a) * Z.abs (D b) <= Y * Y') by nia.
  assert (P1 : 0 <= X * Y') by nia. assert (P2 : 0 <= X' * Y) by nia.
  rewrite (mul_exact (N a) (D b)) by (clear -B1 P2 HX; lia).
  rewrite (mul_exact (N b) (D a)) by (clear -B2 P1 HX; lia).
  rewrite (mul_exact (D a) (D b)) by (clear -B3 HY; lia).
  rewrite sub_exact by (rewrite !Z.abs_mul; clear -B1 B2 HX; lia).
  assert (B4 : Z.abs (N a * D b - N b * D a) <= X * Y' + X' * Y).
  { pose proof (Z.abs_triangle (N a * D b) (- (N b * D a))) as Ht.
    rewrite Z.abs_opp, !Z.abs_mul in Ht.
    replace (N a * D b + - (N b * D a)) with (N a * D b - N b * D a) in Ht by lia.
    lia. }
  assert (S1 : D a * D b <> 0) by nia.
  assert (S2 : Z.abs (N a * D b - N b * D a) <= GoInt.max_int) by lia.
  assert (S3 : Z.abs (D a * D b) <= GoInt.max_int) by (rewrite Z.abs_mul; lia).
  destruct (Simplify_spec {| N := N a * D b - N b * D a; D := D a * D b |} S1 S2 S3)
    as (H1 & H2 & H3 & H4).
  cbn [N D] in *. rewrite Z.abs_mul in H4.
  split; [unfold bounded; lia|].
  rewrite (Qval_Simplify {| N := N a * D b - N b * D a; D := D a * D b |} S1 S2 S3).
  unfold Qval. cbn [N D]. unfold Z.sub. rewrite inject_Z_plus, inject_Z_opp, !inject_Z_mult.
  pose proof (Qval_nonzero_den a ltac:(lia)). pose proof (Qval_nonzero_den b ltac:(lia)).
  field. auto.
Qed.

Lemma Neg_bounded X Y a :
  bounded X Y a -> X <= GoInt.max_int -> Y <= GoInt.max_int ->
  bounded X Y (Neg a) /\ (Qval (Neg a) == - Qval a)%Q.
Proof.
  intros Ha HX HY. unfold Neg.
  destruct (Mul_bounded X Y 1 1 a {| N := -1; D := 1 |} Ha) as [Hb Hq];
    [unfold bounded; cbn; lia | lia | lia |].
  rewrite !Z.mul_1_r in Hb. split; [exact Hb|].
  rewrite Hq. unfold Qval at 2. cbn [N D]. field.
Qed.

(** The four formulas of the pivot exchange on entries bounded by [2^12]:
    no intermediate product leaves the 64-bit range and each result is the
    exact rational. *)
Lemma exchange_exact a b c p :
  bounded (2 ^ 12) (2 ^ 12) a -> bounded (2 ^ 12) (2 ^ 12) b ->
  bounded (2 ^ 12) (2 ^ 12) c -> bounded (2 ^ 12) (2 ^ 12) p ->
  N p <> 0 ->
  (Qval (Div {| N := 1; D := 1 |} p) == 1 / Qval p)%Q /\
  (Qval (Div a p) == Qval a / Qval p)%Q /\
  (Qval (Neg (Div a p)) == - (Qval a / Qval p))%Q /\
  (Qval (Div (Sub (Mul a p) (Mul b c)) p)
   == (Qval a * Qval p - Qval b * Qval c) / Qval p)%Q.
Proof.
  intros Ha Hb Hc Hp Hnp.
  assert (Hmax : 2 ^ 61 <= GoInt.max_int) by (vm_compute; discriminate).
  assert (Hone : bounded 1 1 {| N := 1; D := 1 |}) by (unfold bounded; cbn; lia).
  destruct (Div_bounded 1 1 _ _ _ p Hone Hp Hnp) as [_ E1]; [lia | lia |].
  destruct (Div_bounded _ _ _ _ a p Ha Hp Hnp) as [Bq E2]; [lia | lia |].
  destruct (Neg_bounded _ _ _ Bq) as [_ E3]; [lia | lia |].
  destruct (Mul_bounded _ _ _ _ a p Ha Hp) as [B1 E4]; [lia | lia |].
  destruct (Mul_bounded _ _ _ _ b c Hb Hc) as [B2 E5]; [lia | lia |].
  destruct (Sub_bounded _ _ _ _ _ _ B1 B2) as [B3 E6]; [lia | lia |].
  destruct (Div_bounded _ _ _ _ _ p B3 Hp Hnp) as [_ E7]; [lia | lia |].
  split; [|split; [|split]].
  - rewrite E1. unfold Qval at 1. cbn [N D]. reflexivity.
  - exact E2.
  - by rewrite E3, E2.
  - by rewrite E7, E6, E4, E5.
Qed.

(** The results of the four formulas have positive denominators. *)
Lemma exchange_denominators a b c p :
  bounded (2 ^ 12) (2 ^ 12) a -> bounded (2 ^ 12) (2 ^ 12) b ->
  bounded (2 ^ 12) (2 ^ 12) c -> bounded (2 ^ 12) (2 ^ 12) p ->
  N p <> 0 ->
  0 < D (Div {| N := 1; D := 1 |} p) /\
  0 < D (Div a p) /\
  0 < D (Neg (Div a p)) /\
  0 < D (Div (Sub (Mul a p) (Mul b c)) p).
Proof.
  intros Ha Hb Hc Hp Hnp.
  assert (Hmax : 2 ^ 61 <= GoInt.max_int) by (vm_compute; discriminate).
  assert (Hone : bounded 1 1 {| N := 1; D := 1 |}) by (unfold bounded; cbn; lia).
  destruct (Div_bounded 1 1 _ _ _ p Hone Hp Hnp) as [(_ & P1 & _) _]; [lia | lia |].
  destruct (Div_bounded _ _ _ _ a p Ha Hp Hnp) as [Bq _]; [lia | lia |].
  destruct (Neg_bounded _ _ _ Bq) as [(_ & P3 & _) _]; [lia | lia |].
  destruct (Mul_bounded _ _ _ _ a p Ha Hp) as [B1 _]; [lia | lia |].
  destruct (Mul_bounded _ _ _ _ b c Hb Hc) as [B2 _]; [lia | lia |].
  destruct (Sub_bounded _ _ _ _ _ _ B1 B2) as [B3 _]; [lia | lia |].
  destruct (Div_bounded _ _ _ _ _ p B3 Hp Hnp) as [(_ & P4 & _) _]; [lia | lia |].
  destruct Bq as (_ & P2 & _).
  split_conj; assumption.
Qed.

End fraction_exact.

(** ** Reduction to lowest terms (C4) *)

(** C4, as stated, at the fraction 0/5: [Simplify] leaves it as 0/5, whose
    components have greatest common divisor 5, and does not produce 0/1. *)
Lemma Simplify_zero_over_five :
  fr.Simplify (fr.mkFraction 0 5) = fr.mkFraction 0 5 /\
  Z.gcd (Z.abs (fr.N (fr.Simplify (fr.mkFraction 0 5))))
        (fr.D (fr.Simplify (fr.mkFraction 0 5))) = 5 /\
  fr.Simplify (fr.mkFraction 0 5) <> fr.mkFraction 0 1.
Proof. split_and!; [reflexivity | reflexivity | discriminate]. Qed.

(** The one overflow of [Simplify]: negating [min_int] wraps, so the sign of
    -2^63 / -1 is lost and 1 / -2^63 keeps a negative denominator. *)
Lemma Simplify_min_int_wraps :
  fr.Simplify (fr.mkFraction GoInt.min_int (-1)) = fr.mkFraction GoInt.min_int 1 /\
  fr.Simplify (fr.mkFraction 1 GoInt.min_int) = fr.mkFraction (-1) GoInt.min_int.
Proof. split; vm_compute; reflexivity. Qed.

(** C4, amended: for a fraction [n/d] with [d <> 0] and neither component
    equal to the minimum integer, [Simplify] yields [n'/d'] with [d' > 0] and
    [n'/d' = n/d] as exact rationals; when [n <> 0] the result is in lowest
    terms, [gcd(|n'|, d') = 1]; when [n = 0] the result is [0/|d|] (the
    denominator is not reduced to 1). *)
Theorem Simplify_lowest_terms (n d : Z) :
  d <> 0 -> Z.abs n <= GoInt.max_int -> Z.abs d <= GoInt.max_int ->
  0 < fr.D (fr.Simplify (fr.mkFraction n d)) /\
  fr.N (fr.Simplify (fr.mkFraction n d)) * d
    = n * fr.D (fr.Simplify (fr.mkFraction n d)) /\
  (fr.Qval (fr.Simplify (fr.mkFraction n d)) == fr.Qval (fr.mkFraction n d))%Q /\
  (n <> 0 ->
   Z.gcd (Z.abs (fr.N (fr.Simplify (fr.mkFraction n d))))
         (fr.D (fr.Simplify (fr.mkFraction n d))) = 1) /\
  (n = 0 -> fr.Simplify (fr.mkFraction n d) = fr.mkFraction 0 (Z.abs d)).
Proof.
  intros Hd Bn Bd.
  assert (Hcore : 0 < fr.D (fr.Simplify (fr.mkFraction n d)) /\
                  fr.N (fr.Simplify (fr.mkFraction n d)) * d
                  = n * fr.D (fr.Simplify (fr.mkFraction n d))).
  { destruct (decide (n = 0)) as [->|Hn].
    - rewrite Simplify_zero_numerator by assumption. cbn. lia.
    - destruct (Simplify_nonzero (fr.mkFraction n d)) as (Hp & _ & Hx & _);
        cbn; auto. }
  destruct Hcore as [Hpos Hcross]. split_and!; try assumption.
  - apply Qval_cross; cbn; [lia | assumption | assumption].
  - intros Hn.
    destruct (Simplify_nonzero (fr.mkFraction n d)) as (_ & Hg & _); cbn; auto.
    by rewrite Z.gcd_abs_l.
  - intros ->. by apply Simplify_zero_numerator.
Qed.

Lemma Simplify_lowest_terms_witness :
  (-4 <> 0 /\ Z.abs 6 <= GoInt.max_int /\ Z.abs (-4) <= GoInt.max_int) /\
  0 < fr.D (fr.Simplify (fr.mkFraction 6 (-4))) /\
  fr.N (fr.Simplify (fr.mkFraction 6 (-4))) * -4
    = 6 * fr.D (fr.Simplify (fr.mkFraction 6 (-4))) /\
  (fr.Qval (fr.Simplify (fr.mkFraction 6 (-4))) == fr.Qval (fr.mkFraction 6 (-4)))%Q /\
  (6 <> 0 ->
   Z.gcd (Z.abs (fr.N (fr.Simplify (fr.mkFraction 6 (-4)))))
         (fr.D (fr.Simplify (fr.mkFraction 6 (-4)))) = 1) /\
  (6 = 0 -> fr.Simplify (fr.mkFraction 6 (-4)) = fr.mkFraction 0 (Z.abs (-4))).
Proof.
  split.
  - split_and!; [lia | vm_compute; discriminate | vm_compute; discriminate].
  - apply (Simplify_lowest_terms 6 (-4));
      [lia | vm_compute; discriminate | vm_compute; discriminate].
Defined.

(** ** Slices and loops *)

Section slice_facts.
Context {A : Type}.
Implicit Types (l : list A) (i k : Z) (v x : A).

Lemma index_range l i x : index l i = Some x -> 0 <= i < len l.
Proof.
  unfold index, len. case_decide as Hi; [|discriminate].
  intros Hlt%lookup_lt_Some. lia.
Qed.

Lemma index_is_Some l i : 0 <= i < len l -> is_Some (index l i).
Proof.
  unfold index, len. intros Hi. rewrite decide_True by lia.
  apply lookup_lt_is_Some. lia.
Qed.

Lemma index_of_nat l (k : nat) : index l (Z.of_nat k) = l !! k.
Proof. unfold index. rewrite decide_True by lia. by rewrite Nat2Z.id. Qed.

Lemma store_in_range l i v :
  0 <= i < len l -> store l i v = Some (<[Z.to_nat i := v]> l).
Proof. intros Hi. unfold store. by rewrite decide_True. Qed.

Lemma store_len l l' i v : store l i v = Some l' -> len l' = len l.
Proof.
  unfold store, len. case_decide; [|discriminate].
  intros [= <-]. by rewrite length_insert.
Qed.

Lemma index_store l l' i v k :
  store l i v = Some l' ->
  index l' k = if decide (k = i) then Some v else index l k.
Proof.
  unfold store, index, len. case_decide as Hi; [|discriminate].
  intros [= <-]. case_decide as Hk.
  - case_decide as E.
    + subst k. apply list_lookup_insert_eq. lia.
    + apply list_lookup_insert_ne. lia.
  - rewrite decide_False by lia. reflexivity.
Qed.

End slice_facts.

Section loop_facts.
Context {S : Type}.

(** The invariant rule for [for_range]: an invariant that holds at the start
    and is carried by every iteration holds at the end, and no iteration
    panics. *)
Lemma for_range_inv (I : Z -> S -> Prop) (count : nat) :
  forall lo (body : Z -> S -> option S) st,
    I lo st ->
    (forall k st0, lo <= k < lo + Z.of_nat count -> I k st0 ->
                   exists st1, body k st0 = Some st1 /\ I (k + 1) st1) ->
    exists st', for_range lo count body st = Some st' /\ I (lo + Z.of_nat count) st'.
Proof.
  induction count as [|c IH]; intros lo body st H0 Hstep.
  - exists st. split; [reflexivity|]. by rewrite Z.add_0_r.
  - destruct (Hstep lo st ltac:(lia) H0) as (st1 & E1 & H1).
    destruct (IH (lo + 1) body st1 H1) as (st' & E' & H').
    { intros k st0 Hk. apply Hstep. lia. }
    exists st'. cbn [for_range]. rewrite E1. cbn. split; [exact E'|].
    replace (lo + Z.of_nat (Datatypes.S c)) with (lo + 1 + Z.of_nat c) by lia.
    exact H'.
Qed.

Lemma for_loop_inv (I : Z -> S -> Prop) lo hi (body : Z -> S -> option S) st :
  lo <= hi ->
  I lo st ->
  (forall k st0, lo <= k < hi -> I k st0 ->
                 exists st1, body k st0 = Some st1 /\ I (k + 1) st1) ->
  exists st', for_loop lo hi body st = Some st' /\ I hi st'.
Proof.
  intros Hle H0 Hstep. unfold for_loop.
  destruct (for_range_inv I (Z.to_nat (hi - lo)) lo body st H0) as (st' & E & H').
  { intros k st0 Hk. apply Hstep. lia. }
  exists st'. split; [exact E|].
  replace hi with (lo + Z.of_nat (Z.to_nat (hi - lo))) at 1 by lia. exact H'.
Qed.

(** A loop over an empty range does nothing. *)
Lemma for_loop_empty lo hi (body : Z -> S -> option S) st :
  hi <= lo -> for_loop lo hi body st = Some st.
Proof.
  intros H. unfold for_loop. replace (Z.to_nat (hi - lo)) with O by lia.
  reflexivity.
Qed.

End loop_facts.

Section return_facts.
Context {R : Type}.

(** [for_return] without a panic: either some first iteration returned, or
    every iteration went on. *)
Lemma for_return_spec (count : nat) :
  forall lo (body : Z -> option (option R)),
    (forall k, lo <= k < lo + Z.of_nat count -> is_Some (body k)) ->
    (exists k r, lo <= k < lo + Z.of_nat count /\
                 body k = Some (Some r) /\
                 (forall k', lo <= k' < k -> body k' = Some None) /\
                 for_return lo count body = Some (Some r))
    \/ ((forall k, lo <= k < lo + Z.of_nat count -> body k = Some None) /\
        for_return lo count body = Some None).
Proof.
  induction count as [|c IH]; intros lo body Hsome.
  - right. split; [intros k Hk; lia | reflexivity].
  - destruct (Hsome lo ltac:(lia)) as [res Eres].
    cbn [for_return]. rewrite Eres. cbn.
    destruct res as [r|].
    + left. exists lo, r. split_and!; [lia | lia | exact Eres | lia | reflexivity].
    + destruct (IH (lo + 1) body) as [(k & r & Hk & Ek & Hbefore & E)|[Hall E]].
      { intros k Hk. apply Hsome. lia. }
      * left. exists k, r. split_and!; [lia | lia | exact Ek | | exact E].
        intros k' Hk'. destruct (decide (k' = lo)) as [->|]; [exact Eres|].
        apply Hbefore. lia.
      * right. split; [|exact E].
        intros k Hk. destruct (decide (k = lo)) as [->|]; [exact Eres|].
        apply Hall. lia.
Qed.

End return_facts.

(** ** Grids *)

Section grid_facts.
Implicit Types (T : list (list fr.Fraction)) (i j m n : Z).

Lemma dims_row T m n i row :
  dims T m n -> index T i = Some row -> len row = n.
Proof.
  intros [_ Hrows] Hi. unfold index in Hi. case_decide; [|discriminate].
  rewrite Forall_lookup in Hrows. exact (Hrows _ _ Hi).
Qed.

Lemma cell_in_range T m n i j :
  dims T m n -> 0 <= i < m -> 0 <= j < n -> is_Some (cell T i j).
Proof.
  intros Hd Hi Hj. unfold cell.
  destruct (index_is_Some T i) as [row Hrow].
  { destruct Hd as [-> _]. exact Hi. }
  rewrite Hrow. cbn. apply index_is_Some.
  by rewrite (dims_row _ _ _ _ _ Hd Hrow).
Qed.

Lemma cell_range T m n i j x :
  dims T m n -> cell T i j = Some x -> 0 <= i < m /\ 0 <= j < n.
Proof.
  intros Hd. unfold cell.
  destruct (index T i) as [row|] eqn:Hrow; [|discriminate]. cbn.
  intros Hj%index_range. apply index_range in Hrow as Hi.
  rewrite (dims_row _ _ _ _ _ Hd Hrow) in Hj.
  destruct Hd as [<- _]. lia.
Qed.

(** Writing one in-range cell succeeds, keeps the shape and changes that
    cell only. *)
Lemma set_cell_spec T m n i j v :
  dims T m n -> 0 <= i < m -> 0 <= j < n ->
  exists T', set_cell T i j v = Some T' /\ dims T' m n /\
    forall i' j', cell T' i' j' =
                  if decide (i' = i /\ j' = j) then Some v else cell T i' j'.
Proof.
  intros Hd Hi Hj. unfold set_cell.
  destruct (index_is_Some T i) as [row Hrow].
  { destruct Hd as [-> _]. exact Hi. }
  pose proof (dims_row _ _ _ _ _ Hd Hrow) as Hlen.
  rewrite Hrow. cbn.
  rewrite (store_in_range row j v) by lia. cbn.
  assert (HiT : 0 <= i < len T) by (destruct Hd as [-> _]; lia).
  rewrite store_in_range by exact HiT.
  eexists. split; [reflexivity|]. split.
  - destruct Hd as [Hm Hrows]. split; [unfold len in *; by rewrite length_insert|].
    apply Forall_insert; [exact Hrows|]. unfold len in *. by rewrite length_insert.
  - intros i' j'. unfold cell.
    rewrite (index_store T _ i _ i' (store_in_range T i _ HiT)).
    destruct (decide (i' = i)) as [->|Hne].
    + cbn. rewrite (index_store row _ j v j' (store_in_range row j v ltac:(lia))).
      rewrite Hrow. cbn.
      destruct (decide (j' = j)) as [->|Hnj].
      * by rewrite decide_True.
      * rewrite decide_False by tauto. reflexivity.
    + rewrite decide_False by tauto. reflexivity.
Qed.

Lemma wf_row0 t m n :
  well_formed t m n -> 1 <= m ->
  exists row0, index (Table t) 0 = Some row0 /\ len row0 = n.
Proof.
  intros (Hd & _) Hm.
  destruct (index_is_Some (Table t) 0) as [row0 H0].
  { destruct Hd as [-> _]. lia. }
  exists row0. split; [exact H0|]. exact (dims_row _ _ _ _ _ Hd H0).
Qed.

Lemma entry_cell t i j c : cell (Table t) i j = Some c -> entry t i j = c.
Proof. unfold entry. by intros ->. Qed.

Lemma wf_cell t m n i j :
  well_formed t m n -> 0 <= i < m -> 0 <= j < n ->
  cell (Table t) i j = Some (entry t i j).
Proof.
  intros (Hd & _) Hi Hj.
  destruct (cell_in_range _ _ _ _ _ Hd Hi Hj) as [c Hc].
  by rewrite (entry_cell _ _ _ _ Hc).
Qed.

Lemma wf_dirtX t m n j :
  well_formed t m n -> 0 <= j < n -> is_Some (index (dirtX t) j).
Proof. intros (_ & _ & HX & _) Hj. apply index_is_Some. by rewrite HX. Qed.

Lemma wf_dirtY t m n i :
  well_formed t m n -> 0 <= i < m -> is_Some (index (dirtY t) i).
Proof. intros (_ & HY & _) Hi. apply index_is_Some. by rewrite HY. Qed.

End grid_facts.

(** ** Construction *)

Section make_facts.
Context {A : Type}.

Lemma make_Some (zero : A) n :
  0 <= n -> make zero n = Some (replicate (Z.to_nat n) zero).
Proof. intros Hn. unfold make. by rewrite decide_True. Qed.

Lemma len_replicate (zero : A) n : 0 <= n -> len (replicate (Z.to_nat n) zero) = n.
Proof. intros Hn. unfold len. rewrite length_replicate. lia. Qed.

Lemma index_replicate (zero : A) n i :
  0 <= i < n -> index (replicate (Z.to_nat n) zero) i = Some zero.
Proof.
  intros Hi. unfold index. rewrite decide_True by lia.
  apply lookup_replicate_2. lia.
Qed.

(** A loop that stores [f i] at every index [i < k]. *)
Lemma store_loop (f : Z -> A) (g : Z -> list A -> option (list A)) (l : list A) k :
  (forall i l', 0 <= i < k -> g i l' = store l' i (f i)) ->
  0 <= k <= len l ->
  exists l', for_loop 0 k g l = Some l' /\ len l' = len l /\
    (forall i, 0 <= i < k -> index l' i = Some (f i)) /\
    (forall i, ~ 0 <= i < k -> index l' i = index l i).
Proof.
  intros Hg Hk.
  pose (I := fun (j : Z) (l' : list A) =>
    len l' = len l /\
    (forall i, 0 <= i < j -> index l' i = Some (f i)) /\
    (forall i, ~ 0 <= i < j -> index l' i = index l i)).
  destruct (for_loop_inv I 0 k g l) as (l' & E & HI).
  - lia.
  - split; [reflexivity|]. split; [intros i Hi; lia|done].
  - intros j l0 Hj (Hlen & Hset & Hrest).
    rewrite Hg by lia.
    assert (Es : store l0 j (f j) = Some (<[Z.to_nat j := f j]> l0))
      by (apply store_in_range; lia).
    rewrite Es. eexists. split; [reflexivity|]. split; [|split].
    + rewrite <- Hlen. exact (store_len _ _ _ _ Es).
    + intros i Hi. rewrite (index_store _ _ _ _ i Es).
      case_decide; [by subst|]. apply Hset. lia.
    + intros i Hi. rewrite (index_store _ _ _ _ i Es).
      rewrite decide_False by lia. apply Hrest. lia.
  - exists l'. split; [exact E|]. exact HI.
Qed.

End make_facts.

(** [Init] for at least one row and one column: the grid has the asked
    dimensions and every entry is the zero value [0/0]; the row labels are
    [s1 .. s(rows-1)] then [F], the column labels [-x1 .. -x(cols-1)] then
    [const]; nothing is masked and the sense is maximization. *)
Lemma Init_spec rows cols :
  1 <= rows -> 1 <= cols ->
  exists t, Init rows cols = Some t /\
    well_formed t rows cols /\
    (forall i j, 0 <= i < rows -> 0 <= j < cols ->
       cell (Table t) i j = Some zero_value) /\
    (forall i, 0 <= i < rows -> index (dirtY t) i = Some false) /\
    (forall j, 0 <= j < cols -> index (dirtX t) j = Some false) /\
    (forall i, 0 <= i < rows - 1 ->
       index (RowNames t) i = Some ("s" +:+ sprint_d (i + 1))) /\
    index (RowNames t) (rows - 1) = Some "F"%string /\
    (forall j, 0 <= j < cols - 1 ->
       index (ColNames t) j = Some ("-x" +:+ sprint_d (j + 1))) /\
    index (ColNames t) (cols - 1) = Some "const"%string /\
    IsMaximization t = true.
Proof.
  intros Hrows Hcols. unfold Init.
  rewrite (make_Some ([] : list fr.Fraction)) by lia. cbn.
  rewrite len_replicate by lia.
  destruct (store_loop (fun _ => replicate (Z.to_nat cols) zero_value)
              (fun i T => make zero_value cols ≫= fun row => store T i row)
              (replicate (Z.to_nat rows) []) rows)
    as (tab & -> & Hlen & Htab & _).
  { intros i l' Hi. by rewrite make_Some by lia. }
  { rewrite len_replicate by lia. lia. }
  rewrite len_replicate in Hlen by lia. cbn.
  rewrite !(make_Some false), !(make_Some ""%string) by lia. cbn.
  destruct (store_loop (fun i => "s" +:+ sprint_d (i + 1))
              (fun i names => store names i ("s" +:+ sprint_d (i + 1)))
              (replicate (Z.to_nat rows) ""%string) (rows - 1))
    as (rn & -> & Hlrn & Hrn & _).
  { done. }
  { rewrite len_replicate by lia. lia. }
  rewrite len_replicate in Hlrn by lia. cbn.
  assert (Ern : store rn (rows - 1) "F"%string
                = Some (<[Z.to_nat (rows - 1) := "F"%string]> rn))
    by (apply store_in_range; lia).
  rewrite Ern. cbn.
  destruct (store_loop (fun j => "-x" +:+ sprint_d (j + 1))
              (fun j names => store names j ("-x" +:+ sprint_d (j + 1)))
              (replicate (Z.to_nat cols) ""%string) (cols - 1))
    as (cn & -> & Hlcn & Hcn & _).
  { done. }
  { rewrite len_replicate by lia. lia. }
  rewrite len_replicate in Hlcn by lia. cbn.
  assert (Ecn : store cn (cols - 1) "const"%string
                = Some (<[Z.to_nat (cols - 1) := "const"%string]> cn))
    by (apply store_in_range; lia).
  rewrite Ecn. cbn.
  eexists. split; [reflexivity|]. cbn.
  assert (Hd : dims tab rows cols).
  { split; [exact Hlen|]. apply Forall_lookup. intros k row Hk.
    rewrite <- index_of_nat in Hk.
    apply index_range in Hk as Hr. rewrite Htab in Hk by lia.
    injection Hk as <-. apply len_replicate. lia. }
  split.
  { unfold well_formed. cbn. split; [exact Hd|].
    rewrite !len_replicate by lia.
    rewrite (store_len _ _ _ _ Ern), (store_len _ _ _ _ Ecn). done. }
  split.
  { intros i j Hi Hj. unfold cell. rewrite Htab by lia. cbn.
    apply index_replicate. lia. }
  split; [intros i Hi; by apply index_replicate|].
  split; [intros j Hj; by apply index_replicate|].
  split.
  { intros i Hi. rewrite (index_store _ _ _ _ i Ern).
    rewrite decide_False by lia. apply Hrn. lia. }
  split; [rewrite (index_store _ _ _ _ _ Ern); by rewrite decide_True|].
  split.
  { intros j Hj. rewrite (index_store _ _ _ _ j Ecn).
    rewrite decide_False by lia. apply Hcn. lia. }
  split; [rewrite (index_store _ _ _ _ _ Ecn); by rewrite decide_True|].
  reflexivity.
Qed.

(** *** The entries of a new grid (C7) *)

(** C7 at [Init 2 2]: every entry of the grid is the zero value of
    [Fraction], numerator 0 over denominator 0; labels, masks and sense are
    the documented defaults. *)
Theorem Init_entries_have_zero_denominator :
  Init 2 2 =
  Some {| Table := [ [ {| fr.N := 0; fr.D := 0 |}; {| fr.N := 0; fr.D := 0 |} ];
                     [ {| fr.N := 0; fr.D := 0 |}; {| fr.N := 0; fr.D := 0 |} ] ];
          dirtX := [false; false];
          dirtY := [false; false];
          RowNames := ["s1"; "F"]%string;
          ColNames := ["-x1"; "const"]%string;
          IsMaximization := true |}.
Proof. vm_compute. reflexivity. Qed.

(** An entry left at that zero value absorbs what is added to it or
    subtracted from it, as problem assembly does with the objective's
    constant term. *)
Lemma zero_value_absorbs c :
  fr.Add zero_value c = zero_value /\ fr.Sub zero_value c = zero_value.
Proof.
  unfold fr.Add, fr.Sub, zero_value. cbn [fr.N fr.D].
  change (GoInt.mul 0 (fr.D c)) with 0. change (GoInt.mul 0 (fr.N c)) with 0.
  assert (E0 : GoInt.mul (fr.N c) 0 = 0)
    by (unfold GoInt.mul; rewrite Z.mul_0_r; reflexivity).
  rewrite E0. split; reflexivity.
Qed.

(** ** Pivot selection *)

Section pivot_facts.
Variables (t : Tableau) (m n : Z).
Hypothesis Hwf : well_formed t m n.
Hypothesis Hm : 1 <= m.
Hypothesis Hn : 1 <= n.

Lemma wf_len_Table : len (Table t) = m.
Proof. by destruct Hwf as ([? _] & _). Qed.

Lemma masked_not_unmasked_col j : index (dirtX t) j = Some true -> ~ unmasked_col t j.
Proof. unfold unmasked_col. congruence. Qed.

Lemma masked_not_unmasked_row i : index (dirtY t) i = Some true -> ~ unmasked_row t i.
Proof. unfold unmasked_row. congruence. Qed.

(** The first loop of [Pivot] never panics.  It ends with [s = -1] exactly
    when no unmasked non-RHS column has an improving objective entry;
    otherwise [s] is the first such column whose objective entry has the
    extreme numerator (least when maximizing, greatest when minimizing). *)
Lemma Pivot_entering_spec :
  exists s, Pivot_entering t = Some s /\
    ((s = -1 /\
      forall j, 0 <= j < n - 1 -> unmasked_col t j -> ~ improving t (objective t j))
     \/ (0 <= s < n - 1 /\ unmasked_col t s /\ improving t (objective t s) /\
         forall j, 0 <= j < n - 1 -> unmasked_col t j -> improving t (objective t j) ->
           (if IsMaximization t
            then fr.N (objective t s) <= fr.N (objective t j)
            else fr.N (objective t j) <= fr.N (objective t s))
           /\ (j < s -> fr.N (objective t j) <> fr.N (objective t s)))).
Proof using Hwf Hm Hn.
  unfold Pivot_entering.
  destruct (wf_row0 t m n Hwf Hm) as (row0 & -> & Hrow0). cbn. rewrite Hrow0.
  pose (I := fun (j : Z) (st : Z * fr.Fraction) =>
    (st.1 = -1 /\
     forall j', 0 <= j' < j -> unmasked_col t j' -> ~ improving t (objective t j'))
    \/ (0 <= st.1 < j /\ unmasked_col t st.1 /\ improving t (objective t st.1) /\
        st.2 = objective t st.1 /\
        forall j', 0 <= j' < j -> unmasked_col t j' -> improving t (objective t j') ->
          (if IsMaximization t
           then fr.N (objective t st.1) <= fr.N (objective t j')
           else fr.N (objective t j') <= fr.N (objective t st.1))
          /\ (j' < st.1 -> fr.N (objective t j') <> fr.N (objective t st.1)))).
  destruct (for_loop_inv I 0 (n - 1) (entering_step t (len (Table t)))
              (-1, {| fr.N := 0; fr.D := 1 |})) as ([s pv] & -> & HI).
  - lia.
  - left. split; [reflexivity|]. intros j' Hj'. lia.
  - intros k [s pv] Hk HI. unfold entering_step.
    unfold I in HI |- *. cbn [fst snd] in HI |- *.
    destruct (wf_dirtX t m n k Hwf ltac:(lia)) as [dx Hdx]. rewrite Hdx. cbn.
    assert (Hobj : cell (Table t) (len (Table t) - 1) k = Some (objective t k)).
    { unfold objective. rewrite wf_len_Table. apply (wf_cell t m n); [assumption|lia|lia]. }
    destruct dx.
    { (* masked column: skipped *)
      eexists. split; [reflexivity|].
      pose proof (masked_not_unmasked_col k Hdx) as Hmask.
      destruct HI as [[Es HA]|(Hs & Hu & Himp & Epv & HB)]; cbn in *.
      - left. split; [assumption|]. intros j' Hj' Hu'.
        destruct (decide (j' = k)) as [->|]; [done|]. apply HA; [lia|done].
      - right. split; [lia|]. do 3 (split; [first [done|lia]|]). intros j' Hj' Hu'.
        destruct (decide (j' = k)) as [->|]; [done|]. apply HB; [lia|done]. }
    rewrite Hobj. cbn.
    assert (Hstay : I k (s, pv) -> ~ improving t (objective t k) -> I (k + 1) (s, pv)).
    { unfold I. cbn [fst snd].
      intros [[Es HA]|(Hs & Hu & Himp & Epv & HB)] Hno; cbn in *.
      - left. split; [assumption|]. intros j' Hj' Hu'.
        destruct (decide (j' = k)) as [->|]; [done|]. apply HA; [lia|done].
      - right. split; [lia|]. do 3 (split; [first [done|lia]|]). intros j' Hj' Hu' Hi'.
        destruct (decide (j' = k)) as [->|]; [done|]. apply HB; [lia|done|done]. }
    unfold improving in *.
    destruct (IsMaximization t) eqn:Emax.
    + destruct (Z.ltb_spec (fr.N (objective t k)) 0) as [Hneg|Hnn].
      2:{ eexists. split; [reflexivity|]. apply Hstay; [exact HI|lia]. }
      destruct HI as [[Es HA]|(Hs & Hu & Himp & Epv & HB)]; cbn in *.
      * subst s. cbn. eexists. split; [reflexivity|]. right. cbn.
        split; [lia|]. do 3 (split; [first [done|lia]|]). intros j' Hj' Hu' Hi'.
        destruct (decide (j' = k)) as [->|]; [lia|].
        exfalso. apply (HA j'); [lia|done|done].
      * replace (s =? -1) with false by (symmetry; apply Z.eqb_neq; lia). cbn.
        subst pv.
        destruct (Z.ltb_spec (fr.N (objective t k)) (fr.N (objective t s))) as [Hlt|Hge].
        -- eexists. split; [reflexivity|]. right. cbn.
           split; [lia|]. do 3 (split; [first [done|lia]|]). intros j' Hj' Hu' Hi'.
           destruct (decide (j' = k)) as [->|]; [lia|].
           destruct (HB j' ltac:(lia) Hu' Hi') as [H1 H2]. lia.
        -- eexists. split; [reflexivity|]. right. cbn.
           split; [lia|]. do 3 (split; [first [done|lia]|]). intros j' Hj' Hu' Hi'.
           destruct (decide (j' = k)) as [->|]; [lia|].
           apply HB; [lia|done|done].
    + rewrite !Z.gtb_ltb.
      destruct (Z.ltb_spec 0 (fr.N (objective t k))) as [Hpos|Hnp].
      2:{ eexists. split; [reflexivity|]. apply Hstay; [exact HI|lia]. }
      destruct HI as [[Es HA]|(Hs & Hu & Himp & Epv & HB)]; cbn in *.
      * subst s. cbn. eexists. split; [reflexivity|]. right. cbn.
        split; [lia|]. do 3 (split; [first [done|lia]|]). intros j' Hj' Hu' Hi'.
        destruct (decide (j' = k)) as [->|]; [lia|].
        exfalso. apply (HA j'); [lia|done|done].
      * replace (s =? -1) with false by (symmetry; apply Z.eqb_neq; lia). cbn.
        subst pv.
        destruct (Z.ltb_spec (fr.N (objective t s)) (fr.N (objective t k))) as [Hlt|Hge].
        -- eexists. split; [reflexivity|]. right. cbn.
           split; [lia|]. do 3 (split; [first [done|lia]|]). intros j' Hj' Hu' Hi'.
           destruct (decide (j' = k)) as [->|]; [lia|].
           destruct (HB j' ltac:(lia) Hu' Hi') as [H1 H2]. lia.
        -- eexists. split; [reflexivity|]. right. cbn.
           split; [lia|]. do 3 (split; [first [done|lia]|]). intros j' Hj' Hu' Hi'.
           destruct (decide (j' = k)) as [->|]; [lia|].
           apply HB; [lia|done|done].
  - cbn. exists s. split; [reflexivity|].
    destruct HI as [[Es HA]|(Hs & Hu & Himp & Epv & HB)]; cbn in *; [left|right]; done.
Qed.


(** The ratio-test loop of [Pivot] never panics; it ends with [r = -1]
    exactly when no unmasked constraint row has a positive entry in column
    [s], and otherwise with such a row. *)
Lemma Pivot_leaving_spec s :
  0 <= s < n ->
  exists r, Pivot_leaving t s = Some r /\
    ((r = -1 /\ forall i, 0 <= i < m - 1 -> ~ eligible t s i)
     \/ (0 <= r < m - 1 /\ eligible t s r)).
Proof using Hwf Hm Hn.
  intros Hs. unfold Pivot_leaving.
  destruct (wf_row0 t m n Hwf Hm) as (row0 & -> & Hrow0). cbn.
  rewrite Hrow0, wf_len_Table.
  pose (I := fun (i : Z) (st : Z * fr.Fraction) =>
    (st.1 = -1 /\ forall i', 0 <= i' < i -> ~ eligible t s i')
    \/ (0 <= st.1 < i /\ eligible t s st.1)).
  destruct (for_loop_inv I 0 (m - 1) (ratio_step t n s)
              (-1, {| fr.N := 0; fr.D := 0 |})) as ([r mr] & -> & HI).
  - lia.
  - left. split; [reflexivity|]. intros i' Hi'. lia.
  - intros k [r mr] Hk HI. unfold ratio_step.
    unfold I in HI |- *. cbn [fst snd] in HI |- *.
    assert (Hskip : ~ eligible t s k ->
              (r = -1 /\ forall i', 0 <= i' < k + 1 -> ~ eligible t s i')
              \/ (0 <= r < k + 1 /\ eligible t s r)).
    { intros Hno. destruct HI as [[Er HA]|[Hr He]].
      - left. split; [assumption|]. intros i' Hi'.
        destruct (decide (i' = k)) as [->|]; [done|]. apply HA. lia.
      - right. split; [lia|done]. }
    destruct (wf_dirtY t m n k Hwf ltac:(lia)) as [dy Hdy]. rewrite Hdy. cbn.
    destruct dy.
    { eexists. split; [reflexivity|]. cbn [fst snd]. apply Hskip.
      intros [Hu _]. by apply (masked_not_unmasked_row k Hdy). }
    rewrite (wf_cell t m n k s Hwf) by lia. cbn.
    rewrite Z.gtb_ltb.
    destruct (Z.ltb_spec 0 (fr.N (entry t k s))) as [Hpos|Hnp].
    2:{ eexists. split; [reflexivity|]. cbn [fst snd]. apply Hskip. intros [_ ?]. lia. }
    rewrite (wf_cell t m n k (n - 1) Hwf) by lia. cbn.
    destruct (_ || _) eqn:Econd.
    + eexists. split; [reflexivity|]. right. cbn. split; [lia|]. by split.
    + eexists. split; [reflexivity|]. destruct HI as [[Er HA]|[Hr He]].
      * subst r. cbn in Econd. discriminate.
      * right. cbn [fst snd]. split; [lia|done].
  - cbn. exists r. split; [reflexivity|]. exact HI.
Qed.


(** [PivotForFeasibility] never panics.  Its row is the first unmasked
    constraint row with a negative right-hand side ([-1] and the pair
    [(-1, -1)] when there is none); its column is the first unmasked non-RHS
    column whose entry in that row has the least negative numerator ([-1]
    when the row has no negative entry in an unmasked column). *)
Lemma PivotForFeasibility_spec :
  exists r s, PivotForFeasibility t = Some (r, s) /\
    ((r = -1 /\ s = -1 /\
      forall i, 0 <= i < m - 1 -> unmasked_row t i -> ~ fr.N (rhs t n i) < 0)
     \/ (0 <= r < m - 1 /\ unmasked_row t r /\ fr.N (rhs t n r) < 0 /\
         (forall i, 0 <= i < r -> unmasked_row t i -> ~ fr.N (rhs t n i) < 0) /\
         ((s = -1 /\
           forall j, 0 <= j < n - 1 -> unmasked_col t j -> ~ fr.N (entry t r j) < 0)
          \/ (0 <= s < n - 1 /\ unmasked_col t s /\ fr.N (entry t r s) < 0 /\
              forall j, 0 <= j < n - 1 -> unmasked_col t j -> fr.N (entry t r j) < 0 ->
                fr.N (entry t r s) <= fr.N (entry t r j)
                /\ (j < s -> fr.N (entry t r j) <> fr.N (entry t r s)))))).
Proof using Hwf Hm Hn.
  unfold PivotForFeasibility.
  destruct (wf_row0 t m n Hwf Hm) as (row0 & -> & Hrow0). cbn.
  rewrite Hrow0, wf_len_Table.
  pose (I := fun (i r : Z) =>
    (r = -1 /\ forall i', 0 <= i' < i -> unmasked_row t i' -> ~ fr.N (rhs t n i') < 0)
    \/ (0 <= r < i /\ unmasked_row t r /\ fr.N (rhs t n r) < 0 /\
        forall i', 0 <= i' < r -> unmasked_row t i' -> ~ fr.N (rhs t n i') < 0)).
  destruct (for_loop_inv I 0 (m - 1) (negative_rhs_step t n) (-1)) as (r & -> & HI).
  { lia. }
  { left. split; [reflexivity|]. intros i' Hi'. lia. }
  { intros k r Hk HI. unfold negative_rhs_step. unfold I in HI |- *.
    destruct HI as [[-> HA]|(Hr & Hu & Hneg & HB)].
    2:{ replace (r =? -1) with false by (symmetry; apply Z.eqb_neq; lia). cbn.
        eexists. split; [reflexivity|]. right. split; [lia|done]. }
    cbn. rewrite (wf_cell t m n k (n - 1) Hwf) by lia. cbn. fold (rhs t n k).
    destruct (Z.ltb_spec (fr.N (rhs t n k)) 0) as [Hneg|Hnn].
    2:{ eexists. split; [reflexivity|]. left. split; [reflexivity|].
        intros i' Hi' Hu'. destruct (decide (i' = k)) as [->|]; [lia|].
        apply HA; [lia|done]. }
    destruct (wf_dirtY t m n k Hwf ltac:(lia)) as [dy Hdy]. rewrite Hdy. cbn.
    destruct dy.
    - eexists. split; [reflexivity|]. left. split; [reflexivity|].
      intros i' Hi' Hu'. destruct (decide (i' = k)) as [->|].
      + by destruct (masked_not_unmasked_row k Hdy).
      + apply HA; [lia|done].
    - eexists. split; [reflexivity|]. right. split; [lia|].
      split; [exact Hdy|]. split; [exact Hneg|]. intros i' Hi'. apply HA. lia. }
  cbn. unfold I in HI. destruct HI as [[-> HA]|(Hr & Hu & Hneg & HB)].
  { cbn. exists (-1), (-1). split; [reflexivity|]. left. done. }
  replace (r =? -1) with false by (symmetry; apply Z.eqb_neq; lia).
  pose (J := fun (j : Z) (st : Z * fr.Fraction) =>
    (st.1 = -1 /\
     forall j', 0 <= j' < j -> unmasked_col t j' -> ~ fr.N (entry t r j') < 0)
    \/ (0 <= st.1 < j /\ unmasked_col t st.1 /\ fr.N (entry t r st.1) < 0 /\
        st.2 = entry t r st.1 /\
        forall j', 0 <= j' < j -> unmasked_col t j' -> fr.N (entry t r j') < 0 ->
          fr.N (entry t r st.1) <= fr.N (entry t r j')
          /\ (j' < st.1 -> fr.N (entry t r j') <> fr.N (entry t r st.1)))).
  destruct (for_loop_inv J 0 (n - 1) (most_negative_step t r)
              (-1, {| fr.N := 0; fr.D := 1 |})) as ([s mn] & -> & HJ).
  { lia. }
  { left. split; [reflexivity|]. intros j' Hj'. lia. }
  { intros k [s mn] Hk HJ. unfold most_negative_step.
    unfold J in HJ |- *. cbn [fst snd] in HJ |- *.
    rewrite (wf_cell t m n r k Hwf) by lia. cbn.
    assert (Hstay : ~ (unmasked_col t k /\ fr.N (entry t r k) < 0) ->
      (s = -1 /\
       forall j', 0 <= j' < k + 1 -> unmasked_col t j' -> ~ fr.N (entry t r j') < 0)
      \/ (0 <= s < k + 1 /\ unmasked_col t s /\ fr.N (entry t r s) < 0 /\
          mn = entry t r s /\
          forall j', 0 <= j' < k + 1 -> unmasked_col t j' -> fr.N (entry t r j') < 0 ->
            fr.N (entry t r s) <= fr.N (entry t r j')
            /\ (j' < s -> fr.N (entry t r j') <> fr.N (entry t r s)))).
    { intros Hno. destruct HJ as [[Es HA]|(Hs & Hus & Hns & Emn & HB')].
      - left. split; [assumption|]. intros j' Hj' Hu' Hn'.
        destruct (decide (j' = k)) as [->|]; [tauto|]. apply (HA j'); [lia|done|done].
      - right. split; [lia|]. do 3 (split; [done|]). intros j' Hj' Hu' Hn'.
        destruct (decide (j' = k)) as [->|]; [tauto|]. apply HB'; [lia|done|done]. }
    destruct (Z.ltb_spec (fr.N (entry t r k)) 0) as [Hnk|Hnn].
    2:{ eexists. split; [reflexivity|]. cbn [fst snd]. apply Hstay. lia. }
    destruct (wf_dirtX t m n k Hwf ltac:(lia)) as [dx Hdx]. rewrite Hdx. cbn.
    destruct dx.
    { eexists. split; [reflexivity|]. cbn [fst snd]. apply Hstay.
      intros [Hu' _]. by apply (masked_not_unmasked_col k Hdx). }
    destruct HJ as [[Es HA]|(Hs & Hus & Hns & Emn & HB')].
    - subst s. cbn. eexists. split; [reflexivity|]. right. cbn [fst snd].
      split; [lia|]. do 3 (split; [done|]). intros j' Hj' Hu' Hn'.
      destruct (decide (j' = k)) as [->|]; [lia|].
      exfalso. apply (HA j'); [lia|done|done].
    - replace (s =? -1) with false by (symmetry; apply Z.eqb_neq; lia). cbn.
      subst mn.
      destruct (Z.ltb_spec (fr.N (entry t r k)) (fr.N (entry t r s))) as [Hlt|Hge].
      + eexists. split; [reflexivity|]. right. cbn [fst snd].
        split; [lia|]. do 3 (split; [done|]). intros j' Hj' Hu' Hn'.
        destruct (decide (j' = k)) as [->|]; [lia|].
        destruct (HB' j' ltac:(lia) Hu' Hn') as [H1 H2]. lia.
      + eexists. split; [reflexivity|]. right. cbn [fst snd].
        split; [lia|]. do 3 (split; [done|]). intros j' Hj' Hu' Hn'.
        destruct (decide (j' = k)) as [->|]; [lia|].
        apply HB'; [lia|done|done]. }
  cbn. exists r, s. split; [reflexivity|]. right.
  do 4 (split; [done|]). unfold J in HJ. cbn [fst snd] in HJ.
  destruct HJ as [[Es HA]|(Hs & Hus & Hns & Emn & HB')]; [left|right]; done.
Qed.

Lemma improving_test c :
  (IsMaximization t && (fr.N c <? 0)) || (negb (IsMaximization t) && (fr.N c >? 0)) = true
  <-> improving t c.
Proof.
  unfold improving. rewrite Z.gtb_ltb.
  destruct (IsMaximization t); cbn; rewrite ?orb_false_r;
    [apply Z.ltb_lt | apply Z.ltb_lt].
Qed.

(** [IsOptimal] never panics and answers [true] exactly when no non-RHS
    column, masked or not, has an improving objective entry. *)
Lemma IsOptimal_spec :
  exists b, IsOptimal t = Some b /\
    (b = true <-> forall j, 0 <= j < n - 1 -> ~ improving t (objective t j)).
Proof using Hwf Hm Hn.
  unfold IsOptimal.
  destruct (wf_row0 t m n Hwf Hm) as (row0 & -> & Hrow0). cbn.
  rewrite Hrow0.
  set (body := fun j : Z => _ ≫= _).
  assert (Hbody : forall j, 0 <= j < n - 1 ->
            body j = Some (if decide (improving t (objective t j))
                           then Some false else None)).
  { intros j Hj. unfold body.
    assert (Hobj : cell (Table t) (len (Table t) - 1) j = Some (objective t j)).
    { unfold objective. rewrite wf_len_Table.
      apply (wf_cell t m n); [assumption|lia|lia]. }
    rewrite Hobj. cbn.
    pose proof (improving_test (objective t j)) as Ht.
    destruct (_ || _); case_decide; try done.
    - destruct Ht as [Ht _]. by destruct H; apply Ht.
    - destruct Ht as [_ Ht]. by specialize (Ht H). }
  destruct (for_return_spec (Z.to_nat (n - 1)) 0 body)
    as [(k & r & Hk & Ek & _ & ->)|[Hall ->]].
  - intros k Hk. rewrite Hbody by lia. done.
  - rewrite Hbody in Ek by lia. case_decide as Hi; [|discriminate].
    injection Ek as <-. cbn. exists false. split; [reflexivity|].
    split; [discriminate|]. intros Hno. exfalso. apply (Hno k); [lia|done].
  - cbn. exists true. split; [reflexivity|]. split; [|done].
    intros _ j Hj Hi. specialize (Hall j ltac:(lia)).
    rewrite Hbody in Hall by lia. by rewrite decide_True in Hall.
Qed.

(** [IsFeasible] never panics and answers [true] exactly when no constraint
    row, masked or not, has a negative right-hand side. *)
Lemma IsFeasible_spec :
  exists b, IsFeasible t = Some b /\
    (b = true <-> forall i, 0 <= i < m - 1 -> ~ fr.N (rhs t n i) < 0).
Proof using Hwf Hm Hn.
  unfold IsFeasible.
  destruct (wf_row0 t m n Hwf Hm) as (row0 & -> & Hrow0). cbn.
  rewrite Hrow0, wf_len_Table.
  set (body := fun i : Z => _ ≫= _).
  assert (Hbody : forall i, 0 <= i < m - 1 ->
            body i = Some (if decide (fr.N (rhs t n i) < 0)
                           then Some false else None)).
  { intros i Hi. unfold body.
    rewrite (wf_cell t m n i (n - 1) Hwf) by lia. cbn. fold (rhs t n i).
    destruct (Z.ltb_spec (fr.N (rhs t n i)) 0); case_decide; done || lia. }
  destruct (for_return_spec (Z.to_nat (m - 1)) 0 body)
    as [(k & r & Hk & Ek & _ & ->)|[Hall ->]].
  - intros k Hk. rewrite Hbody by lia. done.
  - rewrite Hbody in Ek by lia. case_decide as Hi; [|discriminate].
    injection Ek as <-. cbn. exists false. split; [reflexivity|].
    split; [discriminate|]. intros Hno. exfalso. apply (Hno k); [lia|done].
  - cbn. exists true. split; [reflexivity|]. split; [|done].
    intros _ i Hi Hneg. specialize (Hall i ltac:(lia)).
    rewrite Hbody in Hall by lia. by rewrite decide_True in Hall.
Qed.

End pivot_facts.

(** ** What [Pivot] and [PivotForFeasibility] return *)

Section pivot_results.
Variables (t : Tableau) (m n : Z).
Hypothesis Hwf : well_formed t m n.
Hypothesis Hm : 1 <= m.
Hypothesis Hn : 1 <= n.

(** The two ways [Pivot] ends, in terms of its two loops. *)
Lemma Pivot_io_cases :
  exists s, Pivot_entering t = Some s /\
    ((s = -1 /\ Pivot_io t = Some ((-1, -1), [])) \/
     (0 <= s < n - 1 /\ unmasked_col t s /\ improving t (objective t s) /\
      exists r, Pivot_leaving t s = Some r /\
        ((r = -1 /\ (forall i, 0 <= i < m - 1 -> ~ eligible t s i) /\
          Pivot_io t = Some ((-1, -1), ["Warning: Unbounded solution detected"%string]))
         \/ (0 <= r < m - 1 /\ eligible t s r /\ Pivot_io t = Some ((r, s), []))))).
Proof.
  destruct (Pivot_entering_spec t m n Hwf Hm Hn) as (s & Es & Hs).
  exists s. split; [exact Es|]. unfold Pivot_io. rewrite Es. cbn.
  destruct Hs as [[-> _]|(Hs & Hu & Hi & _)].
  - left. done.
  - right. do 3 (split; [done|]).
    replace (s =? -1) with false by (symmetry; apply Z.eqb_neq; lia).
    destruct (Pivot_leaving_spec t m n Hwf Hm Hn s ltac:(lia)) as (r & Er & Hr).
    exists r. split; [exact Er|]. rewrite Er. cbn.
    destruct Hr as [[-> Hno]|[Hr He]].
    + left. done.
    + right. replace (r =? -1) with false by (symmetry; apply Z.eqb_neq; lia). done.
Qed.

Lemma Pivot_valid_inv r s :
  Pivot t = Some (r, s) -> 0 <= r -> 0 <= s ->
  0 <= r < m - 1 /\ 0 <= s < n - 1 /\
  unmasked_row t r /\ unmasked_col t s /\
  0 < fr.N (entry t r s) /\ improving t (objective t s).
Proof.
  unfold Pivot. intros E Hr Hs.
  destruct Pivot_io_cases as (s0 & _ & [[_ Eio]|(Hs0 & Hu & Hi & r0 & _ & [(_ & _ & Eio)|(Hr0 & [Hur He] & Eio)])]);
    rewrite Eio in E; cbn in E; injection E as <- <-; try lia.
  done.
Qed.

End pivot_results.

(** ** The pivot transform *)

Lemma Copy_id t : Copy t = t.
Proof. destruct t. unfold Copy. cbn. by rewrite list_fmap_id. Qed.

Section transform_facts.
Variables (t : Tableau) (m n : Z) (r s : Z).
Hypothesis Hwf : well_formed t m n.
Hypothesis Hr : 0 <= r < m.
Hypothesis Hs : 0 <= s < n.

Let p : fr.Fraction := entry t r s.

(** What [fillElement] computes for the cell [(i, j)]. *)
Let fill (i j : Z) : fr.Fraction :=
  fr.Div (fr.Sub (fr.Mul (entry t i j) p) (fr.Mul (entry t i s) (entry t r j))) p.

Lemma fillElement_value i j :
  0 <= i < m -> 0 <= j < n -> fillElement t i j r s = Some (fill i j).
Proof.
  intros Hi Hj. unfold fillElement.
  rewrite !(wf_cell t m n) by (assumption || lia). reflexivity.
Qed.

(** The new entry of cell [(i, j)]. *)
Let new_entry (i j : Z) : fr.Fraction :=
  if decide (i = r)
  then if decide (j = s)
       then fr.Div {| fr.N := 1; fr.D := 1 |} p
       else fr.Div (entry t r j) p
  else if decide (j = s)
       then fr.Neg (fr.Div (entry t i s) p)
       else fill i j.

Lemma Transform_spec :
  exists b, Transform t r s = Some b /\
    well_formed b m n /\
    IsMaximization b = IsMaximization t /\
    (forall i, index (dirtY b) i = if decide (i = r) then Some true else index (dirtY t) i) /\
    (forall j, index (dirtX b) j = if decide (j = s) then Some true else index (dirtX t) j) /\
    (forall i, index (RowNames b) i =
               if decide (i = r) then index (ColNames t) s else index (RowNames t) i) /\
    (forall j, index (ColNames b) j =
               if decide (j = s) then index (RowNames t) r else index (ColNames t) j) /\
    (forall i j, 0 <= i < m -> 0 <= j < n -> cell (Table b) i j = Some (new_entry i j)).
Proof.
  destruct Hwf as (Hd & HlY & HlX & HlR & HlC).
  unfold Transform. rewrite Copy_id.
  rewrite (store_in_range (dirtY t) r true) by lia. cbn.
  rewrite (store_in_range (dirtX t) s true) by lia. cbn.
  rewrite (wf_cell t m n r s Hwf Hr Hs). cbn. fold p.
  destruct (set_cell_spec (Table t) m n r s
              (fr.Div {| fr.N := 1; fr.D := 1 |} p) Hd Hr Hs) as (T1 & -> & Hd1 & HT1).
  cbn.
  destruct (wf_row0 t m n Hwf ltac:(lia)) as (row0 & -> & Hrow0). cbn.
  rewrite Hrow0.
  (* the pivot row *)
  pose (I1 := fun (j : Z) (T : list (list fr.Fraction)) =>
    dims T m n /\
    forall i' j', cell T i' j' =
      if decide (i' = r /\ j' <> s /\ 0 <= j' < j)
      then Some (fr.Div (entry t r j') p) else cell T1 i' j').
  destruct (for_loop_inv I1 0 n
              (fun j T => if decide (j = s) then Some T else
                 cell (Table t) r j ≫= fun x => set_cell T r j (fr.Div x p)) T1)
    as (T2 & -> & Hd2 & HT2).
  { lia. }
  { split; [exact Hd1|]. intros i' j'. rewrite decide_False by lia. reflexivity. }
  { intros k T Hk [HdT HT]. destruct (decide (k = s)) as [->|Hks].
    - exists T. split; [reflexivity|]. split; [exact HdT|].
      intros i' j'. rewrite HT.
      destruct (decide (i' = r /\ j' <> s /\ 0 <= j' < s)),
               (decide (i' = r /\ j' <> s /\ 0 <= j' < s + 1)); try reflexivity; lia.
    - rewrite (wf_cell t m n r k Hwf) by lia. cbn.
      destruct (set_cell_spec T m n r k (fr.Div (entry t r k) p) HdT Hr ltac:(lia))
        as (T' & -> & HdT' & HT').
      exists T'. split; [reflexivity|]. split; [exact HdT'|].
      intros i' j'. rewrite HT', HT.
      destruct (decide (i' = r /\ j' = k)) as [[-> ->]|Hne].
      + rewrite decide_True by lia. reflexivity.
      + destruct (decide (i' = r /\ j' <> s /\ 0 <= j' < k)),
                 (decide (i' = r /\ j' <> s /\ 0 <= j' < k + 1)); try reflexivity; lia. }
  cbn. destruct Hd as [HlT Hrows]. rewrite HlT.
  (* the other rows *)
  pose (I2 := fun (i : Z) (T : list (list fr.Fraction)) =>
    dims T m n /\
    forall i' j', cell T i' j' =
      if decide (i' <> r /\ 0 <= i' < i /\ 0 <= j' < n)
      then Some (new_entry i' j') else cell T2 i' j').
  destruct (for_loop_inv I2 0 m
              (fun i T => if decide (i = r) then Some T else
                 for_loop 0 n
                   (fun j T => if decide (j = s) then Some T else
                      fillElement t i j r s ≫= fun v => set_cell T i j v) T
                 ≫= fun T =>
                 cell (Table t) i s ≫= fun x =>
                 set_cell T i s (fr.Neg (fr.Div x p))) T2)
    as (T3 & -> & Hd3 & HT3).
  { lia. }
  { split; [exact Hd2|]. intros i' j'. rewrite decide_False by lia. reflexivity. }
  { intros k T Hk [HdT HT]. destruct (decide (k = r)) as [->|Hkr].
    - exists T. split; [reflexivity|]. split; [exact HdT|].
      intros i' j'. rewrite HT.
      destruct (decide (i' <> r /\ 0 <= i' < r /\ 0 <= j' < n)),
               (decide (i' <> r /\ 0 <= i' < r + 1 /\ 0 <= j' < n)); try reflexivity; lia.
    - pose (I3 := fun (j : Z) (T' : list (list fr.Fraction)) =>
        dims T' m n /\
        forall i' j', cell T' i' j' =
          if decide (i' = k /\ j' <> s /\ 0 <= j' < j)
          then Some (fill k j') else cell T i' j').
      destruct (for_loop_inv I3 0 n
                  (fun j T => if decide (j = s) then Some T else
                     fillElement t k j r s ≫= fun v => set_cell T k j v) T)
        as (T' & -> & HdT' & HT').
      { lia. }
      { split; [exact HdT|]. intros i' j'. rewrite decide_False by lia. reflexivity. }
      { intros j T' Hj [HdT' HT']. destruct (decide (j = s)) as [->|Hjs].
        - exists T'. split; [reflexivity|]. split; [exact HdT'|].
          intros i' j'. rewrite HT'.
          destruct (decide (i' = k /\ j' <> s /\ 0 <= j' < s)),
                   (decide (i' = k /\ j' <> s /\ 0 <= j' < s + 1)); try reflexivity; lia.
        - rewrite fillElement_value by lia. cbn.
          destruct (set_cell_spec T' m n k j (fill k j) HdT' ltac:(lia) ltac:(lia))
            as (T'' & -> & HdT'' & HT'').
          exists T''. split; [reflexivity|]. split; [exact HdT''|].
          intros i' j'. rewrite HT'', HT'.
          destruct (decide (i' = k /\ j' = j)) as [[-> ->]|Hne].
          + rewrite decide_True by lia. reflexivity.
          + destruct (decide (i' = k /\ j' <> s /\ 0 <= j' < j)),
                     (decide (i' = k /\ j' <> s /\ 0 <= j' < j + 1)); try reflexivity; lia. }
      cbn. rewrite (wf_cell t m n k s Hwf) by lia. cbn.
      destruct (set_cell_spec T' m n k s (fr.Neg (fr.Div (entry t k s) p)) HdT'
                  ltac:(lia) Hs) as (T'' & -> & HdT'' & HT'').
      exists T''. split; [reflexivity|]. split; [exact HdT''|].
      intros i' j'. rewrite HT'', HT', HT. unfold new_entry.
      destruct (decide (i' = k /\ j' = s)) as [[-> ->]|Hne].
      + rewrite decide_True by lia. rewrite decide_False by lia.
        rewrite decide_True by reflexivity. reflexivity.
      + destruct (decide (i' = k /\ j' <> s /\ 0 <= j' < n)) as [(-> & Hjs & Hj')|Hne'].
        * rewrite decide_True by lia. rewrite decide_False by lia.
          rewrite decide_False by lia. reflexivity.
        * destruct (decide (i' <> r /\ 0 <= i' < k /\ 0 <= j' < n)),
                   (decide (i' <> r /\ 0 <= i' < k + 1 /\ 0 <= j' < n));
            try reflexivity; lia. }
  cbn.
  (* the labels *)
  destruct (index_is_Some (RowNames t) r ltac:(lia)) as [rowName HrowName].
  destruct (index_is_Some (ColNames t) s ltac:(lia)) as [colName HcolName].
  rewrite HrowName, HcolName. cbn.
  rewrite (store_in_range (RowNames t) r colName) by lia. cbn.
  rewrite (store_in_range (ColNames t) s rowName) by lia. cbn.
  eexists. split; [reflexivity|]. cbn.
  split.
  { unfold well_formed. cbn. unfold len in *. rewrite !length_insert. done. }
  split; [reflexivity|].
  split; [intros i; apply index_store, store_in_range; lia|].
  split; [intros j; apply index_store, store_in_range; lia|].
  split.
  { intros i. rewrite (index_store (RowNames t) _ r colName i); [by case_decide|].
    apply store_in_range. lia. }
  split.
  { intros j. rewrite (index_store (ColNames t) _ s rowName j); [by case_decide|].
    apply store_in_range. lia. }
  intros i j Hi Hj. rewrite HT3.
  destruct (decide (i <> r /\ 0 <= i < m /\ 0 <= j < n)) as [_|Hir]; [reflexivity|].
  assert (i = r) as -> by lia. rewrite HT2.
  destruct (decide (j = s)) as [->|Hjs].
  - rewrite decide_False by lia. rewrite HT1. rewrite decide_True by done.
    unfold new_entry. by rewrite !decide_True by done.
  - rewrite decide_True by lia.
    unfold new_entry. rewrite decide_True by done. by rewrite decide_False by done.
Qed.

End transform_facts.

(** ** The pivot transform, cell by cell (C1) *)

Lemma small_entries_Forall t B :
  Forall (Forall (fun c => Z.abs (fr.N c) <= B /\ 0 < fr.D c <= B)) (Table t) ->
  small_entries t B.
Proof.
  intros HF i j c Hc. unfold cell in Hc.
  destruct (index (Table t) i) as [row|] eqn:Erow; [|discriminate]. cbn in Hc.
  unfold index in Erow, Hc. repeat case_decide; try discriminate.
  rewrite Forall_lookup in HF. specialize (HF _ _ Erow).
  rewrite Forall_lookup in HF. exact (HF _ _ Hc).
Qed.

(** C1, as stated, at a pivot entry of 2^32.  The tableau is well formed,
    its entries are whole numbers, and the pivot (0, 0) is in range with a
    non-zero entry.  Cell (1, 1) should become
    [(2^32 * 2^32 - 1 * 1) / 2^32], a positive number; the product
    [2^32 * 2^32] wraps to 0 in 64 bits and [Transform] stores -1/2^32. *)
Lemma Transform_large_pivot_wraps :
  well_formed Examples.lp_large_pivot 3 3 /\
  fr.N (entry Examples.lp_large_pivot 0 0) <> 0 /\
  exists b, Transform Examples.lp_large_pivot 0 0 = Some b /\
    cell (Table b) 1 1 = Some (Examples.frac (-1) (2 ^ 32)) /\
    (fr.Qval (entry b 1 1) < 0)%Q /\
    (0 < (fr.Qval (entry Examples.lp_large_pivot 1 1)
          * fr.Qval (entry Examples.lp_large_pivot 0 0)
          - fr.Qval (entry Examples.lp_large_pivot 1 0)
            * fr.Qval (entry Examples.lp_large_pivot 0 1))
         / fr.Qval (entry Examples.lp_large_pivot 0 0))%Q.
Proof.
  split; [solve_wf|]. split; [vm_compute; discriminate|].
  eexists. split; [vm_compute; reflexivity|].
  split_conj; vm_compute; reflexivity.
Qed.

(** C1, amended: for a tableau with [m >= 2] rows and [n >= 2] columns whose
    entries have positive denominators and numerators and denominators of
    absolute value at most [2^12] (so that no 64-bit product of the exchange
    overflows), and an in-range pivot [(r, s)], [r < m - 1], [s < n - 1],
    whose entry has a non-zero numerator, [Transform] returns a tableau of
    the same dimensions and sense whose entries have positive denominators
    and, as exact rationals, are: [1 / old(r,s)] in the pivot cell,
    [old(r,j) / old(r,s)] in the rest of the pivot row,
    [- old(i,s) / old(r,s)] in the rest of the pivot column and
    [(old(i,j) * old(r,s) - old(i,s) * old(r,j)) / old(r,s)] elsewhere; the
    row mask at [r] and the column mask at [s] are set and the other mask
    entries kept; the row label at [r] and the column label at [s] are
    exchanged and the other labels kept. *)
Theorem Transform_pivot_exchange t m n r s :
  well_formed t m n -> 2 <= m -> 2 <= n ->
  0 <= r < m - 1 -> 0 <= s < n - 1 ->
  fr.N (entry t r s) <> 0 ->
  small_entries t (2 ^ 12) ->
  exists b, Transform t r s = Some b /\
    well_formed b m n /\
    IsMaximization b = IsMaximization t /\
    (forall i j, 0 <= i < m -> 0 <= j < n ->
       exists c, cell (Table b) i j = Some c /\ entry b i j = c /\ 0 < fr.D c) /\
    (fr.Qval (entry b r s) == 1 / fr.Qval (entry t r s))%Q /\
    (forall j, 0 <= j < n -> j <> s ->
       (fr.Qval (entry b r j) == fr.Qval (entry t r j) / fr.Qval (entry t r s))%Q) /\
    (forall i, 0 <= i < m -> i <> r ->
       (fr.Qval (entry b i s)
        == - (fr.Qval (entry t i s) / fr.Qval (entry t r s)))%Q) /\
    (forall i j, 0 <= i < m -> 0 <= j < n -> i <> r -> j <> s ->
       (fr.Qval (entry b i j)
        == (fr.Qval (entry t i j) * fr.Qval (entry t r s)
            - fr.Qval (entry t i s) * fr.Qval (entry t r j))
           / fr.Qval (entry t r s))%Q) /\
    index (dirtY b) r = Some true /\
    (forall i, i <> r -> index (dirtY b) i = index (dirtY t) i) /\
    index (dirtX b) s = Some true /\
    (forall j, j <> s -> index (dirtX b) j = index (dirtX t) j) /\
    index (RowNames b) r = index (ColNames t) s /\
    index (ColNames b) s = index (RowNames t) r /\
    (forall i, i <> r -> index (RowNames b) i = index (RowNames t) i) /\
    (forall j, j <> s -> index (ColNames b) j = index (ColNames t) j).
Proof.
  intros Hwf Hm Hn Hr Hs Hnz Hsmall.
  destruct (Transform_spec t m n r s Hwf ltac:(lia) ltac:(lia))
    as (b & Eb & Hwfb & Hmax & HdY & HdX & HRN & HCN & Hcell).
  exists b. split; [exact Eb|]. split; [exact Hwfb|]. split; [exact Hmax|].
  assert (Hentry : forall i j, 0 <= i < m -> 0 <= j < n ->
            entry b i j = _) by (intros i j Hi Hj; exact (entry_cell _ _ _ _ (Hcell i j Hi Hj))).
  assert (Hb : forall i j, 0 <= i < m -> 0 <= j < n ->
            fr.bounded (2 ^ 12) (2 ^ 12) (entry t i j)).
  { intros i j Hi Hj. exact (Hsmall i j _ (wf_cell t m n i j Hwf Hi Hj)). }
  assert (Hp : fr.bounded (2 ^ 12) (2 ^ 12) (entry t r s)) by (apply Hb; lia).
  split.
  { intros i j Hi Hj. eexists. split; [exact (Hcell i j Hi Hj)|].
    split; [exact (Hentry i j Hi Hj)|].
    destruct (exchange_denominators (entry t i j) (entry t i s) (entry t r j) _
                (Hb i j Hi Hj) (Hb i s Hi ltac:(lia)) (Hb r j ltac:(lia) Hj) Hp Hnz)
      as (P1 & _ & _ & P4).
    destruct (exchange_denominators (entry t r j) (entry t r s) (entry t r s) _
                (Hb r j ltac:(lia) Hj) Hp Hp Hp Hnz) as (_ & P2 & _).
    destruct (exchange_denominators (entry t i s) (entry t r s) (entry t r s) _
                (Hb i s Hi ltac:(lia)) Hp Hp Hp Hnz) as (_ & _ & P3 & _).
    destruct (decide (i = r)), (decide (j = s)); assumption. }
  split.
  { rewrite Hentry by lia. rewrite !decide_True by done.
    by destruct (exchange_exact (entry t r s) (entry t r s) (entry t r s) _
                   Hp Hp Hp Hp Hnz) as (? & _). }
  split.
  { intros j Hj Hjs. rewrite Hentry by lia.
    rewrite decide_True by done. rewrite decide_False by done.
    by destruct (exchange_exact (entry t r j) (entry t r s) (entry t r s) _
                   (Hb r j ltac:(lia) Hj) Hp Hp Hp Hnz) as (_ & ? & _). }
  split.
  { intros i Hi Hir. rewrite Hentry by lia.
    rewrite decide_False by done. rewrite decide_True by done.
    by destruct (exchange_exact (entry t i s) (entry t r s) (entry t r s) _
                   (Hb i s Hi ltac:(lia)) Hp Hp Hp Hnz) as (_ & _ & ? & _). }
  split.
  { intros i j Hi Hj Hir Hjs. rewrite Hentry by lia.
    rewrite !decide_False by done.
    by destruct (exchange_exact (entry t i j) (entry t i s) (entry t r j) _
                   (Hb i j Hi Hj) (Hb i s Hi ltac:(lia)) (Hb r j ltac:(lia) Hj) Hp Hnz)
      as (_ & _ & _ & ?). }
  split; [rewrite HdY; by rewrite decide_True|].
  split; [intros i Hi; rewrite HdY; by rewrite decide_False|].
  split; [rewrite HdX; by rewrite decide_True|].
  split; [intros j Hj; rewrite HdX; by rewrite decide_False|].
  split; [rewrite HRN; by rewrite decide_True|].
  split; [rewrite HCN; by rewrite decide_True|].
  split; [intros i Hi; rewrite HRN; by rewrite decide_False|].
  intros j Hj; rewrite HCN; by rewrite decide_False.
Qed.

Lemma Transform_pivot_exchange_witness :
  (well_formed Examples.lp_two_constraints 3 3 /\ 2 <= 3 /\ 2 <= 3 /\
   0 <= 1 < 3 - 1 /\ 0 <= 1 < 3 - 1 /\
   fr.N (entry Examples.lp_two_constraints 1 1) <> 0 /\
   small_entries Examples.lp_two_constraints (2 ^ 12)) /\
  exists b, Transform Examples.lp_two_constraints 1 1 = Some b /\
    well_formed b 3 3 /\
    (fr.Qval (entry b 1 1) == 1 # 3)%Q /\
    (fr.Qval (entry b 1 2) == 2)%Q /\
    (fr.Qval (entry b 2 1) == 1)%Q /\
    (fr.Qval (entry b 2 2) == 6)%Q /\
    index (dirtY b) 1 = Some true /\
    index (RowNames b) 1 = Some "-x2"%string.
Proof.
  assert (Hwf : well_formed Examples.lp_two_constraints 3 3) by solve_wf.
  assert (Hnz : fr.N (entry Examples.lp_two_constraints 1 1) <> 0)
    by (vm_compute; discriminate).
  assert (Hsm : small_entries Examples.lp_two_constraints (2 ^ 12))
    by (apply small_entries_Forall; repeat constructor; cbn; lia).
  split; [split_conj; first [assumption | lia]|].
  destruct (Transform_pivot_exchange Examples.lp_two_constraints 3 3 1 1 Hwf
              ltac:(lia) ltac:(lia) ltac:(lia) ltac:(lia) Hnz Hsm)
    as (b & Eb & Hwfb & _ & _ & E11 & Erow & Ecol & Erest & HY & _ & _ & _ & HR & _).
  exists b. split; [exact Eb|]. split; [exact Hwfb|].
  split; [etransitivity; [exact E11|]; vm_compute; reflexivity|].
  split; [etransitivity; [exact (Erow 2 ltac:(lia) ltac:(lia))|]; vm_compute; reflexivity|].
  split; [etransitivity; [exact (Ecol 2 ltac:(lia) ltac:(lia))|]; vm_compute; reflexivity|].
  split; [etransitivity;
          [exact (Erest 2 2 ltac:(lia) ltac:(lia) ltac:(lia) ltac:(lia))|];
          vm_compute; reflexivity|].
  split; [exact HY|]. rewrite HR. reflexivity.
Defined.

(** ** The pivot entry is never zero (C10) *)

(** C10: on a tableau with [m >= 2] rows and [n >= 2] columns, a valid pair
    returned by [Pivot] names an unmasked row [r <= m - 2] and an unmasked
    column [s <= n - 2] whose entry has a strictly positive numerator; a
    valid pair returned by [PivotForFeasibility] names an entry with a
    strictly negative numerator; so [Transform] on either pair succeeds and
    every cell it computes is a quotient by that one pivot entry, whose
    numerator is not zero. *)
Theorem Pivot_pair_has_nonzero_entry t m n :
  well_formed t m n -> 2 <= m -> 2 <= n ->
  (forall r s, Pivot t = Some (r, s) -> 0 <= r -> 0 <= s ->
     r <= m - 2 /\ s <= n - 2 /\ unmasked_row t r /\ unmasked_col t s /\
     0 < fr.N (entry t r s)) /\
  (forall r s, PivotForFeasibility t = Some (r, s) -> 0 <= r -> 0 <= s ->
     fr.N (entry t r s) < 0) /\
  (forall r s, Pivot t = Some (r, s) \/ PivotForFeasibility t = Some (r, s) ->
     0 <= r -> 0 <= s ->
     exists p b, cell (Table t) r s = Some p /\ fr.N p <> 0 /\
       Transform t r s = Some b /\
       forall i j, 0 <= i < m -> 0 <= j < n ->
         exists x, entry b i j = fr.Div x p \/ entry b i j = fr.Neg (fr.Div x p)).
Proof.
  intros Hwf Hm Hn.
  assert (HP : forall r s, Pivot t = Some (r, s) -> 0 <= r -> 0 <= s ->
            0 <= r < m - 1 /\ 0 <= s < n - 1 /\ unmasked_row t r /\
            unmasked_col t s /\ 0 < fr.N (entry t r s)).
  { intros r s E Hr Hs.
    destruct (Pivot_valid_inv t m n Hwf ltac:(lia) ltac:(lia) r s E Hr Hs)
      as (? & ? & ? & ? & ? & _). done. }
  assert (HF : forall r s, PivotForFeasibility t = Some (r, s) -> 0 <= r -> 0 <= s ->
            0 <= r < m - 1 /\ 0 <= s < n - 1 /\ fr.N (entry t r s) < 0).
  { intros r s E Hr Hs.
    destruct (PivotForFeasibility_spec t m n Hwf ltac:(lia) ltac:(lia))
      as (r0 & s0 & E0 & H0).
    rewrite E0 in E. injection E as -> ->.
    destruct H0 as [(-> & _)|(Hr0 & _ & _ & _ & [[-> _]|(Hs0 & _ & Hneg & _)])];
      lia. }
  split; [|split].
  - intros r s E Hr Hs. destruct (HP r s E Hr Hs) as (? & ? & ? & ? & ?).
    repeat split; (lia || done).
  - intros r s E Hr Hs. by destruct (HF r s E Hr Hs) as (_ & _ & ?).
  - intros r s E Hr Hs.
    assert (Hin : 0 <= r < m - 1 /\ 0 <= s < n - 1 /\ fr.N (entry t r s) <> 0).
    { destruct E as [E|E].
      - destruct (HP r s E Hr Hs) as (? & ? & _ & _ & ?). lia.
      - destruct (HF r s E Hr Hs) as (? & ? & ?). lia. }
    destruct Hin as (Hr' & Hs' & Hnz).
    destruct (Transform_spec t m n r s Hwf ltac:(lia) ltac:(lia))
      as (b & Eb & _ & _ & _ & _ & _ & _ & Hcell).
    exists (entry t r s), b.
    split; [apply (wf_cell t m n); (assumption || lia)|].
    split; [exact Hnz|]. split; [exact Eb|].
    intros i j Hi Hj. rewrite (entry_cell _ _ _ _ (Hcell i j Hi Hj)).
    repeat case_decide;
      [ exists {| fr.N := 1; fr.D := 1 |}; left
      | exists (entry t r j); left
      | exists (entry t i s); right
      | exists (fr.Sub (fr.Mul (entry t i j) (entry t r s))
                       (fr.Mul (entry t i s) (entry t r j))); left ];
      reflexivity.
Qed.

Lemma Pivot_pair_has_nonzero_entry_witness :
  (well_formed Examples.lp_two_constraints 3 3 /\ 2 <= 3 /\ 2 <= 3) /\
  Pivot Examples.lp_two_constraints = Some (1, 1) /\
  0 < fr.N (entry Examples.lp_two_constraints 1 1) /\
  unmasked_row Examples.lp_two_constraints 1 /\
  unmasked_col Examples.lp_two_constraints 1.
Proof.
  assert (Hwf : well_formed Examples.lp_two_constraints 3 3) by solve_wf.
  assert (E : Pivot Examples.lp_two_constraints = Some (1, 1)) by (vm_compute; reflexivity).
  split; [split; [exact Hwf | lia]|]. split; [exact E|].
  destruct (Pivot_pair_has_nonzero_entry Examples.lp_two_constraints 3 3 Hwf
              ltac:(lia) ltac:(lia)) as [HP _].
  destruct (HP 1 1 E ltac:(lia) ltac:(lia)) as (_ & _ & Hur & Huc & Hpos).
  repeat split; assumption.
Defined.

(** ** The entering column is compared by numerator (C2) *)

(** C2 at the tableau with objective row [-1/3, -1/2 | 0], maximizing: both
    columns are unmasked and improving, -1/2 is the more negative value, and
    the scan keeps column 0 because the numerators are equal. *)
Theorem Pivot_entering_equal_numerators :
  Pivot_entering Examples.lp_fraction_objective = Some 0 /\
  Pivot Examples.lp_fraction_objective = Some (0, 0) /\
  objective Examples.lp_fraction_objective 0 = Examples.frac (-1) 3 /\
  objective Examples.lp_fraction_objective 1 = Examples.frac (-1) 2 /\
  unmasked_col Examples.lp_fraction_objective 1 /\
  (fr.Qval (objective Examples.lp_fraction_objective 1)
   < fr.Qval (objective Examples.lp_fraction_objective 0))%Q.
Proof. split_conj; vm_compute; reflexivity. Qed.

(** ** The ratio test (C3) *)

Section ratio_test.
Variables (t : Tableau) (m n s : Z).
Hypothesis Hwf : well_formed t m n.
Hypothesis Hm : 1 <= m.
Hypothesis Hn : 1 <= n.
Hypothesis Hs : 0 <= s < n.
Hypothesis Hsmall : small_entries t (2 ^ 15).

Let q (i : Z) : Q := fr.Qval (ratio t n s i).

(** Below the bound the ratio computed for an eligible row is exact and its
    components stay below [2^30]. *)
Lemma ratio_facts i :
  0 <= i < m -> 0 < fr.N (entry t i s) ->
  0 < fr.D (ratio t n s i) <= 2 ^ 30 /\
  Z.abs (fr.N (ratio t n s i)) <= 2 ^ 30 /\
  (fr.Qval (ratio t n s i) == ratioQ t n s i)%Q.
Proof.
  intros Hi Hpos. unfold ratio, ratioQ, rhs.
  destruct (Hsmall i (n - 1) _ (wf_cell t m n i (n - 1) Hwf Hi ltac:(lia)))
    as (Bn1 & Bd1a & Bd1b).
  destruct (Hsmall i s _ (wf_cell t m n i s Hwf Hi Hs)) as (Bn2 & Bd2a & Bd2b).
  set (a := entry t i (n - 1)) in *. set (e := entry t i s) in *.
  assert (B1 : Z.abs (fr.N a) * Z.abs (fr.D e) <= 2 ^ 30) by nia.
  assert (B2 : Z.abs (fr.D a) * Z.abs (fr.N e) <= 2 ^ 30) by nia.
  assert (Hmax : 2 ^ 30 <= GoInt.max_int) by (vm_compute; discriminate).
  destruct (Div_spec a e) as (H1 & _ & H3 & H4); [lia | lia | lia | lia |].
  split; [lia|]. split; [lia|].
  apply Qval_Div; lia.
Qed.

Lemma Pivot_leaving_ratio_spec :
  exists r, Pivot_leaving t s = Some r /\
    ((r = -1 /\ forall i, 0 <= i < m - 1 -> ~ eligible t s i)
     \/ (0 <= r < m - 1 /\ eligible t s r /\
         (((0 < q r)%Q /\
           forall i, 0 <= i < m - 1 -> eligible t s i -> (0 < q i)%Q ->
                     (q r <= q i)%Q /\ (i < r -> (q r < q i)%Q))
          \/ ((q r <= 0)%Q /\
              (forall i, 0 <= i < m - 1 -> eligible t s i -> (q i <= 0)%Q) /\
              (forall i, 0 <= i < r -> ~ eligible t s i))))).
Proof.
  unfold Pivot_leaving.
  destruct (wf_row0 t m n Hwf Hm) as (row0 & -> & Hrow0). cbn.
  rewrite Hrow0, (wf_len_Table t m n Hwf).
  pose (I := fun (i : Z) (st : Z * fr.Fraction) =>
    (st.1 = -1 /\ forall i', 0 <= i' < i -> ~ eligible t s i')
    \/ (0 <= st.1 < i /\ eligible t s st.1 /\ st.2 = ratio t n s st.1 /\
        (((0 < q st.1)%Q /\
          forall i', 0 <= i' < i -> eligible t s i' -> (0 < q i')%Q ->
                     (q st.1 <= q i')%Q /\ (i' < st.1 -> (q st.1 < q i')%Q))
         \/ ((q st.1 <= 0)%Q /\
             (forall i', 0 <= i' < i -> eligible t s i' -> (q i' <= 0)%Q) /\
             (forall i', 0 <= i' < st.1 -> ~ eligible t s i'))))).
  destruct (for_loop_inv I 0 (m - 1) (ratio_step t n s)
              (-1, {| fr.N := 0; fr.D := 0 |})) as ([r mr] & -> & HI).
  - lia.
  - left. split; [reflexivity|]. intros i' Hi'. lia.
  - intros k [r mr] Hk HI. unfold ratio_step.
    unfold I in HI |- *. cbn [fst snd] in HI |- *.
    (* a row that is not eligible changes nothing *)
    assert (Hskip : ~ eligible t s k ->
      (r = -1 /\ forall i', 0 <= i' < k + 1 -> ~ eligible t s i')
      \/ (0 <= r < k + 1 /\ eligible t s r /\ mr = ratio t n s r /\
          (((0 < q r)%Q /\
            forall i', 0 <= i' < k + 1 -> eligible t s i' -> (0 < q i')%Q ->
                       (q r <= q i')%Q /\ (i' < r -> (q r < q i')%Q))
           \/ ((q r <= 0)%Q /\
               (forall i', 0 <= i' < k + 1 -> eligible t s i' -> (q i' <= 0)%Q) /\
               (forall i', 0 <= i' < r -> ~ eligible t s i'))))).
    { intros Hno. destruct HI as [[Er HA]|(Hr & He & Emr & HB)].
      - left. split; [assumption|]. intros i' Hi'.
        destruct (decide (i' = k)) as [->|]; [done|]. apply HA. lia.
      - right. split; [lia|]. do 2 (split; [done|]).
        destruct HB as [[Hq HB]|(Hq & HB1 & HB2)]; [left|right].
        + split; [done|]. intros i' Hi' He'.
          destruct (decide (i' = k)) as [->|]; [done|]. apply HB; [lia|done].
        + split; [done|]. split; [|done]. intros i' Hi' He'.
          destruct (decide (i' = k)) as [->|]; [done|]. apply HB1; [lia|done]. }
    destruct (wf_dirtY t m n k Hwf ltac:(lia)) as [dy Hdy]. rewrite Hdy. cbn.
    destruct dy.
    { eexists. split; [reflexivity|]. cbn [fst snd]. apply Hskip.
      intros [Hu _]. unfold unmasked_row in Hu. congruence. }
    rewrite (wf_cell t m n k s Hwf) by lia. cbn.
    rewrite Z.gtb_ltb.
    destruct (Z.ltb_spec 0 (fr.N (entry t k s))) as [Hpos|Hnp].
    2:{ eexists. split; [reflexivity|]. cbn [fst snd]. apply Hskip. intros [_ ?]. lia. }
    rewrite (wf_cell t m n k (n - 1) Hwf) by lia. cbn.
    change (fr.Div (entry t k (n - 1)) (entry t k s)) with (ratio t n s k).
    assert (Hek : eligible t s k) by (split; [exact Hdy|exact Hpos]).
    destruct (ratio_facts k ltac:(lia) Hpos) as ((HDk & BDk) & BNk & _).
    pose proof (Qval_sign (ratio t n s k) HDk) as Hsignk.
    fold (q k) in Hsignk.
    destruct HI as [[Er HA]|(Hr & He & Emr & HB)].
    { (* first eligible row *)
      subst r. cbn. eexists. split; [reflexivity|]. right. cbn [fst snd].
      split; [lia|]. do 2 (split; [done|]).
      destruct (Qlt_le_dec 0 (q k)) as [Hqk|Hqk]; [left|right].
      - split; [done|]. intros i' Hi' He' Hq'.
        destruct (decide (i' = k)) as [->|].
        + split; [apply Qle_refl | lia].
        + destruct (HA i'); [lia|done].
      - split; [done|]. split.
        + intros i' Hi' He'. destruct (decide (i' = k)) as [->|]; [done|].
          destruct (HA i'); [lia|done].
        + intros i' Hi'. apply HA. lia. }
    replace (r =? -1) with false by (symmetry; apply Z.eqb_neq; lia).
    cbn [orb]. subst mr.
    destruct He as [Hur Hposr].
    destruct (ratio_facts r ltac:(lia) Hposr) as ((HDr & BDr) & BNr & _).
    pose proof (Qval_sign (ratio t n s r) HDr) as Hsignr.
    fold (q r) in Hsignr.
    assert (Hmax : 2 ^ 30 * 2 ^ 30 <= GoInt.max_int) by (vm_compute; discriminate).
    rewrite !mul_exact by nia.
    rewrite Z.gtb_ltb.
    destruct (Z.ltb_spec 0 (fr.N (ratio t n s k))) as [Hnk|Hnk]; cbn [andb].
    2:{ (* the new ratio is not positive: the state stays *)
        eexists. split; [reflexivity|]. right. cbn [fst snd].
        split; [lia|]. do 2 (split; [done|]).
        assert (Hqk : (q k <= 0)%Q).
        { apply Qnot_lt_le. intros Hq. apply Hsignk in Hq. lia. }
        destruct HB as [[Hq HB]|(Hq & HB1 & HB2)]; [left|right].
        + split; [done|]. intros i' Hi' He' Hq'.
          destruct (decide (i' = k)) as [->|].
          * exfalso. exact (Qlt_irrefl 0 (Qlt_le_trans _ _ _ Hq' Hqk)).
          * apply HB; [lia|done|done].
        + split; [done|]. split; [|done]. intros i' Hi' He'.
          destruct (decide (i' = k)) as [->|]; [done|]. apply HB1; [lia|done]. }
    assert (Hqk : (0 < q k)%Q) by (by apply Hsignk).
    destruct (Z.leb_spec (fr.N (ratio t n s r)) 0) as [Hnr|Hnr]; cbn [orb].
    { (* the kept ratio was not positive: the new row replaces it *)
      eexists. split; [reflexivity|]. right. cbn [fst snd].
      split; [lia|]. do 2 (split; [done|]). left. split; [done|].
      intros i' Hi' He' Hq'.
      destruct (decide (i' = k)) as [->|]; [split; [apply Qle_refl | lia]|].
      exfalso. destruct HB as [[Hq HB]|(Hq & HB1 & HB2)].
      - apply Hsignr in Hq. lia.
      - exact (Qlt_irrefl 0 (Qlt_le_trans _ _ _ Hq' (HB1 i' ltac:(lia) He'))). }
    assert (Hqr : (0 < q r)%Q) by (by apply Hsignr).
    destruct HB as [[_ HB]|(Hq & _)];
      [|exfalso; exact (Qlt_irrefl 0 (Qlt_le_trans _ _ _ Hqr Hq))].
    pose proof (Qval_lt (ratio t n s k) (ratio t n s r) HDk HDr) as Hlt.
    fold (q k) (q r) in Hlt.
    destruct (Z.ltb_spec (fr.N (ratio t n s k) * fr.D (ratio t n s r))
                         (fr.N (ratio t n s r) * fr.D (ratio t n s k))) as [Hc|Hc].
    + (* strictly smaller positive ratio: the new row replaces the kept one *)
      apply Hlt in Hc.
      eexists. split; [reflexivity|]. right. cbn [fst snd].
      split; [lia|]. do 2 (split; [done|]). left. split; [done|].
      intros i' Hi' He' Hq'.
      destruct (decide (i' = k)) as [->|]; [split; [apply Qle_refl | lia]|].
      destruct (HB i' ltac:(lia) He' Hq') as [Hle _].
      pose proof (Qlt_le_trans _ _ _ Hc Hle) as Hlt'.
      split; [by apply Qlt_le_weak | done].
    + (* not smaller: the state stays *)
      eexists. split; [reflexivity|]. right. cbn [fst snd].
      split; [lia|]. do 2 (split; [done|]). left. split; [done|].
      intros i' Hi' He' Hq'.
      destruct (decide (i' = k)) as [->|]; [|apply HB; [lia|done|done]].
      split; [|lia]. apply Qnot_lt_le. intros Hq. apply Hlt in Hq. lia.
  - cbn. exists r. split; [reflexivity|].
    unfold I in HI. cbn [fst snd] in HI.
    destruct HI as [[Er HA]|(Hr & He & Emr & HB)]; [left|right]; [done|].
    split; [lia|]. split; done.
Qed.

End ratio_test.

(** C3, as stated, on a tableau whose first constraint row is degenerate
    (right-hand side 0, ratio 0) and whose second row has ratio 5: both rows
    are unmasked with a positive entry in the entering column 0, row 0 has
    the smallest non-negative ratio and comes first, and [Pivot] selects
    row 1. *)
Lemma Pivot_skips_zero_ratio :
  Pivot_entering Examples.lp_degenerate = Some 0 /\
  Pivot Examples.lp_degenerate = Some (1, 0) /\
  eligible Examples.lp_degenerate 0 0 /\
  eligible Examples.lp_degenerate 0 1 /\
  (ratioQ Examples.lp_degenerate 2 0 0 == 0)%Q /\
  (ratioQ Examples.lp_degenerate 2 0 1 == 5)%Q.
Proof.
  unfold eligible. split_conj; vm_compute; reflexivity.
Qed.

(** C3, amended: on a well-formed tableau whose entries have positive
    denominators and are small enough for the 64-bit products of the test
    (numerators and denominators at most [2^15] in absolute value), once
    [Pivot] has chosen the entering column [s], the leaving row is, among the
    unmasked constraint rows with a strictly positive entry in column [s],
    the one with the smallest strictly positive ratio RHS / entry, the first
    such row on ties; when none of those rows has a strictly positive ratio
    it is the first of them; and when no unmasked constraint row has a
    strictly positive entry in column [s], [Pivot] returns (-1, -1). *)
Theorem Pivot_smallest_positive_ratio t m n s :
  well_formed t m n -> 1 <= m -> 1 <= n ->
  small_entries t (2 ^ 15) ->
  Pivot_entering t = Some s -> 0 <= s ->
  exists r, Pivot_leaving t s = Some r /\
    Pivot t = Some (if r =? -1 then (-1, -1) else (r, s)) /\
    ((r = -1 /\ forall i, 0 <= i < m - 1 -> ~ eligible t s i)
     \/ (0 <= r < m - 1 /\ eligible t s r /\
         (((0 < ratioQ t n s r)%Q /\
           forall i, 0 <= i < m - 1 -> eligible t s i -> (0 < ratioQ t n s i)%Q ->
             (ratioQ t n s r <= ratioQ t n s i)%Q /\
             (i < r -> (ratioQ t n s r < ratioQ t n s i)%Q))
          \/ ((forall i, 0 <= i < m - 1 -> eligible t s i -> (ratioQ t n s i <= 0)%Q) /\
              (forall i, 0 <= i < r -> ~ eligible t s i))))).
Proof.
  intros Hwf Hm Hn Hsmall Es Hs0.
  assert (Hs : 0 <= s < n).
  { destruct (Pivot_entering_spec t m n Hwf Hm Hn) as (s' & Es' & Hs').
    rewrite Es in Es'. injection Es' as <-.
    destruct Hs' as [[-> _]|[? _]]; lia. }
  destruct (Pivot_leaving_ratio_spec t m n s Hwf Hm Hn Hs Hsmall) as (r & Er & Hr).
  exists r. split; [exact Er|]. split.
  { unfold Pivot, Pivot_io. rewrite Es. cbn.
    replace (s =? -1) with false by (symmetry; apply Z.eqb_neq; lia).
    rewrite Er. cbn. by destruct (r =? -1). }
  assert (Hq : forall i, 0 <= i < m - 1 -> eligible t s i ->
             (fr.Qval (ratio t n s i) == ratioQ t n s i)%Q).
  { intros i Hi [_ Hpos].
    by destruct (ratio_facts t m n s Hwf Hn Hs Hsmall i ltac:(lia) Hpos) as (_ & _ & ?). }
  destruct Hr as [Hr|(Hr & He & Hr')]; [by left|right].
  split; [exact Hr|]. split; [exact He|].
  destruct Hr' as [[Hpos Hmin]|(Hnp & Hall & Hfirst)]; [left|right].
  - split; [by rewrite <- (Hq r Hr He)|].
    intros i Hi Hei Hposi. rewrite <- (Hq i Hi Hei) in Hposi |- *.
    rewrite <- (Hq r Hr He). by apply Hmin.
  - split; [|exact Hfirst].
    intros i Hi Hei. rewrite <- (Hq i Hi Hei). by apply Hall.
Qed.

Lemma Pivot_smallest_positive_ratio_witness :
  (well_formed Examples.lp_two_constraints 3 3 /\ 1 <= 3 /\ 1 <= 3 /\
   small_entries Examples.lp_two_constraints (2 ^ 15) /\
   Pivot_entering Examples.lp_two_constraints = Some 1 /\ 0 <= 1) /\
  exists r, Pivot_leaving Examples.lp_two_constraints 1 = Some r /\
            Pivot Examples.lp_two_constraints
            = Some (if r =? -1 then (-1, -1) else (r, 1)).
Proof.
  assert (Hwf : well_formed Examples.lp_two_constraints 3 3) by solve_wf.
  assert (Hsm : small_entries Examples.lp_two_constraints (2 ^ 15)).
  { apply small_entries_Forall. repeat constructor; cbn; lia. }
  assert (Es : Pivot_entering Examples.lp_two_constraints = Some 1)
    by (vm_compute; reflexivity).
  split; [split_conj; (assumption || lia)|].
  destruct (Pivot_smallest_positive_ratio Examples.lp_two_constraints 3 3 1 Hwf
              ltac:(lia) ltac:(lia) Hsm Es ltac:(lia)) as (r & Er & Ep & _).
  exists r. split; assumption.
Defined.

(** ** Optimality and pivot selection (C9) *)

(** C9, as stated, on the one-constraint tableau for "maximize x1, x1 <= 1":
    [Pivot] returns the valid pair (0, 0) because column 0 improves, and the
    tableau produced by [Transform 0 0] is already optimal. *)
Lemma IsOptimal_true_right_after_pivot :
  Pivot Examples.lp_one_step = Some (0, 0) /\
  improving Examples.lp_one_step (objective Examples.lp_one_step 0) /\
  exists b, Transform Examples.lp_one_step 0 0 = Some b /\ IsOptimal b = Some true.
Proof.
  split; [vm_compute; reflexivity|]. split; [vm_compute; reflexivity|].
  eexists. split; vm_compute; reflexivity.
Qed.

(** C9, amended: whenever [Pivot] returns a valid pair (an improving column
    existed), [IsOptimal] is false on the tableau that pivot was selected on;
    and whenever [IsOptimal] is true, [Pivot] returns the invalid pair
    (-1, -1). *)
Theorem Pivot_valid_iff_not_optimal t m n :
  well_formed t m n -> 1 <= m -> 1 <= n ->
  (forall r s, Pivot t = Some (r, s) -> 0 <= r -> 0 <= s -> IsOptimal t = Some false) /\
  (IsOptimal t = Some true -> Pivot t = Some (-1, -1)).
Proof.
  intros Hwf Hm Hn.
  destruct (IsOptimal_spec t m n Hwf Hm Hn) as (b & Eb & Hb).
  split.
  - intros r s E Hr Hs.
    destruct (Pivot_valid_inv t m n Hwf Hm Hn r s E Hr Hs) as (_ & Hs' & _ & _ & _ & Hi).
    rewrite Eb. destruct b; [|reflexivity].
    destruct Hb as [Hb _]. by destruct (Hb eq_refl s Hs').
  - rewrite Eb. intros [= ->]. destruct Hb as [Hb _]. specialize (Hb eq_refl).
    unfold Pivot.
    destruct (Pivot_io_cases t m n Hwf Hm Hn) as (s & _ & [[_ ->]|(Hs & _ & Hi & _)]).
    + reflexivity.
    + by destruct (Hb s Hs).
Qed.

Lemma Pivot_valid_iff_not_optimal_witness :
  (well_formed Examples.lp_two_constraints 3 3 /\ 1 <= 3 /\ 1 <= 3) /\
  Pivot Examples.lp_two_constraints = Some (1, 1) /\
  IsOptimal Examples.lp_two_constraints = Some false.
Proof.
  assert (Hwf : well_formed Examples.lp_two_constraints 3 3) by solve_wf.
  assert (E : Pivot Examples.lp_two_constraints = Some (1, 1)) by (vm_compute; reflexivity).
  split; [split; [exact Hwf | lia]|]. split; [exact E|].
  destruct (Pivot_valid_iff_not_optimal Examples.lp_two_constraints 3 3 Hwf
              ltac:(lia) ltac:(lia)) as [HP _].
  exact (HP 1 1 E ltac:(lia) ltac:(lia)).
Defined.

(** ** Feasibility restoration *)

Lemma feasibility_loop_unfold fuel iteration t :
  feasibility_loop fuel iteration t =
  (feasible ← IsFeasible t;
   if (feasible : bool) then Some (true, t) else
   '(r, s) ← PivotForFeasibility t;
   if negb (IsPivotValid r s) then Some (false, t) else
   t' ← Transform t r s;
   if iteration + 1 >? 20 then Some (false, t') else
   match fuel with
   | O => None
   | S fuel' => feasibility_loop fuel' (iteration + 1) t'
   end).
Proof. destruct fuel; reflexivity. Qed.

(** The loop of [MakeFeasible] returns: nothing in it panics on a
    well-formed tableau and the iteration counter passes 20 before the fuel
    of the model runs out.  It keeps the dimensions, and it answers [true]
    only with a feasible tableau in the receiver. *)
Lemma feasibility_loop_returns m n (Hm : 1 <= m) (Hn : 1 <= n) (fuel : nat) :
  forall iteration t,
    well_formed t m n -> 21 - iteration <= Z.of_nat fuel ->
    exists ok t', feasibility_loop fuel iteration t = Some (ok, t') /\
      well_formed t' m n /\
      (ok = true -> IsFeasible t' = Some true).
Proof.
  induction fuel as [|fuel IH]; intros iteration t Hwf Hfuel.
  all: rewrite feasibility_loop_unfold.
  all: destruct (IsFeasible_spec t m n Hwf Hm Hn) as (feasible & Efeas & _).
  all: rewrite Efeas; cbn.
  all: destruct feasible; [by exists true, t|].
  all: destruct (PivotForFeasibility_spec t m n Hwf Hm Hn) as (r & s & Epff & Hpff).
  all: rewrite Epff; cbn.
  all: destruct (IsPivotValid r s) eqn:Evalid; cbn; [|by exists false, t].
  all: apply andb_prop in Evalid as [Hr0%Z.leb_le Hs0%Z.leb_le].
  all: assert (Hin : 0 <= r < m - 1 /\ 0 <= s < n - 1)
         by (destruct Hpff as [(-> & _)|(? & _ & _ & _ & [[-> _]|(? & _)])]; lia).
  all: destruct (Transform_spec t m n r s Hwf ltac:(lia) ltac:(lia))
         as (b & Eb & Hwfb & _).
  all: rewrite Eb; cbn.
  all: rewrite Z.gtb_ltb.
  all: destruct (Z.ltb_spec 20 (iteration + 1)); [by exists false, b|].
  - lia.
  - apply IH; [exact Hwfb|lia].
Qed.

Lemma MakeFeasible_returns t m n :
  well_formed t m n -> 1 <= m -> 1 <= n ->
  exists ok t', MakeFeasible t = Some (ok, t') /\
    well_formed t' m n /\
    (ok = true -> IsFeasible t' = Some true).
Proof.
  intros Hwf Hm Hn. unfold MakeFeasible.
  apply (feasibility_loop_returns m n Hm Hn); [exact Hwf|lia].
Qed.

(** A feasible tableau is returned as it is, with [true]; a tableau whose
    first unmasked negative row has no negative entry in an unmasked column
    is returned as it is, with [false]. *)
Lemma MakeFeasible_first_round t m n :
  well_formed t m n -> 1 <= m -> 1 <= n ->
  (IsFeasible t = Some true -> MakeFeasible t = Some (true, t)) /\
  (forall r, IsFeasible t = Some false -> PivotForFeasibility t = Some (r, -1) ->
             MakeFeasible t = Some (false, t)).
Proof.
  intros Hwf Hm Hn. unfold MakeFeasible. rewrite feasibility_loop_unfold. split.
  - intros ->. reflexivity.
  - intros r -> ->. cbn.
    replace (IsPivotValid r (-1)) with false; [reflexivity|].
    unfold IsPivotValid. by rewrite andb_false_r.
Qed.

(** *** What [MakeFeasible] pivots on, and its cap (C5) *)

(** C5 at the tableau whose first row is [-1/3, -1/2 | -1]: the row has a
    negative right-hand side, its most negative entry -1/2 is in column 1,
    and [PivotForFeasibility] answers column 0; [MakeFeasible] pivots
    there. *)
Theorem PivotForFeasibility_equal_numerators :
  PivotForFeasibility Examples.lp_infeasible_start = Some (0, 0) /\
  entry Examples.lp_infeasible_start 0 0 = Examples.frac (-1) 3 /\
  entry Examples.lp_infeasible_start 0 1 = Examples.frac (-1) 2 /\
  unmasked_col Examples.lp_infeasible_start 1 /\
  (fr.Qval (entry Examples.lp_infeasible_start 0 1)
   < fr.Qval (entry Examples.lp_infeasible_start 0 0))%Q /\
  MakeFeasible Examples.lp_infeasible_start
  = (t' ← Transform Examples.lp_infeasible_start 0 0; Some (true, t')).
Proof. split_conj; vm_compute; reflexivity. Qed.

(** The cap of [MakeFeasible]: twenty rows [-x_i <= -1] need twenty pivots;
    the twentieth leaves every right-hand side non-negative, and the answer
    is still false. *)
Lemma MakeFeasible_cap_on_feasible_result :
  fst <$> MakeFeasible Examples.lp_twenty_rows = Some false /\
  (res ← MakeFeasible Examples.lp_twenty_rows; IsFeasible res.2) = Some true.
Proof. split; vm_compute; reflexivity. Qed.

(** ** The invalid pair (C6) *)

(** C6, as stated: [Pivot] answers (-1, -1) on an optimal tableau (no
    entering column) and the same (-1, -1) on an unbounded one (entering
    column 0, no limiting row); [MakeFeasible] answers false both on an
    infeasible tableau and when it stops at its iteration cap. *)
Lemma Pivot_invalid_pair_ambiguous :
  Pivot_entering Examples.lp_optimal = Some (-1) /\
  Pivot_entering Examples.lp_unbounded = Some 0 /\
  Pivot_leaving Examples.lp_unbounded 0 = Some (-1) /\
  Pivot Examples.lp_optimal = Some (-1, -1) /\
  Pivot Examples.lp_unbounded = Some (-1, -1) /\
  PivotForFeasibility (Examples.fresh [[Examples.whole 1; Examples.whole (-5)];
                                       [Examples.whole 0; Examples.whole 0]] true)
    = Some (0, -1) /\
  fst <$> MakeFeasible (Examples.fresh [[Examples.whole 1; Examples.whole (-5)];
                                        [Examples.whole 0; Examples.whole 0]] true)
    = Some false /\
  fst <$> MakeFeasible Examples.lp_twenty_rows = Some false.
Proof.
  do 7 (split; [vm_compute; reflexivity|]).
  apply MakeFeasible_cap_on_feasible_result.
Qed.

(** C6, amended: [Pivot] returns the one invalid pair (-1, -1) both when no
    unmasked non-RHS column has an improving objective entry (optimality) and
    when an entering column was found but no unmasked constraint row has a
    positive entry in it (unboundedness); the two outcomes differ only in
    the warning line printed in the second case. *)
Theorem Pivot_invalid_pair_shared t m n :
  well_formed t m n -> 1 <= m -> 1 <= n ->
  ((forall j, 0 <= j < n - 1 -> unmasked_col t j -> ~ improving t (objective t j)) ->
   Pivot t = Some (-1, -1) /\ Pivot_io t = Some ((-1, -1), [])) /\
  (forall s, Pivot_entering t = Some s -> 0 <= s ->
     (forall i, 0 <= i < m - 1 -> ~ eligible t s i) ->
     Pivot t = Some (-1, -1) /\
     Pivot_io t = Some ((-1, -1), ["Warning: Unbounded solution detected"%string])).
Proof.
  intros Hwf Hm Hn. unfold Pivot.
  destruct (Pivot_io_cases t m n Hwf Hm Hn)
    as (s0 & Es0 & [[-> Eio]|(Hs0 & Hu & Hi & r & Er & Hr)]).
  - split.
    + intros _. by rewrite Eio.
    + intros s Es Hs. rewrite Es0 in Es. injection Es as <-. lia.
  - split.
    + intros Hno. by destruct (Hno s0 Hs0 Hu).
    + intros s Es Hs Hnone. rewrite Es0 in Es. injection Es as <-.
      destruct Hr as [(-> & _ & Eio)|(Hr & He & _)].
      * by rewrite Eio.
      * by destruct (Hnone r Hr).
Qed.

Lemma Pivot_invalid_pair_shared_witness :
  (well_formed Examples.lp_unbounded 2 2 /\ 1 <= 2 /\ 1 <= 2) /\
  Pivot Examples.lp_unbounded = Some (-1, -1) /\
  Pivot_io Examples.lp_unbounded
  = Some ((-1, -1), ["Warning: Unbounded solution detected"%string]).
Proof.
  assert (Hwf : well_formed Examples.lp_unbounded 2 2) by solve_wf.
  split; [split; [exact Hwf | lia]|].
  destruct (Pivot_invalid_pair_shared Examples.lp_unbounded 2 2 Hwf
              ltac:(lia) ltac:(lia)) as [_ HU].
  apply (HU 0); [vm_compute; reflexivity | lia |].
  intros i Hi [_ Hpos]. assert (i = 0) as -> by lia.
  vm_compute in Hpos. discriminate.
Defined.

(** ** Solution extraction (C8) *)

Section solution_facts.
Variables (t : Tableau) (m n : Z).
Hypothesis Hwf : well_formed t m n.
Hypothesis Hm : 1 <= m.
Hypothesis Hn : 2 <= n.
(** The constraint rows carry pairwise different labels, none of them the
    reserved key. *)
Hypothesis Hdistinct :
  forall i i' name, 0 <= i < m - 1 -> 0 <= i' < m - 1 ->
    index (RowNames t) i = Some name -> index (RowNames t) i' = Some name -> i = i'.
Hypothesis Hreserved :
  forall i, 0 <= i < m - 1 -> index (RowNames t) i <> Some "objective"%string.

Lemma GetSolution_spec :
  exists sol, GetSolution t = Some sol /\
    sol !! "objective"%string = Some (entry t (m - 1) (n - 1)) /\
    (forall i name, 0 <= i < m - 1 -> index (RowNames t) i = Some name ->
       sol !! name = Some (entry t i (n - 1))) /\
    (forall j name, 0 <= j < n - 1 -> index (ColNames t) j = Some name ->
       name <> "objective"%string ->
       (forall i, 0 <= i < m - 1 -> index (RowNames t) i <> Some name) ->
       sol !! name = Some {| fr.N := 0; fr.D := 1 |}) /\
    (forall name v, sol !! name = Some v ->
       name = "objective"%string
       \/ (exists i, 0 <= i < m - 1 /\ index (RowNames t) i = Some name)
       \/ (exists j, 0 <= j < n - 1 /\ index (ColNames t) j = Some name)).
Proof.
  destruct Hwf as (Hd & HlY & HlX & HlR & HlC).
  unfold GetSolution.
  destruct (wf_row0 t m n Hwf Hm) as (row0 & -> & Hrow0). cbn.
  rewrite Hrow0, (wf_len_Table t m n Hwf).
  rewrite (wf_cell t m n (m - 1) (n - 1) Hwf) by lia. cbn.
  set (obj := entry t (m - 1) (n - 1)).
  (* rows *)
  pose (I1 := fun (i : Z) (sol : gmap string fr.Fraction) =>
    sol !! "objective"%string = Some obj /\
    (forall i' name, 0 <= i' < i -> index (RowNames t) i' = Some name ->
       sol !! name = Some (entry t i' (n - 1))) /\
    (forall name v, sol !! name = Some v ->
       name = "objective"%string
       \/ (exists i', 0 <= i' < i /\ index (RowNames t) i' = Some name))).
  destruct (for_loop_inv I1 0 (m - 1)
    (fun i solution =>
       for_loop 0 (n - 1)
         (fun j solution =>
            index (RowNames t) i ≫= fun varName =>
            cell (Table t) i (n - 1) ≫= fun v =>
            Some (<[varName := v]> solution)) solution)
    (<["objective"%string := obj]> ∅)) as (sol1 & -> & Hobj1 & Hrows1 & Hkeys1).
  { lia. }
  { split; [apply lookup_insert_eq|]. split; [intros i' name Hi'; lia|].
    intros name v Hv. destruct (decide (name = "objective"%string)) as [->|Hne]; [by left|].
    rewrite lookup_insert_ne, lookup_empty in Hv by done. discriminate. }
  { intros k sol Hk (Hobj & Hrows & Hkeys).
    destruct (index_is_Some (RowNames t) k ltac:(lia)) as [name Hname].
    pose (J := fun (j : Z) (sol' : gmap string fr.Fraction) =>
      if decide (j = 0) then sol' = sol
      else sol' = <[name := entry t k (n - 1)]> sol).
    destruct (for_loop_inv J 0 (n - 1)
      (fun j solution =>
         index (RowNames t) k ≫= fun varName =>
         cell (Table t) k (n - 1) ≫= fun v =>
         Some (<[varName := v]> solution)) sol) as (sol' & -> & HJ).
    { lia. }
    { unfold J. by rewrite decide_True. }
    { intros j sol' Hj HJ. rewrite Hname. cbn.
      rewrite (wf_cell t m n k (n - 1) Hwf) by lia. cbn.
      eexists. split; [reflexivity|]. unfold J in HJ |- *.
      rewrite decide_False by lia. case_decide; subst sol'; [reflexivity|].
      by rewrite insert_insert_eq. }
    unfold J in HJ. rewrite decide_False in HJ by lia. subst sol'.
    eexists. split; [reflexivity|]. split; [|split].
    - rewrite lookup_insert_ne; [exact Hobj|].
      intros ->. by destruct (Hreserved k ltac:(lia)).
    - intros i' name' Hi' Hname'.
      destruct (decide (i' = k)) as [->|Hne].
      + rewrite Hname in Hname'. injection Hname' as <-. apply lookup_insert_eq.
      + rewrite lookup_insert_ne; [apply (Hrows i'); [lia|done]|].
        intros <-. apply Hne. by apply (Hdistinct i' k name); [lia|lia| |].
    - intros name' v Hv. destruct (decide (name = name')) as [<-|Hne].
      + right. exists k. split; [lia|done].
      + rewrite lookup_insert_ne in Hv by done.
        destruct (Hkeys name' v Hv) as [?|(i' & Hi' & ?)]; [by left|].
        right. exists i'. split; [lia|done]. }
  cbn.
  (* columns *)
  pose (I2 := fun (j : Z) (sol : gmap string fr.Fraction) =>
    (forall name v, sol1 !! name = Some v -> sol !! name = Some v) /\
    (forall j' name, 0 <= j' < j -> index (ColNames t) j' = Some name ->
       sol1 !! name = None -> sol !! name = Some {| fr.N := 0; fr.D := 1 |}) /\
    (forall name v, sol !! name = Some v ->
       sol1 !! name = Some v
       \/ (exists j', 0 <= j' < j /\ index (ColNames t) j' = Some name))).
  destruct (for_loop_inv I2 0 (n - 1)
    (fun j solution =>
       index (ColNames t) j ≫= fun varName =>
       match solution !! varName with
       | Some _ => Some solution
       | None => Some (<[varName := {| fr.N := 0; fr.D := 1 |}]> solution)
       end) sol1) as (sol2 & -> & Hkeep & Hcols & Hkeys2).
  { lia. }
  { split; [done|]. split; [intros j' name Hj'; lia|]. intros name v Hv. by left. }
  { intros k sol Hk (Hkeep & Hcols & Hkeys).
    destruct (index_is_Some (ColNames t) k ltac:(lia)) as [name Hname].
    rewrite Hname. cbn.
    destruct (sol !! name) as [v0|] eqn:Esol.
    - eexists. split; [reflexivity|]. split; [done|]. split.
      + intros j' name' Hj' Hname' Hnone.
        destruct (decide (j' = k)) as [->|Hne]; [|apply (Hcols j'); [lia|done|done]].
        rewrite Hname in Hname'. injection Hname' as <-.
        destruct (Hkeys name v0 Esol) as [E1|(j'' & Hj'' & Hn'')]; [congruence|].
        apply (Hcols j'' name); [lia|done|done].
      + intros name' v Hv. destruct (Hkeys name' v Hv) as [?|(j' & Hj' & ?)]; [by left|].
        right. exists j'. split; [lia|done].
    - eexists. split; [reflexivity|]. split; [|split].
      + intros name' v Hv. rewrite lookup_insert_ne; [by apply Hkeep|].
        intros <-. rewrite (Hkeep _ _ Hv) in Esol. discriminate.
      + intros j' name' Hj' Hname' Hnone.
        destruct (decide (name = name')) as [<-|Hne]; [apply lookup_insert_eq|].
        rewrite lookup_insert_ne by done.
        destruct (decide (j' = k)) as [->|Hne']; [congruence|].
        apply (Hcols j'); [lia|done|done].
      + intros name' v Hv. destruct (decide (name = name')) as [<-|Hne].
        * right. exists k. split; [lia|done].
        * rewrite lookup_insert_ne in Hv by done.
          destruct (Hkeys name' v Hv) as [?|(j' & Hj' & ?)]; [by left|].
          right. exists j'. split; [lia|done]. }
  exists sol2. split; [reflexivity|].
  split; [by apply Hkeep|].
  split; [intros i name Hi Hname; apply Hkeep; by apply (Hrows1 i)|].
  split.
  - intros j name Hj Hname Hno Hnorow. apply (Hcols j); [lia|done|].
    destruct (sol1 !! name) as [v|] eqn:E; [|reflexivity].
    destruct (Hkeys1 name v E) as [->|(i & Hi & Hrow)]; [done|].
    by destruct (Hnorow i Hi).
  - intros name v Hv.
    destruct (Hkeys2 name v Hv) as [H1|(j & Hj & Hcol)].
    + destruct (Hkeys1 name v H1) as [->|(i & Hi & Hrow)]; [by left|].
      right. left. exists i. split; [lia|done].
    + right. right. exists j. split; [lia|done].
Qed.

End solution_facts.

(** C8, as stated, fails in two ways.  With two constraint rows labelled
    "a" (right-hand sides 1 and 2) the key "a" is bound to 2, not to the
    first row's 1.  And on a tableau with the default labels the label
    "const" of the last column is a column label that is not a key, yet it is
    not bound to anything. *)
Lemma GetSolution_label_clash :
  index (RowNames Examples.lp_same_label) 0 = Some "a"%string /\
  entry Examples.lp_same_label 0 1 = Examples.whole 1 /\
  (sol ← GetSolution Examples.lp_same_label; sol !! "a"%string)
  = Some (Examples.whole 2) /\
  index (ColNames Examples.lp_two_constraints) 2 = Some "const"%string /\
  (sol ← GetSolution Examples.lp_two_constraints; Some (sol !! "const"%string))
  = Some None.
Proof. split_conj; vm_compute; reflexivity. Qed.

(** C8, amended: on a well-formed tableau with at least one non-RHS column
    whose constraint rows carry pairwise different labels, none of them
    "objective", [GetSolution] returns a mapping that binds "objective" to
    the objective row's right-hand side, every constraint row's label to that
    row's right-hand side, and every label of a non-RHS column that is
    neither "objective" nor a constraint row's label to 0/1; it has no other
    key. *)
Theorem GetSolution_bindings t m n :
  well_formed t m n -> 1 <= m -> 2 <= n ->
  (forall i i' name, 0 <= i < m - 1 -> 0 <= i' < m - 1 ->
     index (RowNames t) i = Some name -> index (RowNames t) i' = Some name -> i = i') ->
  (forall i, 0 <= i < m - 1 -> index (RowNames t) i <> Some "objective"%string) ->
  exists sol, GetSolution t = Some sol /\
    sol !! "objective"%string = Some (entry t (m - 1) (n - 1)) /\
    (forall i name, 0 <= i < m - 1 -> index (RowNames t) i = Some name ->
       sol !! name = Some (entry t i (n - 1))) /\
    (forall j name, 0 <= j < n - 1 -> index (ColNames t) j = Some name ->
       name <> "objective"%string ->
       (forall i, 0 <= i < m - 1 -> index (RowNames t) i <> Some name) ->
       sol !! name = Some {| fr.N := 0; fr.D := 1 |}) /\
    (forall name v, sol !! name = Some v ->
       name = "objective"%string
       \/ (exists i, 0 <= i < m - 1 /\ index (RowNames t) i = Some name)
       \/ (exists j, 0 <= j < n - 1 /\ index (ColNames t) j = Some name)).
Proof. intros. by apply GetSolution_spec. Qed.

Lemma default_labels_distinct :
  (forall i i' name, 0 <= i < 3 - 1 -> 0 <= i' < 3 - 1 ->
     index (RowNames Examples.lp_two_constraints) i = Some name ->
     index (RowNames Examples.lp_two_constraints) i' = Some name -> i = i') /\
  (forall i, 0 <= i < 3 - 1 ->
     index (RowNames Examples.lp_two_constraints) i <> Some "objective"%string).
Proof.
  split.
  - intros i i' name Hi Hi'.
    assert (i = 0 \/ i = 1) as [-> | ->] by lia;
      assert (i' = 0 \/ i' = 1) as [-> | ->] by lia;
      vm_compute; congruence.
  - intros i Hi. assert (i = 0 \/ i = 1) as [-> | ->] by lia; vm_compute; congruence.
Qed.

Lemma GetSolution_bindings_witness :
  (well_formed Examples.lp_two_constraints 3 3 /\ 1 <= 3 /\ 2 <= 3) /\
  exists sol, GetSolution Examples.lp_two_constraints = Some sol /\
    sol !! "objective"%string = Some (Examples.whole 0) /\
    sol !! "s1"%string = Some (Examples.whole 4) /\
    sol !! "s2"%string = Some (Examples.whole 6) /\
    sol !! "-x1"%string = Some (Examples.whole 0).
Proof.
  assert (Hwf : well_formed Examples.lp_two_constraints 3 3) by solve_wf.
  split; [split; [exact Hwf | lia]|].
  destruct default_labels_distinct as [Hdis Hres].
  destruct (GetSolution_bindings Examples.lp_two_constraints 3 3 Hwf
              ltac:(lia) ltac:(lia) Hdis Hres) as (sol & E & Hobj & Hrows & Hcols & _).
  exists sol. split; [exact E|]. split; [exact Hobj|].
  split; [exact (Hrows 0 "s1"%string ltac:(lia) eq_refl)|].
  split; [exact (Hrows 1 "s2"%string ltac:(lia) eq_refl)|].
  apply (Hcols 0 "-x1"%string); [lia | reflexivity | discriminate |].
  intros i Hi. assert (i = 0 \/ i = 1) as [-> | ->] by lia; vm_compute; congruence.
Defined.

(** * Further properties of the code *)

Section add_exact.
Import fraction.

Lemma add_exact a b :
  Z.abs a + Z.abs b <= GoInt.max_int -> GoInt.add a b = a + b.
Proof.
  intros Hb. unfold GoInt.add. apply wrap_id.
  unfold GoInt.in_range, GoInt.min_int, GoInt.max_int in *. lia.
Qed.

Lemma Add_bounded X Y X' Y' a b :
  bounded X Y a -> bounded X' Y' b ->
  X * Y' + X' * Y <= GoInt.max_int -> Y * Y' <= GoInt.max_int ->
  bounded (X * Y' + X' * Y) (Y * Y') (Add a b)
  /\ (Qval (Add a b) == Qval a + Qval b)%Q.
Proof.
  intros (Ha1 & Ha2 & Ha3) (Hb1 & Hb2 & Hb3) HX HY. unfold Add.
  assert (B1 : Z.abs (N a) * Z.abs (D b) <= X * Y') by nia.
  assert (B2 : Z.abs (D a) * Z.abs (N b) <= X' * Y) by nia.
  assert (B3 : Z.abs (D a) * Z.abs (D b) <= Y * Y') by nia.
  assert (P1 : 0 <= X * Y') by nia. assert (P2 : 0 <= X' * Y) by nia.
  rewrite (mul_exact (N a) (D b)) by (clear -B1 P2 HX; lia).
  rewrite (mul_exact (D a) (N b)) by (clear -B2 P1 HX; lia).
  rewrite (mul_exact (D a) (D b)) by (clear -B3 HY; lia).
  rewrite add_exact by (rewrite !Z.abs_mul; clear -B1 B2 HX; lia).
  assert (B4 : Z.abs (N a * D b + D a * N b) <= X * Y' + X' * Y).
  { pose proof (Z.abs_triangle (N a * D b) (D a * N b)) as Ht.
    rewrite !Z.abs_mul in Ht. lia. }
  assert (S1 : D a * D b <> 0) by nia.
  assert (S2 : Z.abs (N a * D b + D a * N b) <= GoInt.max_int) by lia.
  assert (S3 : Z.abs (D a * D b) <= GoInt.max_int) by (rewrite Z.abs_mul; lia).
  destruct (Simplify_spec {| N := N a * D b + D a * N b; D := D a * D b |} S1 S2 S3)
    as (H1 & H2 & H3 & H4).
  cbn [N D] in *. rewrite Z.abs_mul in H4.
  split; [unfold bounded; lia|].
  rewrite (Qval_Simplify {| N := N a * D b + D a * N b; D := D a * D b |} S1 S2 S3).
  unfold Qval. cbn [N D]. rewrite inject_Z_plus, !inject_Z_mult.
  pose proof (Qval_nonzero_den a ltac:(lia)). pose proof (Qval_nonzero_den b ltac:(lia)).
  field. auto.
Qed.

End add_exact.

(** X1: on operands with positive denominators whose numerators and
    denominators are at most [2^30] in absolute value, [Add], [Sub], [Mul]
    and [Div] (by a fraction with a non-zero numerator) return the exact
    rational sum, difference, product and quotient, with a positive
    denominator. *)
Theorem fraction_arithmetic_exact a b :
  fr.bounded (2 ^ 30) (2 ^ 30) a -> fr.bounded (2 ^ 30) (2 ^ 30) b ->
  (fr.Qval (fr.Add a b) == fr.Qval a + fr.Qval b)%Q /\ 0 < fr.D (fr.Add a b) /\
  (fr.Qval (fr.Sub a b) == fr.Qval a - fr.Qval b)%Q /\ 0 < fr.D (fr.Sub a b) /\
  (fr.Qval (fr.Mul a b) == fr.Qval a * fr.Qval b)%Q /\ 0 < fr.D (fr.Mul a b) /\
  (fr.N b <> 0 ->
   (fr.Qval (fr.Div a b) == fr.Qval a / fr.Qval b)%Q /\ 0 < fr.D (fr.Div a b)).
Proof.
  intros Ha Hb.
  assert (Hmax : 2 ^ 61 <= GoInt.max_int) by (vm_compute; discriminate).
  destruct (Add_bounded _ _ _ _ a b Ha Hb) as [(_ & ? & _) ?]; [lia | lia |].
  destruct (Sub_bounded _ _ _ _ a b Ha Hb) as [(_ & ? & _) ?]; [lia | lia |].
  destruct (Mul_bounded _ _ _ _ a b Ha Hb) as [(_ & ? & _) ?]; [lia | lia |].
  split_conj; try assumption.
  intros Hnb.
  destruct (Div_bounded _ _ _ _ a b Ha Hb Hnb) as [(_ & ? & _) ?]; [lia | lia |].
  by split.
Qed.

Lemma fraction_arithmetic_exact_witness :
  (fr.bounded (2 ^ 30) (2 ^ 30) (Examples.frac 1 2) /\
   fr.bounded (2 ^ 30) (2 ^ 30) (Examples.frac (-1) 3)) /\
  (fr.Qval (fr.Add (Examples.frac 1 2) (Examples.frac (-1) 3))
   == fr.Qval (Examples.frac 1 2) + fr.Qval (Examples.frac (-1) 3))%Q.
Proof.
  assert (H1 : fr.bounded (2 ^ 30) (2 ^ 30) (Examples.frac 1 2))
    by (unfold fr.bounded; cbn; lia).
  assert (H2 : fr.bounded (2 ^ 30) (2 ^ 30) (Examples.frac (-1) 3))
    by (unfold fr.bounded; cbn; lia).
  split; [by split|].
  by destruct (fraction_arithmetic_exact _ _ H1 H2) as (? & _).
Defined.

(** X2: [gcd] never returns zero, so neither division of [Simplify] can
    panic. *)
Theorem gcd_is_never_zero n : (fr.gcd n =? 0) = false.
Proof. apply Z.eqb_neq, gcd_nonzero. Qed.

(** X3: on a well-formed tableau [IsFeasible] answers, and it answers
    [true] exactly when no constraint row, masked or not, has a negative
    right-hand-side numerator. *)
Theorem IsFeasible_iff_no_negative_rhs t m n :
  well_formed t m n -> 1 <= m -> 1 <= n ->
  exists b, IsFeasible t = Some b /\
    (b = true <-> forall i, 0 <= i < m - 1 -> 0 <= fr.N (rhs t n i)).
Proof.
  intros Hwf Hm Hn.
  destruct (IsFeasible_spec t m n Hwf Hm Hn) as (b & E & Hb).
  exists b. split; [exact E|]. rewrite Hb.
  split; intros H i Hi; specialize (H i Hi); lia.
Qed.

Lemma IsFeasible_iff_no_negative_rhs_witness :
  (well_formed Examples.lp_infeasible_start 2 3 /\ 1 <= 2 /\ 1 <= 3) /\
  IsFeasible Examples.lp_infeasible_start = Some false.
Proof.
  assert (Hwf : well_formed Examples.lp_infeasible_start 2 3) by solve_wf.
  split; [split; [exact Hwf | lia]|].
  destruct (IsFeasible_iff_no_negative_rhs _ 2 3 Hwf ltac:(lia) ltac:(lia))
    as (b & E & Hb).
  rewrite E. destruct b; [|reflexivity].
  destruct Hb as [Hb _]. specialize (Hb eq_refl 0 ltac:(lia)).
  vm_compute in Hb. by destruct Hb.
Defined.

(** X4: on a well-formed tableau [IsOptimal] answers, and it answers [true]
    exactly when no non-RHS column, masked or not, has an objective-row
    numerator that is negative (maximizing) or positive (minimizing). *)
Theorem IsOptimal_iff_no_improving_column t m n :
  well_formed t m n -> 1 <= m -> 1 <= n ->
  exists b, IsOptimal t = Some b /\
    (b = true <-> forall j, 0 <= j < n - 1 -> ~ improving t (objective t j)).
Proof. intros. by apply (IsOptimal_spec t m n). Qed.

Lemma IsOptimal_iff_no_improving_column_witness :
  (well_formed Examples.lp_optimal 2 2 /\ 1 <= 2 /\ 1 <= 2) /\
  exists b, IsOptimal Examples.lp_optimal = Some b.
Proof.
  assert (Hwf : well_formed Examples.lp_optimal 2 2) by solve_wf.
  split; [split; [exact Hwf | lia]|].
  destruct (IsOptimal_iff_no_improving_column _ 2 2 Hwf ltac:(lia) ltac:(lia))
    as (b & E & _).
  by exists b.
Defined.

(** X5: on a well-formed tableau [MakeFeasible] returns (nothing panics and
    the loop stops within its twenty iterations), it keeps the dimensions,
    it answers [true] only with a feasible tableau in the receiver, and a
    tableau that is feasible at the start is returned unchanged with
    [true]. *)
Theorem MakeFeasible_always_returns t m n :
  well_formed t m n -> 1 <= m -> 1 <= n ->
  (exists ok t', MakeFeasible t = Some (ok, t') /\
     well_formed t' m n /\ (ok = true -> IsFeasible t' = Some true)) /\
  (IsFeasible t = Some true -> MakeFeasible t = Some (true, t)).
Proof.
  intros Hwf Hm Hn. split.
  - by apply MakeFeasible_returns.
  - by apply (MakeFeasible_first_round t m n).
Qed.

Lemma MakeFeasible_always_returns_witness :
  (well_formed Examples.lp_infeasible_start 2 3 /\ 1 <= 2 /\ 1 <= 3) /\
  exists ok t', MakeFeasible Examples.lp_infeasible_start = Some (ok, t') /\
                well_formed t' 2 3.
Proof.
  assert (Hwf : well_formed Examples.lp_infeasible_start 2 3) by solve_wf.
  split; [split; [exact Hwf | lia]|].
  destruct (MakeFeasible_always_returns _ 2 3 Hwf ltac:(lia) ltac:(lia))
    as [(ok & t' & E & Hwf' & _) _].
  by exists ok, t'.
Defined.

(** X6: for at least one row and one column [Init] succeeds with a grid of
    the asked dimensions whose entries all are the zero value 0/0, row labels
    [s1 .. s(rows-1)] and [F], column labels [-x1 .. -x(cols-1)] and [const],
    all masks false and the sense set to maximization. *)
Theorem Init_defaults rows cols :
  1 <= rows -> 1 <= cols ->
  exists t, Init rows cols = Some t /\
    well_formed t rows cols /\
    (forall i j, 0 <= i < rows -> 0 <= j < cols ->
       cell (Table t) i j = Some zero_value) /\
    (forall i, 0 <= i < rows -> index (dirtY t) i = Some false) /\
    (forall j, 0 <= j < cols -> index (dirtX t) j = Some false) /\
    (forall i, 0 <= i < rows - 1 ->
       index (RowNames t) i = Some ("s" +:+ sprint_d (i + 1))) /\
    index (RowNames t) (rows - 1) = Some "F"%string /\
    (forall j, 0 <= j < cols - 1 ->
       index (ColNames t) j = Some ("-x" +:+ sprint_d (j + 1))) /\
    index (ColNames t) (cols - 1) = Some "const"%string /\
    IsMaximization t = true.
Proof. apply Init_spec. Qed.

Lemma Init_defaults_witness :
  (1 <= 3 /\ 1 <= 4) /\
  exists t, Init 3 4 = Some t /\ well_formed t 3 4 /\
    cell (Table t) 1 2 = Some zero_value /\
    index (RowNames t) 1 = Some "s2"%string /\
    index (ColNames t) 3 = Some "const"%string.
Proof.
  split; [lia|].
  destruct (Init_defaults 3 4 ltac:(lia) ltac:(lia))
    as (t & E & Hwf & Hcell & _ & _ & Hrn & _ & _ & Hcn & _).
  exists t. split; [exact E|]. split; [exact Hwf|].
  split; [apply Hcell; lia|]. split; [exact (Hrn 1 ltac:(lia)) | exact Hcn].
Defined.

(** X7: on a well-formed tableau [PivotForFeasibility] returns; its row is
    the first unmasked constraint row whose right-hand side has a negative
    numerator, or the pair is (-1, -1) when there is none; its column is the
    first unmasked non-RHS column whose entry in that row has the least
    negative numerator, or -1 when the row has no negative numerator in an
    unmasked column. *)
Theorem PivotForFeasibility_choice t m n :
  well_formed t m n -> 1 <= m -> 1 <= n ->
  exists r s, PivotForFeasibility t = Some (r, s) /\
    ((r = -1 /\ s = -1 /\
      forall i, 0 <= i < m - 1 -> unmasked_row t i -> ~ fr.N (rhs t n i) < 0)
     \/ (0 <= r < m - 1 /\ unmasked_row t r /\ fr.N (rhs t n r) < 0 /\
         (forall i, 0 <= i < r -> unmasked_row t i -> ~ fr.N (rhs t n i) < 0) /\
         ((s = -1 /\
           forall j, 0 <= j < n - 1 -> unmasked_col t j -> ~ fr.N (entry t r j) < 0)
          \/ (0 <= s < n - 1 /\ unmasked_col t s /\ fr.N (entry t r s) < 0 /\
              forall j, 0 <= j < n - 1 -> unmasked_col t j -> fr.N (entry t r j) < 0 ->
                fr.N (entry t r s) <= fr.N (entry t r j)
                /\ (j < s -> fr.N (entry t r j) <> fr.N (entry t r s)))))).
Proof. intros. by apply (PivotForFeasibility_spec t m n). Qed.

Lemma PivotForFeasibility_choice_witness :
  (well_formed Examples.lp_infeasible_start 2 3 /\ 1 <= 2 /\ 1 <= 3) /\
  exists r s, PivotForFeasibility Examples.lp_infeasible_start = Some (r, s).
Proof.
  assert (Hwf : well_formed Examples.lp_infeasible_start 2 3) by solve_wf.
  split; [split; [exact Hwf | lia]|].
  destruct (PivotForFeasibility_choice _ 2 3 Hwf ltac:(lia) ltac:(lia))
    as (r & s & E & _).
  by exists r, s.
Defined.

(** X8: on a well-formed tableau the entering-column scan of [Pivot]
    returns; it answers -1 exactly when no unmasked non-RHS column has an
    improving objective entry, and otherwise the first unmasked improving
    column whose objective entry has the extreme numerator (least when
    maximizing, greatest when minimizing). *)
Theorem Pivot_entering_extreme_numerator t m n :
  well_formed t m n -> 1 <= m -> 1 <= n ->
  exists s, Pivot_entering t = Some s /\
    ((s = -1 /\
      forall j, 0 <= j < n - 1 -> unmasked_col t j -> ~ improving t (objective t j))
     \/ (0 <= s < n - 1 /\ unmasked_col t s /\ improving t (objective t s) /\
         forall j, 0 <= j < n - 1 -> unmasked_col t j -> improving t (objective t j) ->
           (if IsMaximization t
            then fr.N (objective t s) <= fr.N (objective t j)
            else fr.N (objective t j) <= fr.N (objective t s))
           /\ (j < s -> fr.N (objective t j) <> fr.N (objective t s)))).
Proof. intros. by apply (Pivot_entering_spec t m n). Qed.

Lemma Pivot_entering_extreme_numerator_witness :
  (well_formed Examples.lp_two_constraints 3 3 /\ 1 <= 3 /\ 1 <= 3) /\
  exists s, Pivot_entering Examples.lp_two_constraints = Some s.
Proof.
  assert (Hwf : well_formed Examples.lp_two_constraints 3 3) by solve_wf.
  split; [split; [exact Hwf | lia]|].
  destruct (Pivot_entering_extreme_numerator _ 3 3 Hwf ltac:(lia) ltac:(lia))
    as (s & E & _).
  by exists s.
Defined.

(** * Canonical forms, pivoting loops and assembly *)

(** ** Fractions: canonical forms and round trips *)

Section fraction_canonical.
Import fraction.

Lemma lxor_cancel a b : Z.lxor (Z.lxor a b) b = a.
Proof. by rewrite Z.lxor_assoc, Z.lxor_nilpotent, Z.lxor_0_r. Qed.

Lemma reduced_unique n1 d1 n2 d2 :
  0 < d1 -> 0 < d2 -> Z.gcd n1 d1 = 1 -> Z.gcd n2 d2 = 1 ->
  n1 * d2 = n2 * d1 -> n1 = n2 /\ d1 = d2.
Proof.
  intros H1 H2 G1 G2 E.
  assert (D12 : (d1 | d2)).
  { apply (Z.gauss d1 n1 d2); [|by rewrite Z.gcd_comm].
    rewrite E. apply Z.divide_factor_r. }
  assert (D21 : (d2 | d1)).
  { apply (Z.gauss d2 n2 d1); [|by rewrite Z.gcd_comm].
    rewrite <- E. apply Z.divide_factor_r. }
  assert (d1 = d2) as -> by (apply Z.divide_antisym_nonneg; first [assumption|lia]).
  split; [|reflexivity]. apply (proj1 (Z.mul_cancel_r n1 n2 d2 ltac:(lia))). exact E.
Qed.

Lemma Simplify_eq a b :
  N a <> 0 -> D a <> 0 -> D b <> 0 ->
  Z.abs (N a) <= GoInt.max_int -> Z.abs (D a) <= GoInt.max_int ->
  Z.abs (N b) <= GoInt.max_int -> Z.abs (D b) <= GoInt.max_int ->
  N a * D b = N b * D a ->
  Simplify a = Simplify b.
Proof.
  intros Na Da Db Ba1 Ba2 Bb1 Bb2 E.
  assert (Nb : N b <> 0) by (intros Hz; rewrite Hz in E; nia).
  destruct (Simplify_nonzero a Na Da Ba1 Ba2) as (Pa & Ga & Ca & _).
  destruct (Simplify_nonzero b Nb Db Bb1 Bb2) as (Pb & Gb & Cb & _).
  destruct (Simplify a) as [na da], (Simplify b) as [nb db]. cbn [N D] in *.
  assert (X : na * db = nb * da).
  { assert (Hnz : D a * D b <> 0) by nia.
    apply (proj1 (Z.mul_cancel_r _ _ (D a * D b) Hnz)).
    transitivity (na * D a * (db * D b)); [ring|]. rewrite Ca.
    transitivity (nb * D b * (da * D a)); [|ring]. rewrite Cb.
    transitivity (N a * D b * (da * db)); [ring|]. rewrite E. ring. }
  destruct (reduced_unique na da nb db Pa Pb Ga Gb X) as [-> ->]. reflexivity.
Qed.

Lemma Simplify_idem f :
  D f <> 0 -> Z.abs (N f) <= GoInt.max_int -> Z.abs (D f) <= GoInt.max_int ->
  Simplify (Simplify f) = Simplify f.
Proof.
  intros Df B1 B2. destruct (decide (N f = 0)) as [Hz|Hnz].
  - destruct f as [n d]. cbn [N D] in *. subst n.
    rewrite (Simplify_zero_numerator d B2).
    rewrite (Simplify_zero_numerator (Z.abs d)) by (rewrite Z.abs_idemp; exact B2).
    by rewrite Z.abs_idemp.
  - destruct (Simplify_nonzero f Hnz Df B1 B2) as (P & G & C & L1 & L2).
    apply Simplify_eq; lia.
Qed.

Lemma Simplify_zero_denominator n :
  GoInt.in_range n -> Simplify (mkFraction n 0) = mkFraction n 0.
Proof.
  intros B. unfold Simplify.
  rewrite (gcd_zero_operand (mkFraction n 0)) by (right; reflexivity).
  cbn [N D]. change (GoInt.quo 0 1) with 0. cbn.
  f_equal. unfold GoInt.quo. rewrite Z.quot_1_r. by apply wrap_id.
Qed.

End fraction_canonical.

Section fraction_round_trips.
Import fraction.

Lemma abs_mul_le a b X Y : Z.abs a <= X -> Z.abs b <= Y -> Z.abs (a * b) <= X * Y.
Proof.
  intros Ha Hb. rewrite Z.abs_mul.
  apply Z.mul_le_mono_nonneg; [apply Z.abs_nonneg | exact Ha | apply Z.abs_nonneg | exact Hb].
Qed.

Lemma mul_exact_le a b X Y :
  Z.abs a <= X -> Z.abs b <= Y -> X * Y <= GoInt.max_int -> GoInt.mul a b = a * b.
Proof.
  intros Ha Hb HXY. apply mul_exact. rewrite <- Z.abs_mul.
  pose proof (abs_mul_le a b X Y Ha Hb). lia.
Qed.

Lemma pow_bounds :
  2 ^ 20 * 2 ^ 20 = 2 ^ 40 /\ 2 ^ 40 * 2 ^ 20 = 2 ^ 60 /\
  2 ^ 40 + 2 ^ 40 = 2 ^ 41 /\ 2 ^ 41 * 2 ^ 20 = 2 ^ 61 /\
  2 ^ 61 + 2 ^ 60 <= GoInt.max_int /\ 2 ^ 20 <= GoInt.max_int.
Proof. split_conj; vm_compute; (reflexivity || discriminate). Qed.

Lemma pow_max :
  2 ^ 41 <= GoInt.max_int /\ 2 ^ 60 <= GoInt.max_int /\ 2 ^ 61 <= GoInt.max_int.
Proof. split_conj; vm_compute; discriminate. Qed.

(** [Div] followed by [Mul] with the same fraction. *)
Lemma Mul_Div_cancel a b :
  bounded (2 ^ 20) (2 ^ 20) a -> bounded (2 ^ 20) (2 ^ 20) b ->
  N a <> 0 -> N b <> 0 ->
  Mul (Div a b) b = Simplify a.
Proof.
  intros (A1 & A2 & A3) (B1 & B2 & B3) Na Nb.
  destruct pow_bounds as (P1 & P2 & P3 & P4 & P5 & P6).
  assert (DA : Z.abs (D a) <= 2 ^ 20) by lia.
  assert (DB : Z.abs (D b) <= 2 ^ 20) by lia.
  pose proof (abs_mul_le _ _ _ _ A1 DB) as M1.
  pose proof (abs_mul_le _ _ _ _ DA B1) as M2.
  rewrite P1 in M1, M2.
  assert (E1 : Z.abs (N a) * Z.abs (D b) <= GoInt.max_int)
    by (rewrite <- Z.abs_mul; clear -M1 P2 P5; lia).
  assert (E2 : Z.abs (D a) * Z.abs (N b) <= GoInt.max_int)
    by (rewrite <- Z.abs_mul; clear -M2 P2 P5; lia).
  destruct (Div_spec a b ltac:(lia) Nb E1 E2) as (Q1 & Q2 & Q3 & Q4).
  rewrite <- !Z.abs_mul in Q3, Q4.
  set (q := Div a b) in *.
  assert (NQ : Z.abs (N q) <= 2 ^ 40) by (clear -Q3 M1; lia).
  assert (DQ : Z.abs (D q) <= 2 ^ 40) by (clear -Q1 Q4 M2; lia).
  unfold Mul.
  rewrite (mul_exact_le (N q) (N b) _ _ NQ B1) by (clear -P2 P5; lia).
  rewrite (mul_exact_le (D q) (D b) _ _ DQ DB) by (clear -P2 P5; lia).
  pose proof (abs_mul_le _ _ _ _ NQ B1) as M3.
  pose proof (abs_mul_le _ _ _ _ DQ DB) as M4.
  assert (Nq : N q <> 0).
  { intros Hz. rewrite Hz in Q2. clear -Q2 Q1 Na B2. nia. }
  apply Simplify_eq; cbn [N D].
  - clear -Nq Nb. nia.
  - clear -Q1 B2. nia.
  - clear -A2. lia.
  - clear -M3 P2 P5. lia.
  - clear -M4 P2 P5. lia.
  - clear -A1 P6. lia.
  - clear -DA P6. lia.
  - clear -Q2. nia.
Qed.

(** [Mul] followed by [Div] with the same fraction. *)
Lemma Div_Mul_cancel a b :
  bounded (2 ^ 20) (2 ^ 20) a -> bounded (2 ^ 20) (2 ^ 20) b ->
  N a <> 0 -> N b <> 0 ->
  Div (Mul a b) b = Simplify a.
Proof.
  intros (A1 & A2 & A3) (B1 & B2 & B3) Na Nb.
  destruct pow_bounds as (P1 & P2 & P3 & P4 & P5 & P6).
  assert (DA : Z.abs (D a) <= 2 ^ 20) by lia.
  assert (DB : Z.abs (D b) <= 2 ^ 20) by lia.
  pose proof (abs_mul_le _ _ _ _ A1 B1) as M1.
  pose proof (abs_mul_le _ _ _ _ DA DB) as M2.
  rewrite P1 in M1, M2.
  unfold Div at 1, Mul.
  rewrite (mul_exact_le (N a) (N b) _ _ A1 B1) by (clear -P1 P2 P5; lia).
  rewrite (mul_exact_le (D a) (D b) _ _ DA DB) by (clear -P1 P2 P5; lia).
  destruct (Simplify_spec {| N := N a * N b; D := D a * D b |})
    as (Q1 & Q2 & Q3 & Q4); cbn [N D].
  { clear -A2 B2. nia. }
  { clear -M1 P2 P5. lia. }
  { clear -M2 P2 P5. lia. }
  set (q := Simplify {| N := N a * N b; D := D a * D b |}) in *.
  cbn [N D] in Q2, Q3, Q4.
  assert (NQ : Z.abs (N q) <= 2 ^ 40) by (clear -Q3 M1; lia).
  assert (DQ : Z.abs (D q) <= 2 ^ 40) by (clear -Q1 Q4 M2; lia).
  rewrite (mul_exact_le (N q) (D b) _ _ NQ DB) by (clear -P2 P5; lia).
  rewrite (mul_exact_le (D q) (N b) _ _ DQ B1) by (clear -P2 P5; lia).
  pose proof (abs_mul_le _ _ _ _ NQ DB) as M3.
  pose proof (abs_mul_le _ _ _ _ DQ B1) as M4.
  assert (Nq : N q <> 0).
  { intros Hz. rewrite Hz in Q2. clear -Q2 Q1 Na Nb. nia. }
  apply Simplify_eq; cbn [N D].
  - clear -Nq B2. nia.
  - clear -Q1 Nb. nia.
  - clear -A2. lia.
  - clear -M3 P2 P5. lia.
  - clear -M4 P2 P5. lia.
  - clear -A1 P6. lia.
  - clear -DA P6. lia.
  - clear -Q2 Nb B2. nia.
Qed.

(** [Add] followed by [Sub] with the same fraction. *)
Lemma Sub_Add_cancel a b :
  bounded (2 ^ 20) (2 ^ 20) a -> bounded (2 ^ 20) (2 ^ 20) b ->
  N a <> 0 ->
  Sub (Add a b) b = Simplify a.
Proof.
  intros (A1 & A2 & A3) (B1 & B2 & B3) Na.
  destruct pow_bounds as (P1 & P2 & P3 & P4 & P5 & P6).
  assert (DA : Z.abs (D a) <= 2 ^ 20) by lia.
  assert (DB : Z.abs (D b) <= 2 ^ 20) by lia.
  pose proof (abs_mul_le _ _ _ _ A1 DB) as M1.
  pose proof (abs_mul_le _ _ _ _ DA B1) as M2.
  pose proof (abs_mul_le _ _ _ _ DA DB) as M0.
  rewrite P1 in M0, M1, M2.
  unfold Sub at 1, Add.
  rewrite (mul_exact_le (N a) (D b) _ _ A1 DB) by (clear -P1 P2 P5; lia).
  rewrite (mul_exact_le (D a) (N b) _ _ DA B1) by (clear -P1 P2 P5; lia).
  rewrite (mul_exact_le (D a) (D b) _ _ DA DB) by (clear -P1 P2 P5; lia).
  destruct pow_max as (A41 & A60 & A61).
  assert (MS0 : Z.abs (N a * D b) + Z.abs (D a * N b) <= 2 ^ 41).
  { rewrite <- P3. by apply Z.add_le_mono. }
  rewrite (add_exact (N a * D b) (D a * N b)) by (exact (Z.le_trans _ _ _ MS0 A41)).
  assert (MS : Z.abs (N a * D b + D a * N b) <= 2 ^ 41).
  { apply (Z.le_trans _ _ _ (Z.abs_triangle _ _) MS0). }
  destruct (Simplify_spec {| N := N a * D b + D a * N b; D := D a * D b |})
    as (Q1 & Q2 & Q3 & Q4); cbn [N D].
  { clear -A2 B2. nia. }
  { by apply (Z.le_trans _ _ _ MS). }
  { apply (Z.le_trans _ _ _ M0). clear -A60. lia. }
  set (q := Simplify {| N := N a * D b + D a * N b; D := D a * D b |}) in *.
  cbn [N D] in Q2, Q3, Q4.
  assert (NQ : Z.abs (N q) <= 2 ^ 41) by (exact (Z.le_trans _ _ _ Q3 MS)).
  assert (DQ : Z.abs (D q) <= 2 ^ 40).
  { rewrite Z.abs_eq by (clear -Q1; lia). exact (Z.le_trans _ _ _ Q4 M0). }
  rewrite (mul_exact_le (N q) (D b) _ _ NQ DB) by (rewrite P4; exact A61).
  rewrite (mul_exact_le (N b) (D q) _ _ B1 DQ)
    by (rewrite (Z.mul_comm (2 ^ 20) (2 ^ 40)), P2; exact A60).
  rewrite (mul_exact_le (D q) (D b) _ _ DQ DB) by (rewrite P2; exact A60).
  pose proof (abs_mul_le _ _ _ _ NQ DB) as M3.
  pose proof (abs_mul_le _ _ _ _ B1 DQ) as M4.
  pose proof (abs_mul_le _ _ _ _ DQ DB) as M5.
  rewrite P4 in M3. rewrite (Z.mul_comm (2 ^ 20) (2 ^ 40)), P2 in M4. rewrite P2 in M5.
  assert (MT0 : Z.abs (N q * D b) + Z.abs (N b * D q) <= 2 ^ 61 + 2 ^ 60).
  { by apply Z.add_le_mono. }
  rewrite (sub_exact (N q * D b) (N b * D q)) by (exact (Z.le_trans _ _ _ MT0 P5)).
  assert (MT : Z.abs (N q * D b - N b * D q) <= 2 ^ 61 + 2 ^ 60).
  { pose proof (Z.abs_triangle (N q * D b) (- (N b * D q))) as Ht.
    rewrite Z.abs_opp in Ht.
    replace (N q * D b + - (N b * D q)) with (N q * D b - N b * D q) in Ht by ring.
    exact (Z.le_trans _ _ _ Ht MT0). }
  assert (X : (N q * D b - N b * D q) * D a = N a * (D q * D b)).
  { clear -Q2. nia. }
  apply Simplify_eq; cbn [N D].
  - intros Hz. rewrite Hz in X. clear -X Na Q1 B2. nia.
  - clear -Q1 B2. nia.
  - clear -A2. lia.
  - exact (Z.le_trans _ _ _ MT P5).
  - exact (Z.le_trans _ _ _ M5 A60).
  - exact (Z.le_trans _ _ _ A1 P6).
  - exact (Z.le_trans _ _ _ DA P6).
  - exact X.
Qed.

(** [Neg] twice. *)
Lemma Neg_Neg a :
  Z.abs (N a) <= GoInt.max_int -> Z.abs (D a) <= GoInt.max_int ->
  Neg (Neg a) = Simplify a.
Proof.
  intros B1 B2.
  assert (Hone : forall x, Z.abs x <= GoInt.max_int -> GoInt.mul x 1 = x).
  { intros x Hx. unfold GoInt.mul. rewrite Z.mul_1_r. apply wrap_id.
    unfold GoInt.in_range, GoInt.min_int, GoInt.max_int in *. lia. }
  unfold Neg at 2. unfold Mul. cbn [N D].
  rewrite (neg_exact (N a) B1), (Hone (D a) B2).
  destruct (decide (D a = 0)) as [Dz|Dnz].
  - destruct a as [n d]. cbn [N D] in *. subst d.
    rewrite (Simplify_zero_denominator (- n))
      by (unfold GoInt.in_range, GoInt.min_int, GoInt.max_int in *; lia).
    unfold Neg, Mul. cbn [N D].
    rewrite (neg_exact (- n)) by lia. rewrite (Hone 0) by (vm_compute; discriminate).
    by rewrite Z.opp_involutive.
  - destruct (decide (N a = 0)) as [Nz|Nnz].
    + destruct a as [n d]. cbn [N D] in *. subst n. change (- 0) with 0.
      rewrite (Simplify_zero_numerator d B2).
      unfold Neg, Mul. cbn [N D].
      rewrite (Hone (Z.abs d)) by (rewrite Z.abs_idemp; exact B2).
      change (GoInt.mul 0 (-1)) with 0.
      rewrite (Simplify_zero_numerator (Z.abs d)) by (rewrite Z.abs_idemp; exact B2).
      by rewrite Z.abs_idemp.
    + destruct (Simplify_nonzero {| N := - N a; D := D a |})
        as (Q1 & _ & Q2 & Q3 & Q4); cbn [N D]; try lia.
      set (g := Simplify {| N := - N a; D := D a |}) in *. cbn [N D] in Q2, Q3, Q4.
      unfold Neg, Mul. cbn [N D].
      rewrite (neg_exact (N g)) by lia. rewrite (Hone (D g)) by lia.
      apply Simplify_eq; cbn [N D]; lia.
Qed.

End fraction_round_trips.

(** ** Masks and absorbed entries under the transform *)

Lemma list_eq_index {A} (l l' : list A) :
  (forall i, index l i = index l' i) -> l = l'.
Proof.
  intros H. apply list_eq. intros k. specialize (H (Z.of_nat k)).
  by rewrite !index_of_nat in H.
Qed.

Lemma index_insert {A} (l : list A) i v k :
  0 <= i < len l ->
  index (<[Z.to_nat i := v]> l) k = if decide (k = i) then Some v else index l k.
Proof. intros Hi. apply index_store. by apply store_in_range. Qed.

(** Counting masked entries. *)
Lemma filter_true_insert (l : list bool) (j : nat) :
  l !! j = Some false ->
  length (filter (fun b : bool => b = true) (<[j := true]> l))
  = S (length (filter (fun b : bool => b = true) l)).
Proof.
  revert j. induction l as [|x l IH]; intros j Hj; [done|].
  destruct j as [|j]; cbn in Hj.
  - injection Hj as ->. change (<[0%nat := true]> (false :: l)) with (true :: l).
    rewrite !filter_cons.
    destruct (decide (true = true)); [|done].
    destruct (decide (false = true)); [done|]. reflexivity.
  - change (<[S j := true]> (x :: l)) with (x :: <[j := true]> l).
    rewrite !filter_cons.
    destruct (decide (x = true)); cbn [length]; by rewrite IH.
Qed.

Lemma masked_below_insert (mask : list bool) i k :
  index mask i = Some false -> 0 <= i < k ->
  masked_below (<[Z.to_nat i := true]> mask) k = masked_below mask k + 1.
Proof.
  intros Hi Hk. unfold masked_below, len.
  rewrite take_insert_lt by lia.
  rewrite filter_true_insert; [lia|].
  unfold index in Hi. rewrite decide_True in Hi by lia.
  rewrite lookup_take_lt by lia. exact Hi.
Qed.

Lemma masked_below_range (mask : list bool) k :
  0 <= k -> 0 <= masked_below mask k <= k.
Proof.
  intros Hk. unfold masked_below, len.
  pose proof (length_filter (fun b : bool => b = true) (take (Z.to_nat k) mask)) as H1.
  pose proof (length_take_le mask (Z.to_nat k)) as H2.
  rewrite length_take in H1. lia.
Qed.

Lemma masked_below_unmasked (mask : list bool) i k :
  index mask i = Some false -> 0 <= i < k -> masked_below mask k <= k - 1.
Proof.
  intros Hi Hk.
  pose proof (masked_below_insert mask i k Hi Hk) as E.
  pose proof (masked_below_range (<[Z.to_nat i := true]> mask) k ltac:(lia)). lia.
Qed.

Section transform_masks.
Variables (t : Tableau) (m n : Z) (r s : Z).
Hypothesis Hwf : well_formed t m n.
Hypothesis Hr : 0 <= r < m.
Hypothesis Hs : 0 <= s < n.

(** [Transform] as a whole: the masks and labels as slices, the entries
    cell by cell. *)
Lemma Transform_result :
  exists b, Transform t r s = Some b /\
    well_formed b m n /\
    IsMaximization b = IsMaximization t /\
    dirtY b = <[Z.to_nat r := true]> (dirtY t) /\
    dirtX b = <[Z.to_nat s := true]> (dirtX t) /\
    (forall i, index (RowNames b) i =
               if decide (i = r) then index (ColNames t) s else index (RowNames t) i) /\
    (forall j, index (ColNames b) j =
               if decide (j = s) then index (RowNames t) r else index (ColNames t) j) /\
    entry b r s = fr.Div {| fr.N := 1; fr.D := 1 |} (entry t r s) /\
    (forall j, 0 <= j < n -> j <> s ->
       entry b r j = fr.Div (entry t r j) (entry t r s)) /\
    (forall i, 0 <= i < m -> i <> r ->
       entry b i s = fr.Neg (fr.Div (entry t i s) (entry t r s))) /\
    (forall i j, 0 <= i < m -> 0 <= j < n -> i <> r -> j <> s ->
       entry b i j =
       fr.Div (fr.Sub (fr.Mul (entry t i j) (entry t r s))
                      (fr.Mul (entry t i s) (entry t r j)))
              (entry t r s)).
Proof using Hwf Hr Hs.
  destruct (Transform_spec t m n r s Hwf Hr Hs)
    as (b & Eb & Hwfb & Hmax & HdY & HdX & HRN & HCN & Hcell).
  destruct Hwf as (_ & HlY & HlX & _).
  exists b. split; [exact Eb|]. split; [exact Hwfb|]. split; [exact Hmax|].
  split.
  { apply list_eq_index. intros i. rewrite HdY, index_insert by lia. reflexivity. }
  split.
  { apply list_eq_index. intros j. rewrite HdX, index_insert by lia. reflexivity. }
  split; [exact HRN|]. split; [exact HCN|].
  assert (Hentry : forall i j, 0 <= i < m -> 0 <= j < n ->
            entry b i j = _) by (intros i j Hi Hj; exact (entry_cell _ _ _ _ (Hcell i j Hi Hj))).
  split.
  { rewrite Hentry by lia. by rewrite !decide_True. }
  split.
  { intros j Hj Hjs. rewrite Hentry by lia.
    rewrite decide_True by done. by rewrite decide_False. }
  split.
  { intros i Hi Hir. rewrite Hentry by lia.
    rewrite decide_False by done. by rewrite decide_True. }
  intros i j Hi Hj Hir Hjs. rewrite Hentry by lia.
  by rewrite !decide_False.
Qed.

End transform_masks.

(** The zero value on either side of an operation. *)
Lemma zero_value_absorbs_all c :
  fr.Add zero_value c = zero_value /\ fr.Add c zero_value = zero_value /\
  fr.Sub zero_value c = zero_value /\ fr.Sub c zero_value = zero_value /\
  fr.Mul zero_value c = zero_value /\ fr.Mul c zero_value = zero_value /\
  fr.Div zero_value c = zero_value /\ fr.Div c zero_value = zero_value /\
  fr.Neg zero_value = zero_value.
Proof.
  unfold fr.Neg, fr.Add, fr.Sub, fr.Mul, fr.Div, zero_value, GoInt.mul. cbn [fr.N fr.D].
  rewrite !Z.mul_0_l, !Z.mul_0_r.
  change (GoInt.wrap 0) with 0.
  change (GoInt.add 0 0) with 0. change (GoInt.sub 0 0) with 0.
  split_conj; reflexivity.
Qed.

Lemma Transform_zero_entry t m n r s b i j :
  well_formed t m n -> 0 <= r < m -> 0 <= s < n ->
  Transform t r s = Some b ->
  0 <= i < m -> 0 <= j < n ->
  entry t i j = zero_value -> entry b i j = zero_value.
Proof.
  intros Hwf Hr Hs Eb Hi Hj Hz.
  destruct (Transform_result t m n r s Hwf Hr Hs)
    as (b' & Eb' & _ & _ & _ & _ & _ & _ & Hp & Hrow & Hcol & Hrest).
  rewrite Eb in Eb'. injection Eb' as <-.
  destruct (decide (i = r)) as [->|Hir], (decide (j = s)) as [->|Hjs].
  - rewrite Hp, Hz.
    by destruct (zero_value_absorbs_all {| fr.N := 1; fr.D := 1 |})
      as (_ & _ & _ & _ & _ & _ & _ & ? & _).
  - rewrite (Hrow j Hj Hjs), Hz.
    by destruct (zero_value_absorbs_all (entry t r s))
      as (_ & _ & _ & _ & _ & _ & ? & _).
  - rewrite (Hcol i Hi Hir), Hz.
    destruct (zero_value_absorbs_all (entry t r s)) as (_ & _ & _ & _ & _ & _ & -> & _ & ->).
    reflexivity.
  - rewrite (Hrest i j Hi Hj Hir Hjs), Hz.
    destruct (zero_value_absorbs_all (entry t r s)) as (_ & _ & _ & _ & -> & _ & E & _).
    destruct (zero_value_absorbs_all (fr.Mul (entry t i s) (entry t r j)))
      as (_ & _ & -> & _).
    exact E.
Qed.

(** ** The two pivoting loops *)

Lemma Pivot_returns t m n :
  well_formed t m n -> 1 <= m -> 1 <= n ->
  exists r s, Pivot t = Some (r, s) /\
    ((r = -1 /\ s = -1) \/
     (0 <= r < m - 1 /\ 0 <= s < n - 1 /\ unmasked_row t r /\ unmasked_col t s /\
      0 < fr.N (entry t r s) /\ improving t (objective t s))).
Proof.
  intros Hwf Hm Hn. unfold Pivot.
  destruct (Pivot_io_cases t m n Hwf Hm Hn)
    as (s0 & _ & [[_ ->]|(Hs0 & Hu & Hi & r & _ & [(_ & _ & ->)|(Hr & [Hur Hpos] & ->)])]).
  - exists (-1), (-1). split; [reflexivity|]. by left.
  - exists (-1), (-1). split; [reflexivity|]. by left.
  - exists r, s0. split; [reflexivity|]. right. split_conj; first [assumption|lia].
Qed.

Lemma simplex_loop_unfold fuel iteration st :
  main.simplex_loop fuel iteration st =
  (optimal ← IsOptimal st;
   if (optimal : bool)
   then Some ("Optimal solution reached!"%string, iteration, st) else
   '(r, s) ← Pivot st;
   if negb (IsPivotValid r s)
   then Some ("No valid pivot found. Solution may be unbounded."%string, iteration, st)
   else
   b ← Transform st r s;
   if iteration + 1 >? 100
   then Some ("Warning: Maximum iterations reached. Process stopped."%string,
              iteration + 1, Copy b)
   else
   match fuel with
   | O => None
   | S fuel' => main.simplex_loop fuel' (iteration + 1) (Copy b)
   end).
Proof. destruct fuel; reflexivity. Qed.

Section loops_run.
Variables (m n : Z).
Hypothesis Hm : 1 <= m.
Hypothesis Hn : 1 <= n.
(** A property of the counter and the tableau that every pivot of the loop
    carries from one iteration to the next. *)
Variable I : Z -> Tableau -> Prop.
Hypothesis Hstep :
  forall k t r s b, I k t -> well_formed t m n ->
    0 <= r < m - 1 -> 0 <= s < n - 1 -> unmasked_row t r -> unmasked_col t s ->
    Transform t r s = Some b -> I (k + 1) b.

Lemma feasibility_loop_runs (fuel : nat) :
  forall iteration t,
    well_formed t m n -> I iteration t -> 21 - iteration <= Z.of_nat fuel ->
    exists ok t' k, feasibility_loop fuel iteration t = Some (ok, t') /\
      well_formed t' m n /\ I k t' /\ iteration <= k /\
      ((ok = true /\ IsFeasible t' = Some true)
       \/ (ok = false /\ IsFeasible t' = Some false /\
           exists r s, PivotForFeasibility t' = Some (r, s) /\ IsPivotValid r s = false)
       \/ (ok = false /\ 20 < k)).
Proof using Hm Hn Hstep.
  induction fuel as [|fuel IH]; intros iteration t Hwf HI Hfuel.
  all: rewrite feasibility_loop_unfold.
  all: destruct (IsFeasible_spec t m n Hwf Hm Hn) as (feasible & Efeas & _).
  all: rewrite Efeas; cbn.
  all: destruct feasible;
         [exists true, t, iteration; split_conj; try done; first [lia | by left]|].
  all: destruct (PivotForFeasibility_spec t m n Hwf Hm Hn) as (r & s & Epff & Hpff).
  all: rewrite Epff; cbn.
  all: destruct (IsPivotValid r s) eqn:Evalid; cbn;
         [|exists false, t, iteration; split_conj; try done; try lia;
           right; left; split_conj; try done; by exists r, s].
  all: apply andb_prop in Evalid as [Hr0%Z.leb_le Hs0%Z.leb_le].
  all: assert (Hin : 0 <= r < m - 1 /\ 0 <= s < n - 1 /\
                     unmasked_row t r /\ unmasked_col t s)
         by (destruct Hpff as [(-> & _)|(? & ? & _ & _ & [[-> _]|(? & ? & _)])];
             [lia | lia | done]).
  all: destruct Hin as (Hr & Hs & Hur & Hus).
  all: destruct (Transform_spec t m n r s Hwf ltac:(lia) ltac:(lia))
         as (b & Eb & Hwfb & _).
  all: pose proof (Hstep iteration t r s b HI Hwf Hr Hs Hur Hus Eb) as HIb.
  all: rewrite Eb; cbn.
  all: rewrite Z.gtb_ltb.
  all: destruct (Z.ltb_spec 20 (iteration + 1));
         [exists false, b, (iteration + 1); split_conj; try done; try lia; right; right;
          by split|].
  - lia.
  - destruct (IH (iteration + 1) b Hwfb HIb ltac:(lia))
      as (ok & t' & k & E & Hwf' & HI' & Hk & Hcases).
    exists ok, t', k. split_conj; try done. lia.
Qed.

Lemma simplex_loop_runs (fuel : nat) :
  forall iteration st,
    well_formed st m n -> I iteration st -> 101 - iteration <= Z.of_nat fuel ->
    exists msg k st', main.simplex_loop fuel iteration st = Some (msg, k, st') /\
      well_formed st' m n /\ I k st' /\ iteration <= k /\
      ((msg = "Optimal solution reached!"%string /\ IsOptimal st' = Some true)
       \/ (msg = "No valid pivot found. Solution may be unbounded."%string /\
           IsOptimal st' = Some false /\ Pivot st' = Some (-1, -1))
       \/ (msg = "Warning: Maximum iterations reached. Process stopped."%string /\
           100 < k)).
Proof using Hm Hn Hstep.
  induction fuel as [|fuel IH]; intros iteration st Hwf HI Hfuel.
  all: rewrite simplex_loop_unfold.
  all: destruct (IsOptimal_spec st m n Hwf Hm Hn) as (optimal & Eopt & _).
  all: rewrite Eopt; cbn.
  all: destruct optimal;
         [eexists _, iteration, st; split; [reflexivity|]; split_conj; try done;
          first [lia | by left]|].
  all: destruct (Pivot_returns st m n Hwf Hm Hn) as (r & s & Ep & Hp).
  all: rewrite Ep; cbn.
  all: destruct Hp as [[-> ->]|(Hr & Hs & Hur & Hus & _)];
         [cbn; eexists _, iteration, st; split; [reflexivity|]; split_conj; try done;
          first [lia | right; left; by split_conj]|].
  all: replace (IsPivotValid r s) with true
         by (symmetry; apply andb_true_intro; split; apply Z.leb_le; lia).
  all: cbn.
  all: destruct (Transform_spec st m n r s Hwf ltac:(lia) ltac:(lia))
         as (b & Eb & Hwfb & _).
  all: pose proof (Hstep iteration st r s b HI Hwf Hr Hs Hur Hus Eb) as HIb.
  all: rewrite Eb; cbn. all: rewrite Copy_id.
  all: rewrite Z.gtb_ltb.
  all: destruct (Z.ltb_spec 100 (iteration + 1));
         [eexists _, (iteration + 1), b; split; [reflexivity|]; split_conj; try done;
          first [lia | right; right; by split]|].
  - lia.
  - destruct (IH (iteration + 1) b Hwfb HIb ltac:(lia))
      as (msg & k & st' & E & Hwf' & HI' & Hk & Hcases).
    exists msg, k, st'. split_conj; try done. lia.
Qed.

End loops_run.

(** ** What the loops keep: masks, sense and the number of pivots *)

Lemma Transform_masks_count t m n r s b :
  well_formed t m n -> 0 <= r < m - 1 -> 0 <= s < n - 1 ->
  unmasked_row t r -> unmasked_col t s ->
  Transform t r s = Some b ->
  masked_below (dirtY b) (m - 1) = masked_below (dirtY t) (m - 1) + 1 /\
  masked_below (dirtX b) (n - 1) = masked_below (dirtX t) (n - 1) + 1.
Proof.
  intros Hwf Hr Hs Hur Hus Eb.
  destruct (Transform_result t m n r s Hwf ltac:(lia) ltac:(lia))
    as (b' & Eb' & _ & _ & EY & EX & _).
  rewrite Eb in Eb'. injection Eb' as <-. rewrite EY, EX.
  split; by apply masked_below_insert.
Qed.

Lemma pivots_counted_step m n sense k t r s b :
  pivots_counted m n sense k t -> well_formed t m n ->
  0 <= r < m - 1 -> 0 <= s < n - 1 -> unmasked_row t r -> unmasked_col t s ->
  Transform t r s = Some b -> pivots_counted m n sense (k + 1) b.
Proof.
  intros (HY & HX & Hsense) Hwf Hr Hs Hur Hus Eb.
  destruct (Transform_masks_count t m n r s b Hwf Hr Hs Hur Hus Eb) as [EY EX].
  destruct (Transform_result t m n r s Hwf ltac:(lia) ltac:(lia))
    as (b' & Eb' & _ & Hmax & _).
  rewrite Eb in Eb'. injection Eb' as <-.
  unfold pivots_counted. rewrite EY, EX, Hmax. split_conj; [lia | lia | exact Hsense].
Qed.

Lemma pivots_counted_start m n t :
  1 <= m -> 1 <= n -> pivots_counted m n (IsMaximization t) 1 t.
Proof.
  intros Hm Hn. unfold pivots_counted.
  pose proof (masked_below_range (dirtY t) (m - 1) ltac:(lia)).
  pose proof (masked_below_range (dirtX t) (n - 1) ltac:(lia)).
  split_conj; [lia | lia | reflexivity].
Qed.

Lemma pivots_counted_bound m n sense k t :
  1 <= m -> 1 <= n -> pivots_counted m n sense k t -> k <= m /\ k <= n.
Proof.
  intros Hm Hn (HY & HX & _).
  pose proof (masked_below_range (dirtY t) (m - 1) ltac:(lia)).
  pose proof (masked_below_range (dirtX t) (n - 1) ltac:(lia)).
  lia.
Qed.

(** [MakeFeasible] in full. *)
Lemma MakeFeasible_summary t m n :
  well_formed t m n -> 1 <= m -> 1 <= n ->
  exists ok t' k, MakeFeasible t = Some (ok, t') /\
    well_formed t' m n /\ IsMaximization t' = IsMaximization t /\
    1 <= k /\ k <= m /\ k <= n /\
    ((ok = true /\ IsFeasible t' = Some true)
     \/ (ok = false /\ IsFeasible t' = Some false /\
         exists r s, PivotForFeasibility t' = Some (r, s) /\ IsPivotValid r s = false)
     \/ (ok = false /\ 20 < k)).
Proof.
  intros Hwf Hm Hn. unfold MakeFeasible.
  destruct (feasibility_loop_runs m n Hm Hn (pivots_counted m n (IsMaximization t))
              (pivots_counted_step m n (IsMaximization t)) 20 1 t Hwf
              (pivots_counted_start m n t Hm Hn) ltac:(lia))
    as (ok & t' & k & E & Hwf' & HI & Hk & Hcases).
  destruct (pivots_counted_bound m n _ k t' Hm Hn HI) as [Hkm Hkn].
  exists ok, t', k. split; [exact E|]. split; [exact Hwf'|].
  split; [by destruct HI as (_ & _ & ?)|].
  split; [exact Hk|]. split; [exact Hkm|]. split; [exact Hkn|]. exact Hcases.
Qed.

(** The optimization loop of [main] in full. *)
Lemma simplex_loop_summary st m n :
  well_formed st m n -> 1 <= m -> 1 <= n ->
  exists msg k st', main.simplex_loop 100 1 st = Some (msg, k, st') /\
    well_formed st' m n /\ IsMaximization st' = IsMaximization st /\
    1 <= k /\ k <= m /\ k <= n /\
    ((msg = "Optimal solution reached!"%string /\ IsOptimal st' = Some true)
     \/ (msg = "No valid pivot found. Solution may be unbounded."%string /\
         IsOptimal st' = Some false /\ Pivot st' = Some (-1, -1))
     \/ (msg = "Warning: Maximum iterations reached. Process stopped."%string /\
         100 < k)).
Proof.
  intros Hwf Hm Hn.
  destruct (simplex_loop_runs m n Hm Hn (pivots_counted m n (IsMaximization st))
              (pivots_counted_step m n (IsMaximization st)) 100 1 st Hwf
              (pivots_counted_start m n st Hm Hn) ltac:(lia))
    as (msg & k & st' & E & Hwf' & HI & Hk & Hcases).
  destruct (pivots_counted_bound m n _ k st' Hm Hn HI) as [Hkm Hkn].
  exists msg, k, st'. split; [exact E|]. split; [exact Hwf'|].
  split; [by destruct HI as (_ & _ & ?)|].
  split; [exact Hk|]. split; [exact Hkm|]. split; [exact Hkn|]. exact Hcases.
Qed.

(** ** The key "objective" of the solution *)

Lemma GetSolution_objective t m n :
  well_formed t m n -> 1 <= m -> 1 <= n ->
  (forall i, 0 <= i < m - 1 -> index (RowNames t) i <> Some "objective"%string) ->
  exists sol, GetSolution t = Some sol /\
    sol !! "objective"%string = Some (entry t (m - 1) (n - 1)).
Proof.
  intros Hwf Hm Hn Hreserved.
  pose proof Hwf as (Hd & HlY & HlX & HlR & HlC).
  unfold GetSolution.
  destruct (wf_row0 t m n Hwf Hm) as (row0 & -> & Hrow0). cbn.
  rewrite Hrow0, (wf_len_Table t m n Hwf).
  rewrite (wf_cell t m n (m - 1) (n - 1) Hwf) by lia. cbn.
  set (obj := entry t (m - 1) (n - 1)).
  pose (I1 := fun (_ : Z) (sol : gmap string fr.Fraction) =>
    sol !! "objective"%string = Some obj).
  destruct (for_loop_inv I1 0 (m - 1)
    (fun i solution =>
       for_loop 0 (n - 1)
         (fun j solution =>
            index (RowNames t) i ≫= fun varName =>
            cell (Table t) i (n - 1) ≫= fun v =>
            Some (<[varName := v]> solution)) solution)
    (<["objective"%string := obj]> ∅)) as (sol1 & -> & Hobj1).
  { lia. }
  { apply lookup_insert_eq. }
  { intros k sol Hk Hobj.
    destruct (for_loop_inv I1 0 (n - 1)
      (fun j solution =>
         index (RowNames t) k ≫= fun varName =>
         cell (Table t) k (n - 1) ≫= fun v =>
         Some (<[varName := v]> solution)) sol) as (sol' & -> & Hobj').
    { lia. }
    { exact Hobj. }
    { intros j sol0 Hj Hobj0.
      destruct (index_is_Some (RowNames t) k ltac:(lia)) as [name Hname].
      rewrite Hname. cbn.
      rewrite (wf_cell t m n k (n - 1) Hwf) by lia. cbn.
      eexists. split; [reflexivity|]. unfold I1.
      rewrite lookup_insert_ne; [exact Hobj0|].
      intros ->. by apply (Hreserved k Hk). }
    by exists sol'. }
  cbn.
  destruct (for_loop_inv I1 0 (n - 1)
    (fun j solution =>
       index (ColNames t) j ≫= fun varName =>
       match solution !! varName with
       | Some _ => Some solution
       | None => Some (<[varName := {| fr.N := 0; fr.D := 1 |}]> solution)
       end) sol1) as (sol2 & -> & Hobj2).
  { lia. }
  { exact Hobj1. }
  { intros j sol0 Hj Hobj0.
    destruct (index_is_Some (ColNames t) j ltac:(lia)) as [name Hname].
    rewrite Hname. cbn.
    destruct (sol0 !! name) eqn:Ename.
    - by exists sol0.
    - eexists. split; [reflexivity|]. unfold I1.
      rewrite lookup_insert_ne; [exact Hobj0|].
      intros ->. rewrite Hobj0 in Ename. discriminate. }
  by exists sol2.
Qed.

(** ** Assembling the tableau from a parsed problem *)

Section sorted_variables.
Import parser.

Lemma string_leb_trans a : forall b c,
  String.leb a b = true -> String.leb b c = true -> String.leb a c = true.
Proof.
  unfold String.leb.
  induction a as [|c1 a IH]; intros [|c2 b] [|c3 c]; cbn [String.compare];
    try done.
  unfold Ascii.compare.
  destruct (N.compare_spec (Ascii.N_of_ascii c1) (Ascii.N_of_ascii c2)) as [E12|L12|G12];
    destruct (N.compare_spec (Ascii.N_of_ascii c2) (Ascii.N_of_ascii c3)) as [E23|L23|G23];
    destruct (N.compare_spec (Ascii.N_of_ascii c1) (Ascii.N_of_ascii c3)) as [E13|L13|G13];
    try done; try (exfalso; lia).
  apply IH.
Qed.

#[local] Instance string_le_trans : Transitive string_le.
Proof. intros a b c. apply string_leb_trans. Qed.

#[local] Instance string_le_total : Total string_le.
Proof. intros a b. apply String.leb_total. Qed.

#[local] Instance string_le_antisym : AntiSymm eq string_le.
Proof. intros a b. apply String.leb_antisym. Qed.

(** The slice of decision variables holds every key of [p.Variables] once,
    in ascending order; whatever order the map is walked in, sorting gives
    this slice. *)
Lemma decisionVars_spec p :
  NoDup (decisionVars p) /\
  StronglySorted string_le (decisionVars p) /\
  (forall v, v ∈ decisionVars p <-> is_Some (Variables p !! v)) /\
  (forall keys, keys ≡ₚ (map_to_list (Variables p)).*1 ->
     sort_Strings keys = decisionVars p).
Proof.
  unfold decisionVars, sort_Strings.
  pose proof (merge_sort_Permutation string_le ((map_to_list (Variables p)).*1)) as HP.
  split_conj.
  - rewrite HP. apply NoDup_fst_map_to_list.
  - apply StronglySorted_merge_sort; apply _.
  - intros v. rewrite HP. rewrite list_elem_of_fmap. split.
    + intros ([v' x] & -> & Hin). apply elem_of_map_to_list in Hin. by exists x.
    + intros [x Hx]. exists (v, x). split; [reflexivity|]. by apply elem_of_map_to_list.
  - intros keys Hkeys.
    apply (StronglySorted_unique string_le).
    + apply StronglySorted_merge_sort; apply _.
    + apply StronglySorted_merge_sort; apply _.
    + by rewrite !merge_sort_Permutation.
Qed.

End sorted_variables.

Section assembly.
Import parser.

Lemma index_NoDup {A} (l : list A) a b x :
  NoDup l -> index l a = Some x -> index l b = Some x -> a = b.
Proof.
  intros Hnd Ha Hb.
  pose proof (index_range _ _ _ Ha). pose proof (index_range _ _ _ Hb).
  unfold index in Ha, Hb.
  rewrite decide_True in Ha by lia. rewrite decide_True in Hb by lia.
  pose proof (NoDup_lookup _ _ _ _ Hnd Ha Hb). lia.
Qed.

Lemma index_None {A} (l : list A) i : ~ 0 <= i < len l -> index l i = None.
Proof.
  intros Hi. destruct (index l i) eqn:E; [|reflexivity].
  destruct Hi. by apply index_range in E.
Qed.

Lemma take_index_snoc {A} (l : list A) k x :
  index l k = Some x ->
  take (Z.to_nat (k + 1)) l = take (Z.to_nat k) l ++ [x].
Proof.
  intros Hk. pose proof (index_range _ _ _ Hk).
  unfold index in Hk. rewrite decide_True in Hk by lia.
  replace (Z.to_nat (k + 1)) with (S (Z.to_nat k)) by lia.
  by apply take_S_r.
Qed.

Lemma take_len {A} (l : list A) : take (Z.to_nat (len l)) l = l.
Proof. unfold len. rewrite Nat2Z.id. apply firstn_all. Qed.

Lemma assign_column_spec vars name i value T m n :
  dims T m n -> 0 <= i < m -> len vars < n -> NoDup vars ->
  exists T', assign_column vars name i value T = Some T' /\ dims T' m n /\
    forall i' j', cell T' i' j' =
      if decide (i' = i /\ index vars j' = Some name) then Some value
      else cell T i' j'.
Proof.
  intros Hd Hi Hlen Hnd. unfold assign_column.
  match goal with |- context [for_break 0 _ ?b T] => set (body := b) end.
  assert (Hbody : forall j T0, body j T0 =
    index vars j ≫= fun v =>
    if decide (v = name)
    then set_cell T0 i j value ≫= fun T' => Some (T', true)
    else Some (T0, false)) by reflexivity.
  clearbody body.
  assert (G : forall count lo T0,
    0 <= lo -> lo + Z.of_nat count = len vars ->
    (forall j, 0 <= j < lo -> index vars j <> Some name) -> dims T0 m n ->
    exists T', for_break lo count body T0 = Some T' /\ dims T' m n /\
      forall i' j', cell T' i' j' =
        if decide (i' = i /\ index vars j' = Some name) then Some value
        else cell T0 i' j').
  { induction count as [|count IH]; intros lo T0 Hlo Hsum Hbefore Hd0.
    - exists T0. split; [reflexivity|]. split; [exact Hd0|].
      intros i' j'. rewrite decide_False; [reflexivity|].
      intros [_ Hj]. pose proof (index_range _ _ _ Hj).
      apply (Hbefore j'); [lia | exact Hj].
    - cbn [for_break]. rewrite Hbody.
      destruct (index_is_Some vars lo ltac:(lia)) as [v Hv]. rewrite Hv. cbn.
      destruct (decide (v = name)) as [->|Hne].
      + destruct (set_cell_spec T0 m n i lo value Hd0 Hi ltac:(lia))
          as (T' & -> & Hd' & HT'). cbn.
        exists T'. split; [reflexivity|]. split; [exact Hd'|].
        intros i' j'. rewrite HT'.
        destruct (decide (i' = i /\ j' = lo)) as [[-> ->]|Hn1].
        * by rewrite decide_True.
        * rewrite decide_False; [reflexivity|].
          intros [-> Hj]. apply Hn1. split; [reflexivity|].
          exact (index_NoDup vars j' lo name Hnd Hj Hv).
      + cbn.
        destruct (IH (lo + 1) T0) as (T' & E & Hd' & HT'); [lia | lia | | exact Hd0 |].
        { intros j Hj. destruct (decide (j = lo)) as [->|Hjl].
          - rewrite Hv. congruence.
          - apply Hbefore. lia. }
        exists T'. by split_conj. }
  apply (G (length vars) 0 T); [lia | unfold len; lia | intros j Hj; lia | exact Hd].
Qed.

Section constraint_row.
Variables (vars : list string) (m n : Z).
Hypothesis Hlen : len vars = n - 1.
Hypothesis Hnd : NoDup vars.

Lemma var_index j : 0 <= j < n -> j <> n - 1 -> is_Some (index vars j).
Proof using Hlen. intros Hj Hne. apply index_is_Some. lia. Qed.

Lemma var_index_last : index vars (n - 1) = None.
Proof using Hlen. apply index_None. lia. Qed.

Lemma var_index_range j v : index vars j = Some v -> 0 <= j < n - 1.
Proof using Hlen. intros Hj. apply index_range in Hj. lia. Qed.

Lemma constraint_row_spec i c T :
  dims T m n -> 0 <= i < m -> 1 <= n ->
  (forall j, 0 <= j < n -> cell T i j = Some zero_value) ->
  exists T', constraint_row vars n i c T = Some T' /\ dims T' m n /\
    forall i' j', cell T' i' j' =
      if decide (i' = i /\ 0 <= j' < n) then Some (constraint_cell vars c j')
      else cell T i' j'.
Proof using Hlen Hnd.
  intros Hd Hi Hn Hzero. unfold constraint_row.
  destruct (set_cell_spec T m n i (n - 1) (RHS c) Hd Hi ltac:(lia))
    as (T1 & -> & Hd1 & HT1). cbn.
  (* the value of column j' after the first k terms *)
  pose (base := fun (k : Z) (j' : Z) =>
    match index vars j' with
    | Some v => assigned Coefficient (take (Z.to_nat k) (LHS c)) v zero_value
    | None => constants_moved (take (Z.to_nat k) (LHS c)) (RHS c)
    end).
  pose (I1 := fun (k : Z) (T' : list (list fr.Fraction)) =>
    dims T' m n /\
    forall i' j', cell T' i' j' =
      if decide (i' = i /\ 0 <= j' < n) then Some (base k j') else cell T i' j').
  destruct (for_loop_inv I1 0 (len (LHS c))
    (fun k T =>
       index (LHS c) k ≫= fun term =>
       if decide (Variable_ term <> ""%string)
       then assign_column vars (Variable_ term) i (Coefficient term) T
       else
         cell T i (n - 1) ≫= fun x =>
         set_cell T i (n - 1) (fr.Sub x (Coefficient term))) T1)
    as (T2 & -> & Hd2 & HT2).
  { unfold len. lia. }
  { split; [exact Hd1|]. intros i' j'. rewrite HT1. unfold base. cbn [take Z.to_nat].
    destruct (decide (i' = i /\ j' = n - 1)) as [[-> ->]|Hn1].
    - rewrite decide_True by lia. by rewrite var_index_last.
    - destruct (decide (i' = i /\ 0 <= j' < n)) as [[-> Hj']|Hn2]; [|reflexivity].
      destruct (var_index j' Hj' ltac:(lia)) as [v ->]. cbn. by apply Hzero. }
  { intros k T' Hk [HdT HT].
    destruct (index_is_Some (LHS c) k Hk) as [term Hterm]. rewrite Hterm. cbn.
    assert (Hbase : forall j', base (k + 1) j' =
      match index vars j' with
      | Some v => if decide (Variable_ term <> ""%string /\ Variable_ term = v)
                  then Coefficient term else base k j'
      | None => if decide (Variable_ term <> ""%string) then base k j'
                else fr.Sub (base k j') (Coefficient term)
      end).
    { intros j'. unfold base. rewrite (take_index_snoc _ _ _ Hterm).
      unfold assigned, constants_moved.
      destruct (index vars j'); by rewrite foldl_snoc. }
    destruct (decide (Variable_ term <> ""%string)) as [Hvar|Hconst].
    - destruct (assign_column_spec vars (Variable_ term) i (Coefficient term) T' m n
                  HdT Hi ltac:(lia) Hnd) as (T'' & -> & HdT' & HT').
      exists T''. split; [reflexivity|]. split; [exact HdT'|].
      intros i' j'. rewrite HT', HT, Hbase.
      destruct (decide (i' = i /\ index vars j' = Some (Variable_ term))) as [[-> Hj]|Hn1].
      + pose proof (var_index_range _ _ Hj).
        rewrite decide_True by lia. rewrite Hj. by rewrite decide_True.
      + destruct (decide (i' = i /\ 0 <= j' < n)) as [[-> Hj']|Hn2]; [|reflexivity].
        destruct (index vars j') as [v|] eqn:Ev.
        * rewrite decide_False; [reflexivity|]. intros [_ <-]. by apply Hn1.
        * reflexivity.
    - rewrite (HT i (n - 1)). rewrite decide_True by lia. cbn.
      destruct (set_cell_spec T' m n i (n - 1)
                  (fr.Sub (base k (n - 1)) (Coefficient term)) HdT Hi ltac:(lia))
        as (T'' & -> & HdT' & HT').
      exists T''. split; [reflexivity|]. split; [exact HdT'|].
      intros i' j'. rewrite HT', HT, Hbase.
      destruct (decide (i' = i /\ j' = n - 1)) as [[-> ->]|Hn1].
      + rewrite decide_True by lia. by rewrite var_index_last.
      + destruct (decide (i' = i /\ 0 <= j' < n)) as [[-> Hj']|Hn2]; [|reflexivity].
        destruct (var_index j' Hj' ltac:(lia)) as [v ->].
        rewrite decide_False; [reflexivity|]. by intros [? _]. }
  cbn.
  assert (Hfinal : forall j', base (len (LHS c)) j' =
    match index vars j' with
    | Some v => assigned Coefficient (LHS c) v zero_value
    | None => constants_moved (LHS c) (RHS c)
    end) by (intros j'; unfold base; by rewrite take_len).
  unfold constraint_cell, oriented.
  destruct (decide (Relation c = ">="%string)) as [Hge|Hle].
  - pose (I2 := fun (j : Z) (T' : list (list fr.Fraction)) =>
      dims T' m n /\
      forall i' j', cell T' i' j' =
        if decide (i' = i /\ 0 <= j' < j)
        then Some (fr.Neg (base (len (LHS c)) j')) else cell T2 i' j').
    destruct (for_loop_inv I2 0 n
      (fun j T => cell T i j ≫= fun x => set_cell T i j (fr.Neg x)) T2)
      as (T3 & -> & Hd3 & HT3).
    { lia. }
    { split; [exact Hd2|]. intros i' j'. by rewrite decide_False by lia. }
    { intros j T' Hj [HdT HT].
      rewrite (HT i j). rewrite decide_False by lia.
      rewrite (HT2 i j). rewrite decide_True by lia. cbn.
      destruct (set_cell_spec T' m n i j (fr.Neg (base (len (LHS c)) j)) HdT Hi Hj)
        as (T'' & -> & HdT' & HT').
      exists T''. split; [reflexivity|]. split; [exact HdT'|].
      intros i' j'. rewrite HT', HT.
      destruct (decide (i' = i /\ j' = j)) as [[-> ->]|Hn1].
      - by rewrite decide_True by lia.
      - destruct (decide (i' = i /\ 0 <= j' < j)), (decide (i' = i /\ 0 <= j' < j + 1));
          try reflexivity; lia. }
    exists T3. split; [reflexivity|]. split; [exact Hd3|].
    intros i' j'. rewrite HT3.
    destruct (decide (i' = i /\ 0 <= j' < n)) as [[-> Hj']|Hn2].
    + by rewrite Hfinal.
    + rewrite HT2. by rewrite decide_False.
  - exists T2. split; [reflexivity|]. split; [exact Hd2|].
    intros i' j'. rewrite HT2.
    destruct (decide (i' = i /\ 0 <= j' < n)); [by rewrite Hfinal | reflexivity].
Qed.


Lemma objective_row_spec isMax obj T :
  dims T m n -> 1 <= m -> 1 <= n ->
  (forall j, 0 <= j < n -> cell T (m - 1) j = Some zero_value) ->
  exists T',
    for_loop 0 (len (LHS obj))
      (fun k T =>
         index (LHS obj) k ≫= fun term =>
         objective_term vars isMax (m - 1) n term T) T = Some T' /\
    dims T' m n /\
    forall i' j', cell T' i' j' =
      if decide (i' = m - 1 /\ 0 <= j' < n)
      then Some (objective_cell vars isMax obj j') else cell T i' j'.
Proof using Hlen Hnd.
  intros Hd Hm Hn Hzero.
  pose (value := fun term : Term =>
    if isMax then fr.Neg (Coefficient term) else Coefficient term).
  pose (base := fun (k : Z) (j' : Z) =>
    match index vars j' with
    | Some v => assigned value (take (Z.to_nat k) (LHS obj)) v zero_value
    | None => zero_value
    end).
  pose (I1 := fun (k : Z) (T' : list (list fr.Fraction)) =>
    dims T' m n /\
    forall i' j', cell T' i' j' =
      if decide (i' = m - 1 /\ 0 <= j' < n) then Some (base k j') else cell T i' j').
  destruct (for_loop_inv I1 0 (len (LHS obj))
    (fun k T =>
       index (LHS obj) k ≫= fun term =>
       objective_term vars isMax (m - 1) n term T) T)
    as (T2 & E2 & Hd2 & HT2).
  { unfold len. lia. }
  { split; [exact Hd|]. intros i' j'. unfold base. cbn [take Z.to_nat].
    destruct (decide (i' = m - 1 /\ 0 <= j' < n)) as [[-> Hj']|Hn2]; [|reflexivity].
    rewrite (Hzero j' Hj'). by destruct (index vars j'). }
  { intros k T' Hk [HdT HT].
    destruct (index_is_Some (LHS obj) k Hk) as [term Hterm]. rewrite Hterm. cbn.
    assert (Hbase : forall j', base (k + 1) j' =
      match index vars j' with
      | Some v => if decide (Variable_ term <> ""%string /\ Variable_ term = v)
                  then value term else base k j'
      | None => zero_value
      end).
    { intros j'. unfold base. rewrite (take_index_snoc _ _ _ Hterm).
      unfold assigned. destruct (index vars j'); [by rewrite foldl_snoc | reflexivity]. }
    unfold objective_term.
    destruct (decide (Variable_ term <> ""%string)) as [Hvar|Hconst].
    - destruct (assign_column_spec vars (Variable_ term) (m - 1) (value term) T' m n
                  HdT ltac:(lia) ltac:(lia) Hnd) as (T'' & E'' & HdT' & HT').
      unfold value in E'' at 1. rewrite E''.
      exists T''. split; [reflexivity|]. split; [exact HdT'|].
      intros i' j'. rewrite HT', HT, Hbase.
      destruct (decide (i' = m - 1 /\ index vars j' = Some (Variable_ term)))
        as [[-> Hj]|Hn1].
      + pose proof (var_index_range _ _ Hj).
        rewrite decide_True by lia. rewrite Hj. by rewrite decide_True.
      + destruct (decide (i' = m - 1 /\ 0 <= j' < n)) as [[-> Hj']|Hn2]; [|reflexivity].
        destruct (index vars j') as [v|] eqn:Ev; [|unfold base; by rewrite Ev].
        rewrite decide_False; [reflexivity|]. intros [_ <-]. by apply Hn1.
    - rewrite (HT (m - 1) (n - 1)). rewrite decide_True by lia. cbn.
      assert (Ez : base k (n - 1) = zero_value) by (unfold base; by rewrite var_index_last).
      rewrite Ez.
      assert (Eabs : (if isMax then fr.Add zero_value (Coefficient term)
                      else fr.Sub zero_value (Coefficient term)) = zero_value).
      { destruct (zero_value_absorbs_all (Coefficient term)) as (EA & _ & ES & _).
        by destruct isMax. }
      rewrite Eabs.
      destruct (set_cell_spec T' m n (m - 1) (n - 1) zero_value HdT
                  ltac:(lia) ltac:(lia)) as (T'' & -> & HdT' & HT').
      exists T''. split; [reflexivity|]. split; [exact HdT'|].
      intros i' j'. rewrite HT', HT, Hbase.
      destruct (decide (i' = m - 1 /\ j' = n - 1)) as [[-> ->]|Hn1].
      + rewrite decide_True by lia. by rewrite var_index_last.
      + destruct (decide (i' = m - 1 /\ 0 <= j' < n)) as [[-> Hj']|Hn2]; [|reflexivity].
        destruct (var_index j' Hj' ltac:(lia)) as [v ->].
        rewrite decide_False; [reflexivity|]. by intros [? _]. }
  exists T2. split; [exact E2|]. split; [exact Hd2|].
  intros i' j'. rewrite HT2.
  destruct (decide (i' = m - 1 /\ 0 <= j' < n)); [|reflexivity].
  unfold base, objective_cell. by rewrite take_len.
Qed.

End constraint_row.

(** [ConvertToTableau] in full: it returns, whatever the problem holds, and
    the tableau has one row per constraint and the objective row, one column
    per decision variable and the right-hand side. *)
Lemma ConvertToTableau_spec p :
  let vars := decisionVars p in
  let m := len (Constraints p) + 1 in
  let n := len vars + 1 in
  exists t, ConvertToTableau p = Some t /\
    well_formed t m n /\
    tb.IsMaximization t = IsMaximization p /\
    (forall i, 0 <= i < m -> index (dirtY t) i = Some false) /\
    (forall j, 0 <= j < n -> index (dirtX t) j = Some false) /\
    (forall i, 0 <= i < m - 1 ->
       index (RowNames t) i = Some ("s" +:+ sprint_d (i + 1))) /\
    index (RowNames t) (m - 1) = Some "F"%string /\
    (forall j v, index vars j = Some v -> index (ColNames t) j = Some ("-" +:+ v)) /\
    index (ColNames t) (n - 1) = Some "const"%string /\
    (forall i c j, index (Constraints p) i = Some c -> 0 <= j < n ->
       cell (Table t) i j = Some (constraint_cell vars c j)) /\
    (forall j, 0 <= j < n ->
       cell (Table t) (m - 1) j
       = Some (objective_cell vars (IsMaximization p) (ObjectiveFunction p) j)).
Proof.
  intros vars m n.
  assert (Hm : 1 <= m) by (unfold m, len; lia).
  assert (Hn : 1 <= n) by (unfold n, len; lia).
  assert (Hlen : len vars = n - 1) by (unfold n; lia).
  assert (Hnd : NoDup vars) by apply decisionVars_spec.
  unfold ConvertToTableau. fold vars. fold m. fold n.
  destruct (Init_spec m n Hm Hn)
    as (t0 & -> & Hwf0 & Hcell0 & HdY0 & HdX0 & _ & _ & _ & _ & _).
  destruct Hwf0 as (Hd0 & HlY0 & HlX0 & HlR0 & HlC0).
  cbn.
  (* the column labels *)
  destruct (store_loop (fun i => "-" +:+ default ""%string (index vars i))
              (fun i names => index vars i ≫= fun v => store names i ("-" +:+ v))
              (ColNames t0) (len vars))
    as (cn & -> & Hlcn & Hcn & _).
  { intros i l' Hi. destruct (index_is_Some vars i Hi) as [v ->]. reflexivity. }
  { lia. }
  cbn.
  assert (Ecn : store cn (n - 1) "const"%string
                = Some (<[Z.to_nat (n - 1) := "const"%string]> cn))
    by (apply store_in_range; lia).
  rewrite Ecn. cbn.
  (* the row labels *)
  destruct (store_loop (fun i => "s" +:+ sprint_d (i + 1))
              (fun i names => store names i ("s" +:+ sprint_d (i + 1)))
              (RowNames t0) (len (Constraints p)))
    as (rn & -> & Hlrn & Hrn & _).
  { done. }
  { unfold m in HlR0. unfold len in *. lia. }
  cbn.
  assert (Ern : store rn (m - 1) "F"%string
                = Some (<[Z.to_nat (m - 1) := "F"%string]> rn))
    by (apply store_in_range; lia).
  rewrite Ern. cbn.
  (* the constraint rows *)
  pose (I1 := fun (i : Z) (T : list (list fr.Fraction)) =>
    dims T m n /\
    forall i' j', 0 <= i' < m -> 0 <= j' < n ->
      cell T i' j' =
      Some (if decide (i' < i)
            then match index (Constraints p) i' with
                 | Some c => constraint_cell vars c j'
                 | None => zero_value
                 end
            else zero_value)).
  destruct (for_loop_inv I1 0 (len (Constraints p))
    (fun i T =>
       index (Constraints p) i ≫= fun constraint =>
       constraint_row vars n i constraint T) (Table t0))
    as (T1 & -> & Hd1 & HT1).
  { unfold len. lia. }
  { split; [exact Hd0|]. intros i' j' Hi' Hj'. rewrite decide_False by lia.
    by apply Hcell0. }
  { intros i T Hi [HdT HT].
    destruct (index_is_Some (Constraints p) i Hi) as [c Hc]. rewrite Hc. cbn.
    destruct (constraint_row_spec vars m n Hlen Hnd i c T HdT ltac:(unfold m; lia) Hn)
      as (T' & -> & HdT' & HT').
    { intros j Hj. rewrite HT by (unfold m; lia). by rewrite decide_False by lia. }
    exists T'. split; [reflexivity|]. split; [exact HdT'|].
    intros i' j' Hi' Hj'. rewrite HT'.
    destruct (decide (i' = i /\ 0 <= j' < n)) as [[-> _]|Hne].
    - rewrite decide_True by lia. by rewrite Hc.
    - rewrite HT by done.
      destruct (decide (i' < i)), (decide (i' < i + 1)); try reflexivity; lia. }
  cbn.
  (* the objective row *)
  destruct (objective_row_spec vars m n Hlen Hnd (IsMaximization p)
              (ObjectiveFunction p) T1 Hd1 Hm Hn)
    as (T2 & E2 & Hd2 & HT2).
  { intros j Hj. rewrite HT1 by lia. by rewrite decide_False by (unfold m; lia). }
  replace (len (Constraints p) + 1 - 1) with (m - 1) by (unfold m; lia).
  rewrite E2. cbn.
  eexists. split; [reflexivity|]. cbn.
  split.
  { unfold well_formed. cbn. split; [exact Hd2|].
    rewrite (store_len _ _ _ _ Ern), (store_len _ _ _ _ Ecn). lia. }
  split; [reflexivity|].
  split; [exact HdY0|]. split; [exact HdX0|].
  split.
  { intros i Hi. rewrite (index_store _ _ _ _ i Ern).
    rewrite decide_False by lia. apply Hrn. unfold m in Hi. lia. }
  split; [rewrite (index_store _ _ _ _ _ Ern); by rewrite decide_True|].
  split.
  { intros j v Hj. pose proof (index_range _ _ _ Hj).
    rewrite (index_store _ _ _ _ j Ecn). rewrite decide_False by lia.
    rewrite Hcn by lia. by rewrite Hj. }
  split; [rewrite (index_store _ _ _ _ _ Ecn); by rewrite decide_True|].
  split.
  { intros i c j Hc Hj. pose proof (index_range _ _ _ Hc).
    rewrite HT2. rewrite decide_False by (unfold m; lia).
    rewrite HT1 by (unfold m; lia). rewrite decide_True by lia. by rewrite Hc. }
  intros j Hj. rewrite HT2. by rewrite decide_True by lia.
Qed.

End assembly.

(** ** A run of [main] *)

Lemma GetSolution_returns t m n :
  well_formed t m n -> 1 <= m -> 1 <= n -> is_Some (GetSolution t).
Proof.
  intros Hwf Hm Hn.
  pose proof Hwf as (Hd & HlY & HlX & HlR & HlC).
  unfold GetSolution.
  destruct (wf_row0 t m n Hwf Hm) as (row0 & -> & Hrow0). cbn.
  rewrite Hrow0, (wf_len_Table t m n Hwf).
  rewrite (wf_cell t m n (m - 1) (n - 1) Hwf) by lia. cbn.
  pose (I1 := fun (_ : Z) (_ : gmap string fr.Fraction) => True).
  destruct (for_loop_inv I1 0 (m - 1)
    (fun i solution =>
       for_loop 0 (n - 1)
         (fun j solution =>
            index (RowNames t) i ≫= fun varName =>
            cell (Table t) i (n - 1) ≫= fun v =>
            Some (<[varName := v]> solution)) solution)
    (<["objective"%string := entry t (m - 1) (n - 1)]> ∅)) as (sol1 & -> & _).
  { lia. }
  { exact Logic.I. }
  { intros k sol Hk _.
    destruct (for_loop_inv I1 0 (n - 1)
      (fun j solution =>
         index (RowNames t) k ≫= fun varName =>
         cell (Table t) k (n - 1) ≫= fun v =>
         Some (<[varName := v]> solution)) sol) as (sol' & -> & _).
    { lia. }
    { exact Logic.I. }
    { intros j sol0 Hj _.
      destruct (index_is_Some (RowNames t) k ltac:(lia)) as [name ->]. cbn.
      rewrite (wf_cell t m n k (n - 1) Hwf) by lia. cbn. by eexists. }
    by exists sol'. }
  cbn.
  destruct (for_loop_inv I1 0 (n - 1)
    (fun j solution =>
       index (ColNames t) j ≫= fun varName =>
       match solution !! varName with
       | Some _ => Some solution
       | None => Some (<[varName := {| fr.N := 0; fr.D := 1 |}]> solution)
       end) sol1) as (sol2 & -> & _).
  { lia. }
  { exact Logic.I. }
  { intros j sol0 Hj _.
    destruct (index_is_Some (ColNames t) j ltac:(lia)) as [name ->]. cbn.
    destruct (sol0 !! name); by eexists. }
  by exists sol2.
Qed.

Lemma bind_Some {A B} (x : A) (f : A -> option B) : Some x ≫= f = f x.
Proof. reflexivity. Qed.

(** [solve] returns on every well-formed tableau; it leaves early if and
    only if the tableau is infeasible and [MakeFeasible] fails. *)
Lemma solve_returns st isMax m n :
  well_formed st m n -> 1 <= m -> 1 <= n ->
  exists res, main.solve st isMax = Some res /\
    (res = None <->
     IsFeasible st = Some false /\ exists t', MakeFeasible st = Some (false, t')) /\
    (forall o, res = Some o ->
       well_formed (main.final o) m n /\
       IsMaximization (main.final o) = IsMaximization st /\
       GetSolution (main.final o) = Some (main.solution o) /\
       ((main.message o = "Optimal solution reached!"%string /\
         IsOptimal (main.final o) = Some true)
        \/ (main.message o = "No valid pivot found. Solution may be unbounded."%string /\
            IsOptimal (main.final o) = Some false /\
            Pivot (main.final o) = Some (-1, -1))
        \/ (main.message o
            = "Warning: Maximum iterations reached. Process stopped."%string /\
            100 < m /\ 100 < n))).
Proof.
  intros Hwf Hm Hn. unfold main.solve.
  destruct (IsFeasible_spec st m n Hwf Hm Hn) as (feasible & Efeas & _).
  rewrite Efeas, bind_Some.
  assert (Hmf : exists ok st1,
    (if feasible then Some (true, st) else MakeFeasible st) = Some (ok, st1) /\
    well_formed st1 m n /\ IsMaximization st1 = IsMaximization st /\
    (ok = false -> feasible = false)).
  { destruct feasible.
    - by exists true, st.
    - destruct (MakeFeasible_summary st m n Hwf Hm Hn)
        as (ok & t' & k & E & Hwf' & Hsense & _).
      by exists ok, t'. }
  destruct Hmf as (ok & st1 & Emf & Hwf1 & Hsense1 & Hok).
  rewrite Emf, bind_Some. cbv beta iota.
  destruct ok; cbv beta iota delta [negb].
  - destruct (simplex_loop_summary st1 m n Hwf1 Hm Hn)
      as (msg & k & st2 & E2 & Hwf2 & Hsense2 & Hk1 & Hkm & Hkn & Hcases).
    rewrite E2, bind_Some. cbv beta iota.
    destruct (GetSolution_returns st2 m n Hwf2 Hm Hn) as [sol Esol].
    rewrite Esol, bind_Some.
    eexists. split; [reflexivity|]. split.
    { split; [intros Hres; discriminate Hres|].
      intros [Hinf (t' & Et')]. exfalso.
      injection Hinf as ->.
      rewrite Et' in Emf. discriminate Emf. }
    intros o [= <-]. cbn.
    split; [exact Hwf2|]. split; [congruence|]. split; [exact Esol|].
    destruct Hcases as [H|[H|[-> H]]]; [by left | by right; left |].
    right; right. split; [reflexivity | lia].
  - exists None. split; [reflexivity|]. split; [|intros o Ho; discriminate Ho].
    rewrite (Hok eq_refl) in Emf |- *.
    split; [intros _|reflexivity]. split; [reflexivity|]. by exists st1.
Qed.

Section objective_lost.
Import parser.

Lemma lost_step m n (k : Z) t r s b :
  main.objective_lost m n t -> well_formed t m n ->
  0 <= r < m - 1 -> 0 <= s < n - 1 -> unmasked_row t r -> unmasked_col t s ->
  Transform t r s = Some b -> main.objective_lost m n b.
Proof.
  intros (Hz & HR & HC) Hwf Hr Hs _ _ Eb.
  destruct (Transform_result t m n r s Hwf ltac:(lia) ltac:(lia))
    as (b' & Eb' & _ & _ & _ & _ & HRN & HCN & _).
  rewrite Eb in Eb'. injection Eb' as <-.
  split; [|split].
  - apply (Transform_zero_entry t m n r s b); (assumption || lia).
  - intros i. rewrite HRN. destruct (decide (i = r)); [apply HC | apply HR].
  - intros j. rewrite HCN. destruct (decide (j = s)); [apply HR | apply HC].
Qed.

Lemma lost_after_assembly p t :
  ConvertToTableau p = Some t ->
  well_formed t (len (Constraints p) + 1) (len (decisionVars p) + 1) /\
  tb.IsMaximization t = IsMaximization p /\
  main.objective_lost (len (Constraints p) + 1) (len (decisionVars p) + 1) t.
Proof.
  intros Et.
  destruct (ConvertToTableau_spec p)
    as (t' & Et' & Hwf & Hsense & _ & _ & HRN & HF & HCN & Hconst & _ & Hobj).
  rewrite Et in Et'. injection Et' as <-.
  split; [exact Hwf|]. split; [exact Hsense|].
  set (m := len (Constraints p) + 1) in *.
  set (n := len (decisionVars p) + 1) in *.
  assert (Hm : 1 <= m) by (unfold m, len; lia).
  assert (Hn : 1 <= n) by (unfold n, len; lia).
  destruct Hwf as (_ & _ & _ & HlR & HlC).
  split; [|split].
  - apply entry_cell. rewrite Hobj by lia. unfold objective_cell.
    rewrite index_None; [reflexivity|]. unfold n. lia.
  - intros i Hi. pose proof (index_range _ _ _ Hi) as Hr. rewrite HlR in Hr.
    destruct (decide (i = m - 1)) as [->|Hne].
    + rewrite HF in Hi. discriminate.
    + rewrite HRN in Hi by lia. discriminate.
  - intros j Hj. pose proof (index_range _ _ _ Hj) as Hr. rewrite HlC in Hr.
    destruct (decide (j = n - 1)) as [->|Hne].
    + rewrite Hconst in Hj. discriminate.
    + destruct (index_is_Some (decisionVars p) j) as [v Hv]; [unfold n in *; lia|].
      rewrite (HCN j v Hv) in Hj. discriminate.
Qed.

Lemma run_objective p :
  exists res, main.run p = Some res /\
    forall o, res = Some o ->
      main.solution o !! "objective"%string = Some zero_value /\
      main.objectiveValue o = zero_value.
Proof.
  unfold main.run.
  destruct (ConvertToTableau_spec p) as (st & Est & _).
  rewrite Est, bind_Some.
  destruct (lost_after_assembly p st Est) as (Hwf & Hsense & Hlost).
  set (m := len (Constraints p) + 1) in *.
  set (n := len (decisionVars p) + 1) in *.
  assert (Hm : 1 <= m) by (unfold m, len; lia).
  assert (Hn : 1 <= n) by (unfold n, len; lia).
  unfold main.solve.
  destruct (IsFeasible_spec st m n Hwf Hm Hn) as (feasible & Efeas & _).
  rewrite Efeas, bind_Some.
  assert (Hmf : exists ok st1,
    (if feasible then Some (true, st) else MakeFeasible st) = Some (ok, st1) /\
    well_formed st1 m n /\ main.objective_lost m n st1).
  { destruct feasible.
    - by exists true, st.
    - destruct (feasibility_loop_runs m n Hm Hn (fun _ => main.objective_lost m n)
                  (lost_step m n) 20 1 st Hwf Hlost ltac:(lia))
        as (ok & t' & k & E & Hwf' & Hl' & _).
      by exists ok, t'. }
  destruct Hmf as (ok & st1 & Emf & Hwf1 & Hlost1).
  rewrite Emf, bind_Some. cbv beta iota.
  destruct ok; cbv beta iota delta [negb];
    [|exists None; split; [reflexivity | discriminate]].
  destruct (simplex_loop_runs m n Hm Hn (fun _ => main.objective_lost m n)
              (lost_step m n) 100 1 st1 Hwf1 Hlost1 ltac:(lia))
    as (msg & k & st2 & E2 & Hwf2 & (Hz & HR & HC) & _).
  rewrite E2, bind_Some. cbv beta iota.
  destruct (GetSolution_objective st2 m n Hwf2 Hm Hn (fun i _ => HR i))
    as (sol & Esol & Hobj).
  rewrite Esol, bind_Some.
  eexists. split; [reflexivity|].
  intros o [= <-]. cbn. rewrite Hobj, Hz. cbn. split; [reflexivity|].
  destruct (IsMaximization p); [reflexivity|].
  by destruct (zero_value_absorbs_all zero_value) as (_ & _ & _ & _ & _ & _ & _ & _ & ?).
Qed.

End objective_lost.

(** ** Pivoting twice on the same cell *)

Lemma Qval_nonzero f : 0 < fr.D f -> fr.N f <> 0 -> ~ (fr.Qval f == 0)%Q.
Proof.
  intros HD HN HQ. rewrite (Qval_pos f HD) in HQ.
  unfold Qeq in HQ. cbn in HQ. lia.
Qed.

Section transform_values.
Variables (t : Tableau) (m n : Z) (r s : Z) (b : Tableau).
Hypothesis Hwf : well_formed t m n.
Hypothesis Hr : 0 <= r < m.
Hypothesis Hs : 0 <= s < n.
Hypothesis Hnz : fr.N (entry t r s) <> 0.
Hypothesis Hsmall : small_entries t (2 ^ 12).
Hypothesis Eb : Transform t r s = Some b.

(** The exact values of the entries of the transformed tableau. *)
Lemma Transform_values :
  (fr.Qval (entry b r s) == 1 / fr.Qval (entry t r s))%Q /\
  (forall j, 0 <= j < n -> j <> s ->
     (fr.Qval (entry b r j) == fr.Qval (entry t r j) / fr.Qval (entry t r s))%Q) /\
  (forall i, 0 <= i < m -> i <> r ->
     (fr.Qval (entry b i s) == - (fr.Qval (entry t i s) / fr.Qval (entry t r s)))%Q) /\
  (forall i j, 0 <= i < m -> 0 <= j < n -> i <> r -> j <> s ->
     (fr.Qval (entry b i j)
      == (fr.Qval (entry t i j) * fr.Qval (entry t r s)
          - fr.Qval (entry t i s) * fr.Qval (entry t r j))
         / fr.Qval (entry t r s))%Q).
Proof using Hwf Hr Hs Hnz Hsmall Eb.
  destruct (Transform_result t m n r s Hwf Hr Hs)
    as (b' & Eb' & _ & _ & _ & _ & _ & _ & Hp & Hrow & Hcol & Hrest).
  rewrite Eb in Eb'. injection Eb' as <-.
  assert (Hb : forall i j, 0 <= i < m -> 0 <= j < n ->
            fr.bounded (2 ^ 12) (2 ^ 12) (entry t i j)).
  { intros i j Hi Hj. exact (Hsmall i j _ (wf_cell t m n i j Hwf Hi Hj)). }
  assert (Hpb : fr.bounded (2 ^ 12) (2 ^ 12) (entry t r s)) by (by apply Hb).
  split.
  { rewrite Hp.
    by destruct (exchange_exact (entry t r s) (entry t r s) (entry t r s) _
                   Hpb Hpb Hpb Hpb Hnz) as (? & _). }
  split.
  { intros j Hj Hjs. rewrite (Hrow j Hj Hjs).
    by destruct (exchange_exact (entry t r j) (entry t r s) (entry t r s) _
                   (Hb r j Hr Hj) Hpb Hpb Hpb Hnz) as (_ & ? & _). }
  split.
  { intros i Hi Hir. rewrite (Hcol i Hi Hir).
    by destruct (exchange_exact (entry t i s) (entry t r s) (entry t r s) _
                   (Hb i s Hi Hs) Hpb Hpb Hpb Hnz) as (_ & _ & ? & _). }
  intros i j Hi Hj Hir Hjs. rewrite (Hrest i j Hi Hj Hir Hjs).
  by destruct (exchange_exact (entry t i j) (entry t i s) (entry t r j) _
                 (Hb i j Hi Hj) (Hb i s Hi Hs) (Hb r j Hr Hj) Hpb Hnz)
    as (_ & _ & _ & ?).
Qed.

End transform_values.

Lemma Transform_twice t m n r s b :
  well_formed t m n -> 0 <= r < m -> 0 <= s < n ->
  fr.N (entry t r s) <> 0 ->
  small_entries t (2 ^ 12) ->
  Transform t r s = Some b ->
  small_entries b (2 ^ 12) ->
  exists c, Transform b r s = Some c /\
    well_formed c m n /\
    RowNames c = RowNames t /\ ColNames c = ColNames t /\
    dirtY c = dirtY b /\ dirtX c = dirtX b /\
    IsMaximization c = IsMaximization t /\
    forall i j, 0 <= i < m -> 0 <= j < n ->
      (fr.Qval (entry c i j) == fr.Qval (entry t i j))%Q.
Proof.
  intros Hwf Hr Hs Hnz Hsmall Eb Hsmallb.
  destruct (Transform_result t m n r s Hwf Hr Hs)
    as (b' & Eb' & Hwfb & Hsense & EY & EX & HRN & HCN & _).
  rewrite Eb in Eb'. injection Eb' as <-.
  destruct (Transform_values t m n r s b Hwf Hr Hs Hnz Hsmall Eb)
    as (Vp & Vrow & Vcol & Vrest).
  assert (Hpos : 0 < fr.D (entry t r s)).
  { by destruct (Hsmall r s _ (wf_cell t m n r s Hwf Hr Hs)) as (_ & ? & _). }
  assert (Hposb : 0 < fr.D (entry b r s)).
  { by destruct (Hsmallb r s _ (wf_cell b m n r s Hwfb Hr Hs)) as (_ & ? & _). }
  pose proof (Qval_nonzero _ Hpos Hnz) as Hpq.
  assert (Hnzb : fr.N (entry b r s) <> 0).
  { intros Hz. assert (Hq : (fr.Qval (entry b r s) == 0)%Q).
    { unfold fr.Qval. rewrite Hz. unfold Qdiv. apply Qmult_0_l. }
    rewrite Vp in Hq. apply Hpq.
    apply (Qmult_inj_r _ _ (/ fr.Qval (entry t r s))).
    - intros Hi. apply Hpq. rewrite <- (Qinv_involutive (fr.Qval (entry t r s))).
      rewrite Hi. reflexivity.
    - rewrite Qmult_inv_r by exact Hpq. rewrite Qmult_0_l.
      unfold Qdiv in Hq. rewrite Qmult_1_l in Hq.
      exfalso. apply Hpq. rewrite <- (Qinv_involutive (fr.Qval (entry t r s))).
      rewrite Hq. reflexivity. }
  destruct (Transform_result b m n r s Hwfb Hr Hs)
    as (c & Ec & Hwfc & Hsensec & EYc & EXc & HRNc & HCNc & _).
  destruct (Transform_values b m n r s c Hwfb Hr Hs Hnzb Hsmallb Ec)
    as (Wp & Wrow & Wcol & Wrest).
  exists c. split; [exact Ec|]. split; [exact Hwfc|].
  split.
  { apply list_eq_index. intros i. rewrite HRNc.
    destruct (decide (i = r)) as [->|Hir].
    - rewrite HCN. by rewrite decide_True.
    - rewrite HRN. by rewrite decide_False. }
  split.
  { apply list_eq_index. intros j. rewrite HCNc.
    destruct (decide (j = s)) as [->|Hjs].
    - rewrite HRN. by rewrite decide_True.
    - rewrite HCN. by rewrite decide_False. }
  split; [rewrite EYc, EY; apply list_insert_insert_eq|].
  split; [rewrite EXc, EX; apply list_insert_insert_eq|].
  split; [congruence|].
  intros i j Hi Hj.
  destruct (decide (i = r)) as [->|Hir], (decide (j = s)) as [->|Hjs].
  - rewrite Wp, Vp. field. exact Hpq.
  - rewrite (Wrow j Hj Hjs), Vp, (Vrow j Hj Hjs). field. exact Hpq.
  - rewrite (Wcol i Hi Hir), Vp, (Vcol i Hi Hir). field. exact Hpq.
  - rewrite (Wrest i j Hi Hj Hir Hjs), Vp, (Vrest i j Hi Hj Hir Hjs),
      (Vcol i Hi Hir), (Vrow j Hj Hjs).
    field. exact Hpq.
Qed.

(** * Further properties: fractions, pivoting, the solver loop and assembly *)

(** ** Package fraction *)

(** X9: [reverse] exchanges the numerator and the denominator: the three
    exclusive-or assignments leave the old denominator in [N] and the old
    numerator in [D], for every pair of integers. *)
Theorem reverse_swaps n : fr.reverse n = {| fr.N := fr.D n; fr.D := fr.N n |}.
Proof.
  unfold fr.reverse, GoInt.xor. cbn [fr.N fr.D].
  rewrite (lxor_cancel (fr.N n) (fr.D n)).
  rewrite (Z.lxor_comm (fr.N n) (fr.D n)).
  by rewrite (lxor_cancel (fr.D n) (fr.N n)).
Qed.

(** X10: the zero value 0/0 absorbs: [Add], [Sub], [Mul] and [Div] return
    0/0 as soon as one operand is 0/0, whatever the other operand is, and
    [Neg] of 0/0 is 0/0.  Nothing panics. *)
Theorem zero_value_is_absorbing c :
  fr.Add zero_value c = zero_value /\ fr.Add c zero_value = zero_value /\
  fr.Sub zero_value c = zero_value /\ fr.Sub c zero_value = zero_value /\
  fr.Mul zero_value c = zero_value /\ fr.Mul c zero_value = zero_value /\
  fr.Div zero_value c = zero_value /\ fr.Div c zero_value = zero_value /\
  fr.Neg zero_value = zero_value.
Proof. apply zero_value_absorbs_all. Qed.

(** X11: dividing by a fraction whose numerator is zero does not panic: [Div]
    returns the product of the dividend's numerator and the divisor's
    denominator (wrapped to 64 bits) over the denominator 0. *)
Theorem Div_by_zero_numerator a d :
  fr.Div a {| fr.N := 0; fr.D := d |}
  = {| fr.N := GoInt.mul (fr.N a) d; fr.D := 0 |}.
Proof.
  unfold fr.Div. cbn [fr.N fr.D].
  replace (GoInt.mul (fr.D a) 0) with 0
    by (unfold GoInt.mul; by rewrite Z.mul_0_r).
  apply Simplify_zero_denominator, wrap_in_range.
Qed.

(** X12: [Simplify] is canonical on fractions with a non-zero numerator: two
    fractions [a] and [b] with non-zero denominators, no component equal to
    the minimum integer, and the same value ([a.N * b.D = b.N * a.D]) are
    reduced to the same numerator and denominator. *)
Theorem Simplify_canonical a b :
  fr.N a <> 0 -> fr.D a <> 0 -> fr.D b <> 0 ->
  Z.abs (fr.N a) <= GoInt.max_int -> Z.abs (fr.D a) <= GoInt.max_int ->
  Z.abs (fr.N b) <= GoInt.max_int -> Z.abs (fr.D b) <= GoInt.max_int ->
  fr.N a * fr.D b = fr.N b * fr.D a ->
  fr.Simplify a = fr.Simplify b.
Proof. apply Simplify_eq. Qed.

Lemma Simplify_canonical_witness :
  (6 <> 0 /\ -4 <> 0 /\ 2 <> 0 /\
   Z.abs 6 <= GoInt.max_int /\ Z.abs (-4) <= GoInt.max_int /\
   Z.abs (-3) <= GoInt.max_int /\ Z.abs 2 <= GoInt.max_int /\
   6 * 2 = -3 * -4) /\
  fr.Simplify (Examples.frac 6 (-4)) = fr.Simplify (Examples.frac (-3) 2).
Proof.
  split; [split_conj; vm_compute; congruence|].
  apply (Simplify_canonical (Examples.frac 6 (-4)) (Examples.frac (-3) 2));
    vm_compute; congruence.
Defined.

(** X13: [Simplify] is idempotent: on a fraction with a non-zero denominator
    and no component equal to the minimum integer, simplifying the result
    again changes nothing. *)
Theorem Simplify_idempotent f :
  fr.D f <> 0 -> Z.abs (fr.N f) <= GoInt.max_int -> Z.abs (fr.D f) <= GoInt.max_int ->
  fr.Simplify (fr.Simplify f) = fr.Simplify f.
Proof. apply Simplify_idem. Qed.

Lemma Simplify_idempotent_witness :
  (-4 <> 0 /\ Z.abs 6 <= GoInt.max_int /\ Z.abs (-4) <= GoInt.max_int) /\
  fr.Simplify (fr.Simplify (Examples.frac 6 (-4))) = fr.Simplify (Examples.frac 6 (-4)).
Proof.
  split; [split_conj; vm_compute; congruence|].
  apply (Simplify_idempotent (Examples.frac 6 (-4))); vm_compute; congruence.
Defined.

(** X14: the operations undo each other.  For operands with positive
    denominators, numerators and denominators at most [2^20] in absolute
    value and a non-zero numerator of [a]: subtracting [b] after adding it
    gives [a] in lowest terms, and so does, when [b]'s numerator is not zero,
    multiplying by [b] after dividing by it and dividing by [b] after
    multiplying by it. *)
Theorem fraction_round_trips a b :
  fr.bounded (2 ^ 20) (2 ^ 20) a -> fr.bounded (2 ^ 20) (2 ^ 20) b ->
  fr.N a <> 0 ->
  fr.Sub (fr.Add a b) b = fr.Simplify a /\
  (fr.N b <> 0 ->
   fr.Mul (fr.Div a b) b = fr.Simplify a /\ fr.Div (fr.Mul a b) b = fr.Simplify a).
Proof.
  intros Ha Hb Hna. split; [by apply Sub_Add_cancel|].
  intros Hnb. split; [by apply Mul_Div_cancel | by apply Div_Mul_cancel].
Qed.

Lemma fraction_round_trips_witness :
  (fr.bounded (2 ^ 20) (2 ^ 20) (Examples.frac 1 2) /\
   fr.bounded (2 ^ 20) (2 ^ 20) (Examples.frac (-1) 3) /\ 1 <> 0) /\
  fr.Sub (fr.Add (Examples.frac 1 2) (Examples.frac (-1) 3)) (Examples.frac (-1) 3)
  = Examples.frac 1 2 /\
  fr.Mul (fr.Div (Examples.frac 1 2) (Examples.frac (-1) 3)) (Examples.frac (-1) 3)
  = Examples.frac 1 2.
Proof.
  assert (H1 : fr.bounded (2 ^ 20) (2 ^ 20) (Examples.frac 1 2))
    by (unfold fr.bounded; cbn; lia).
  assert (H2 : fr.bounded (2 ^ 20) (2 ^ 20) (Examples.frac (-1) 3))
    by (unfold fr.bounded; cbn; lia).
  split; [split_conj; (assumption || lia)|].
  destruct (fraction_round_trips _ _ H1 H2 ltac:(cbn; lia)) as [E1 E2].
  destruct (E2 ltac:(cbn; lia)) as [E3 _].
  split; [rewrite E1 | rewrite E3]; vm_compute; reflexivity.
Defined.

(** X15: negating twice gives the fraction in lowest terms: for a fraction
    with no component equal to the minimum integer (zero denominators
    included), [Neg (Neg a)] is [Simplify a]. *)
Theorem Neg_involution a :
  Z.abs (fr.N a) <= GoInt.max_int -> Z.abs (fr.D a) <= GoInt.max_int ->
  fr.Neg (fr.Neg a) = fr.Simplify a.
Proof. apply Neg_Neg. Qed.

Lemma Neg_involution_witness :
  (Z.abs 3 <= GoInt.max_int /\ Z.abs (-6) <= GoInt.max_int) /\
  fr.Neg (fr.Neg (Examples.frac 3 (-6))) = Examples.frac (-1) 2.
Proof.
  split; [split; vm_compute; congruence|].
  rewrite (Neg_involution (Examples.frac 3 (-6))) by (vm_compute; congruence).
  vm_compute. reflexivity.
Defined.

(** ** Package tableau *)

(** X16: a pivot on an unmasked constraint row [r] and an unmasked non-RHS
    column [s] marks exactly these two: the number of masked constraint rows
    and the number of masked non-RHS columns each grow by one, the masks
    become [true] at [r] and [s], and no mask is ever cleared. *)
Theorem Transform_masks_one_more t m n r s :
  well_formed t m n -> 0 <= r < m - 1 -> 0 <= s < n - 1 ->
  unmasked_row t r -> unmasked_col t s ->
  exists b, Transform t r s = Some b /\
    masked_below (dirtY b) (m - 1) = masked_below (dirtY t) (m - 1) + 1 /\
    masked_below (dirtX b) (n - 1) = masked_below (dirtX t) (n - 1) + 1 /\
    index (dirtY b) r = Some true /\ index (dirtX b) s = Some true /\
    (forall i, index (dirtY t) i = Some true -> index (dirtY b) i = Some true) /\
    (forall j, index (dirtX t) j = Some true -> index (dirtX b) j = Some true).
Proof.
  intros Hwf Hr Hs Hur Hus.
  destruct (Transform_spec t m n r s Hwf ltac:(lia) ltac:(lia))
    as (b & Eb & _ & _ & HdY & HdX & _).
  destruct (Transform_masks_count t m n r s b Hwf Hr Hs Hur Hus Eb) as [EY EX].
  exists b. split; [exact Eb|]. split; [exact EY|]. split; [exact EX|].
  split; [rewrite HdY; by rewrite decide_True|].
  split; [rewrite HdX; by rewrite decide_True|].
  split.
  - intros i Hi. rewrite HdY. by case_decide.
  - intros j Hj. rewrite HdX. by case_decide.
Qed.

Lemma Transform_masks_one_more_witness :
  (well_formed Examples.lp_two_constraints 3 3 /\ 0 <= 1 < 3 - 1 /\ 0 <= 1 < 3 - 1 /\
   unmasked_row Examples.lp_two_constraints 1 /\
   unmasked_col Examples.lp_two_constraints 1) /\
  exists b, Transform Examples.lp_two_constraints 1 1 = Some b /\
    masked_below (dirtY b) (3 - 1) = 1 /\ masked_below (dirtX b) (3 - 1) = 1.
Proof.
  assert (Hwf : well_formed Examples.lp_two_constraints 3 3) by solve_wf.
  split; [split_conj; first [exact Hwf | lia | reflexivity]|].
  destruct (Transform_masks_one_more Examples.lp_two_constraints 3 3 1 1 Hwf
              ltac:(lia) ltac:(lia) eq_refl eq_refl) as (b & Eb & EY & EX & _).
  exists b. split; [exact Eb|]. rewrite EY, EX. split; reflexivity.
Defined.

(** X17: an entry that is the zero value 0/0 stays 0/0 under every pivot:
    for any in-range pivot cell, [Transform] returns a tableau of the same
    dimensions whose cell holds 0/0 wherever the cell of the given tableau
    did, the pivot row, the pivot column and the pivot cell included. *)
Theorem Transform_keeps_zero_value t m n r s :
  well_formed t m n -> 0 <= r < m -> 0 <= s < n ->
  exists b, Transform t r s = Some b /\
    well_formed b m n /\
    forall i j, cell (Table t) i j = Some zero_value ->
                cell (Table b) i j = Some zero_value.
Proof.
  intros Hwf Hr Hs.
  destruct (Transform_spec t m n r s Hwf Hr Hs) as (b & Eb & Hwfb & _).
  exists b. split; [exact Eb|]. split; [exact Hwfb|].
  intros i j Hc.
  destruct Hwf as (Hd & Hrest). destruct (cell_range _ _ _ _ _ _ Hd Hc) as [Hi Hj].
  rewrite (wf_cell b m n i j Hwfb Hi Hj). f_equal.
  apply (Transform_zero_entry t m n r s b); try assumption.
  - by split.
  - by apply entry_cell.
Qed.

Lemma Transform_keeps_zero_value_witness :
  (well_formed Examples.lp_two_constraints_unset 3 3 /\ 0 <= 1 < 3 /\ 0 <= 1 < 3) /\
  cell (Table Examples.lp_two_constraints_unset) 2 2 = Some zero_value /\
  exists b, Transform Examples.lp_two_constraints_unset 1 1 = Some b /\
            well_formed b 3 3 /\
            cell (Table b) 2 2 = Some zero_value.
Proof.
  assert (Hwf : well_formed Examples.lp_two_constraints_unset 3 3) by solve_wf.
  split; [split_conj; first [exact Hwf | lia]|]. split; [reflexivity|].
  destruct (Transform_keeps_zero_value Examples.lp_two_constraints_unset 3 3 1 1 Hwf
              ltac:(lia) ltac:(lia)) as (b & Eb & Hwfb & Hz).
  exists b. split; [exact Eb|]. split; [exact Hwfb|]. apply Hz. reflexivity.
Defined.

(** X18: pivoting twice on the same cell restores the tableau up to the
    masks.  When the pivot entry has a non-zero numerator and the entries of
    the tableau and of its transform have positive denominators and stay below
    [2^12], the second [Transform] returns a tableau with the row and column
    labels of the first one, the masks of the intermediate one, and entries
    that have exactly the original rational values. *)
Theorem Transform_twice_restores t m n r s b :
  well_formed t m n -> 0 <= r < m -> 0 <= s < n ->
  fr.N (entry t r s) <> 0 ->
  small_entries t (2 ^ 12) ->
  Transform t r s = Some b ->
  small_entries b (2 ^ 12) ->
  exists c, Transform b r s = Some c /\
    well_formed c m n /\
    RowNames c = RowNames t /\ ColNames c = ColNames t /\
    dirtY c = dirtY b /\ dirtX c = dirtX b /\
    IsMaximization c = IsMaximization t /\
    forall i j, 0 <= i < m -> 0 <= j < n ->
      (fr.Qval (entry c i j) == fr.Qval (entry t i j))%Q.
Proof. apply Transform_twice. Qed.

Lemma Transform_twice_restores_witness :
  (well_formed Examples.lp_two_constraints 3 3 /\ 0 <= 1 < 3 /\ 0 <= 1 < 3 /\
   fr.N (entry Examples.lp_two_constraints 1 1) <> 0 /\
   small_entries Examples.lp_two_constraints (2 ^ 12) /\
   Transform Examples.lp_two_constraints 1 1 = Some Examples.lp_two_constraints_pivoted /\
   small_entries Examples.lp_two_constraints_pivoted (2 ^ 12)) /\
  exists c, Transform Examples.lp_two_constraints_pivoted 1 1 = Some c /\
    RowNames c = RowNames Examples.lp_two_constraints /\
    (fr.Qval (entry c 0 0) == fr.Qval (entry Examples.lp_two_constraints 0 0))%Q.
Proof.
  assert (Hwf : well_formed Examples.lp_two_constraints 3 3) by solve_wf.
  assert (Hnz : fr.N (entry Examples.lp_two_constraints 1 1) <> 0)
    by (vm_compute; discriminate).
  assert (Hsm : small_entries Examples.lp_two_constraints (2 ^ 12))
    by (apply small_entries_Forall; repeat constructor; cbn; lia).
  assert (Eb : Transform Examples.lp_two_constraints 1 1
               = Some Examples.lp_two_constraints_pivoted)
    by (vm_compute; reflexivity).
  assert (Hsb : small_entries Examples.lp_two_constraints_pivoted (2 ^ 12))
    by (apply small_entries_Forall; repeat constructor; cbn; lia).
  split; [split_conj; first [assumption | lia]|].
  destruct (Transform_twice_restores _ 3 3 1 1 _ Hwf ltac:(lia) ltac:(lia)
              Hnz Hsm Eb Hsb) as (c & Ec & _ & ER & _ & _ & _ & _ & Hq).
  exists c. split; [exact Ec|]. split; [exact ER|]. apply Hq; lia.
Defined.

(** X19: a pivot row and a pivot column are never selected again: after
    [Transform t r s], neither [Pivot] nor [PivotForFeasibility] returns a
    valid pair whose row is [r] or whose column is [s]. *)
Theorem pivot_never_repeats t m n r s :
  well_formed t m n -> 1 <= m -> 1 <= n -> 0 <= r < m -> 0 <= s < n ->
  exists b, Transform t r s = Some b /\
    (forall r' s', Pivot b = Some (r', s') -> 0 <= r' -> 0 <= s' ->
       r' <> r /\ s' <> s) /\
    (forall r' s', PivotForFeasibility b = Some (r', s') -> 0 <= r' -> 0 <= s' ->
       r' <> r /\ s' <> s).
Proof.
  intros Hwf Hm Hn Hr Hs.
  destruct (Transform_spec t m n r s Hwf Hr Hs)
    as (b & Eb & Hwfb & _ & HdY & HdX & _).
  assert (HY : forall r', unmasked_row b r' -> r' <> r).
  { intros r' Hu ->. unfold unmasked_row in Hu. rewrite HdY in Hu.
    rewrite decide_True in Hu by done. discriminate. }
  assert (HX : forall s', unmasked_col b s' -> s' <> s).
  { intros s' Hu ->. unfold unmasked_col in Hu. rewrite HdX in Hu.
    rewrite decide_True in Hu by done. discriminate. }
  exists b. split; [exact Eb|]. split.
  - intros r' s' Ep Hr' Hs'.
    destruct (Pivot_valid_inv b m n Hwfb Hm Hn r' s' Ep Hr' Hs')
      as (_ & _ & Hur & Hus & _).
    split; [by apply HY | by apply HX].
  - intros r' s' Ep Hr' Hs'.
    destruct (PivotForFeasibility_spec b m n Hwfb Hm Hn) as (r0 & s0 & E0 & H0).
    rewrite Ep in E0. injection E0 as <- <-.
    destruct H0 as [(-> & _)|(_ & Hur & _ & _ & [[-> _]|(_ & Hus & _)])]; [lia | lia |].
    split; [by apply HY | by apply HX].
Qed.

Lemma pivot_never_repeats_witness :
  (well_formed Examples.lp_two_constraints 3 3 /\ 1 <= 3 /\ 1 <= 3 /\
   0 <= 1 < 3 /\ 0 <= 1 < 3) /\
  exists b, Transform Examples.lp_two_constraints 1 1 = Some b /\
            Pivot b = Some (0, 0).
Proof.
  assert (Hwf : well_formed Examples.lp_two_constraints 3 3) by solve_wf.
  split; [split_conj; first [exact Hwf | lia]|].
  destruct (pivot_never_repeats Examples.lp_two_constraints 3 3 1 1 Hwf
              ltac:(lia) ltac:(lia) ltac:(lia) ltac:(lia)) as (b & Eb & _).
  exists b. split; [exact Eb|].
  assert (Eb' : Transform Examples.lp_two_constraints 1 1
                = Some Examples.lp_two_constraints_pivoted) by (vm_compute; reflexivity).
  rewrite Eb in Eb'. injection Eb' as ->. vm_compute. reflexivity.
Defined.

(** X20: every valid pair that [Pivot] or [PivotForFeasibility] returns
    passes [isValidCell]: its row and column are unmasked and the numerator
    of its entry is not zero. *)
Theorem selected_pair_is_valid_cell t m n :
  well_formed t m n -> 1 <= m -> 1 <= n ->
  (forall r s, Pivot t = Some (r, s) -> 0 <= r -> 0 <= s ->
     isValidCell t r s = Some true) /\
  (forall r s, PivotForFeasibility t = Some (r, s) -> 0 <= r -> 0 <= s ->
     isValidCell t r s = Some true).
Proof.
  intros Hwf Hm Hn.
  assert (G : forall r s, 0 <= r < m -> 0 <= s < n ->
            unmasked_row t r -> unmasked_col t s -> fr.N (entry t r s) <> 0 ->
            isValidCell t r s = Some true).
  { intros r s Hr Hs Hur Hus Hnz. unfold isValidCell.
    rewrite Hus. cbn. rewrite Hur. cbn.
    rewrite (wf_cell t m n r s Hwf Hr Hs). cbn.
    by rewrite (proj2 (Z.eqb_neq _ _) Hnz). }
  split.
  - intros r s Ep Hr Hs.
    destruct (Pivot_valid_inv t m n Hwf Hm Hn r s Ep Hr Hs)
      as (Hr' & Hs' & Hur & Hus & Hpos & _).
    apply G; (assumption || lia).
  - intros r s Ep Hr Hs.
    destruct (PivotForFeasibility_spec t m n Hwf Hm Hn) as (r0 & s0 & E0 & H0).
    rewrite Ep in E0. injection E0 as <- <-.
    destruct H0 as [(-> & _)|(Hr' & Hur & _ & _ & [[-> _]|(Hs' & Hus & Hneg & _)])];
      [lia | lia |].
    apply G; (assumption || lia).
Qed.

Lemma selected_pair_is_valid_cell_witness :
  (well_formed Examples.lp_two_constraints 3 3 /\ 1 <= 3 /\ 1 <= 3) /\
  Pivot Examples.lp_two_constraints = Some (1, 1) /\
  isValidCell Examples.lp_two_constraints 1 1 = Some true.
Proof.
  assert (Hwf : well_formed Examples.lp_two_constraints 3 3) by solve_wf.
  assert (Ep : Pivot Examples.lp_two_constraints = Some (1, 1))
    by (vm_compute; reflexivity).
  split; [split_conj; first [exact Hwf | lia]|]. split; [exact Ep|].
  destruct (selected_pair_is_valid_cell Examples.lp_two_constraints 3 3 Hwf
              ltac:(lia) ltac:(lia)) as [HP _].
  apply (HP 1 1 Ep); lia.
Defined.

(** X21: with at most 20 rows or at most 20 columns the cap of
    [MakeFeasible] is never what stops it: when it answers [false] the
    tableau left in the receiver still has a negative right-hand side and
    [PivotForFeasibility] returns an invalid pair on it; when it answers
    [true] the tableau is feasible.  The sense is unchanged. *)
Theorem MakeFeasible_false_without_cap t m n :
  well_formed t m n -> 1 <= m -> 1 <= n -> m <= 20 \/ n <= 20 ->
  exists ok t', MakeFeasible t = Some (ok, t') /\
    well_formed t' m n /\ IsMaximization t' = IsMaximization t /\
    (ok = true -> IsFeasible t' = Some true) /\
    (ok = false ->
     IsFeasible t' = Some false /\
     exists r s, PivotForFeasibility t' = Some (r, s) /\ IsPivotValid r s = false).
Proof.
  intros Hwf Hm Hn Hsmall.
  destruct (MakeFeasible_summary t m n Hwf Hm Hn)
    as (ok & t' & k & E & Hwf' & Hsense & Hk & Hkm & Hkn & Hcases).
  exists ok, t'. split; [exact E|]. split; [exact Hwf'|]. split; [exact Hsense|].
  destruct Hcases as [[-> Hf]|[(-> & Hf & Hp)|[_ Hcap]]].
  - split; [done | discriminate].
  - split; [discriminate | done].
  - lia.
Qed.

Lemma MakeFeasible_false_without_cap_witness :
  (well_formed Examples.lp_infeasible_stuck 2 2 /\ 1 <= 2 /\ 1 <= 2 /\
   (2 <= 20 \/ 2 <= 20)) /\
  exists t', MakeFeasible Examples.lp_infeasible_stuck = Some (false, t') /\
    IsFeasible t' = Some false.
Proof.
  assert (Hwf : well_formed Examples.lp_infeasible_stuck 2 2) by solve_wf.
  split; [split_conj; first [exact Hwf | lia | (left; lia)]|].
  destruct (MakeFeasible_false_without_cap Examples.lp_infeasible_stuck 2 2 Hwf
              ltac:(lia) ltac:(lia) ltac:(left; lia))
    as (ok & t' & E & _ & _ & _ & Hfalse).
  assert (E' : MakeFeasible Examples.lp_infeasible_stuck
               = Some (false, Examples.lp_infeasible_stuck))
    by (vm_compute; reflexivity).
  rewrite E' in E. injection E as <- <-.
  exists Examples.lp_infeasible_stuck. split; [exact E'|]. by apply Hfalse.
Defined.

(** ** Package main *)

(** X22: the optimization loop of [main] returns on every well-formed
    tableau, with the dimensions and the sense unchanged, in one of three
    ways: with "Optimal solution reached!" and a tableau [IsOptimal] accepts;
    with "No valid pivot found. Solution may be unbounded." and a tableau
    that [IsOptimal] rejects and on which [Pivot] returns (-1, -1); or with
    the iteration warning, after the counter has passed 100.  A tableau that
    is optimal at the start is returned as it is. *)
Theorem simplex_loop_outcome st m n :
  well_formed st m n -> 1 <= m -> 1 <= n ->
  (exists msg k st', main.simplex_loop 100 1 st = Some (msg, k, st') /\
     well_formed st' m n /\ IsMaximization st' = IsMaximization st /\
     ((msg = "Optimal solution reached!"%string /\ IsOptimal st' = Some true)
      \/ (msg = "No valid pivot found. Solution may be unbounded."%string /\
          IsOptimal st' = Some false /\ Pivot st' = Some (-1, -1))
      \/ (msg = "Warning: Maximum iterations reached. Process stopped."%string /\
          100 < k))) /\
  (IsOptimal st = Some true ->
   main.simplex_loop 100 1 st = Some ("Optimal solution reached!"%string, 1, st)).
Proof.
  intros Hwf Hm Hn. split.
  - destruct (simplex_loop_summary st m n Hwf Hm Hn)
      as (msg & k & st' & E & Hwf' & Hsense & _ & _ & _ & Hcases).
    exists msg, k, st'. by split_conj.
  - intros Hopt. rewrite simplex_loop_unfold, Hopt. reflexivity.
Qed.

Lemma simplex_loop_outcome_witness :
  (well_formed Examples.lp_two_constraints 3 3 /\ 1 <= 3 /\ 1 <= 3) /\
  exists k st', main.simplex_loop 100 1 Examples.lp_two_constraints
                = Some ("Optimal solution reached!"%string, k, st') /\
                IsOptimal st' = Some true.
Proof.
  assert (Hwf : well_formed Examples.lp_two_constraints 3 3) by solve_wf.
  split; [split_conj; first [exact Hwf | lia]|].
  destruct (simplex_loop_outcome Examples.lp_two_constraints 3 3 Hwf
              ltac:(lia) ltac:(lia)) as [(msg & k & st' & E & _ & _ & Hcases) _].
  assert (Emsg : (fst ∘ fst) <$> main.simplex_loop 100 1 Examples.lp_two_constraints
                 = Some "Optimal solution reached!"%string)
    by (vm_compute; reflexivity).
  rewrite E in Emsg. cbn in Emsg. injection Emsg as ->.
  exists k, st'. split; [exact E|].
  destruct Hcases as [[_ H]|[(H & _)|(H & _)]];
    [exact H | discriminate H | discriminate H].
Defined.

(** X23: the optimization loop makes at most [min (m, n) - 1] pivots, because
    every pivot masks a constraint row and a non-RHS column that were
    unmasked: the counter it ends with (one more than the number of pivots)
    is at most [m] and at most [n].  So on a tableau with at most 100 rows
    or at most 100 columns the loop never ends with the iteration warning. *)
Theorem simplex_loop_pivot_bound st m n :
  well_formed st m n -> 1 <= m -> 1 <= n ->
  exists msg k st', main.simplex_loop 100 1 st = Some (msg, k, st') /\
    1 <= k /\ k <= m /\ k <= n /\
    (m <= 100 \/ n <= 100 ->
     msg <> "Warning: Maximum iterations reached. Process stopped."%string).
Proof.
  intros Hwf Hm Hn.
  destruct (simplex_loop_summary st m n Hwf Hm Hn)
    as (msg & k & st' & E & _ & _ & Hk & Hkm & Hkn & Hcases).
  exists msg, k, st'. split; [exact E|]. split; [exact Hk|].
  split; [exact Hkm|]. split; [exact Hkn|].
  intros Hsmall.
  destruct Hcases as [[-> _]|[(-> & _)|(_ & Hcap)]]; [discriminate | discriminate | lia].
Qed.

Lemma simplex_loop_pivot_bound_witness :
  (well_formed Examples.lp_two_constraints 3 3 /\ 1 <= 3 /\ 1 <= 3) /\
  exists msg k st', main.simplex_loop 100 1 Examples.lp_two_constraints
                    = Some (msg, k, st') /\ k <= 3.
Proof.
  assert (Hwf : well_formed Examples.lp_two_constraints 3 3) by solve_wf.
  split; [split_conj; first [exact Hwf | lia]|].
  destruct (simplex_loop_pivot_bound Examples.lp_two_constraints 3 3 Hwf
              ltac:(lia) ltac:(lia)) as (msg & k & st' & E & _ & Hk & _).
  exists msg, k, st'. split; [exact E | exact Hk].
Defined.

(** X24: from a well-formed tableau [main] always comes to an end without a
    panic.  It returns early if and only if the tableau is infeasible and
    [MakeFeasible] answers [false]; otherwise it reaches the report with a
    tableau of the same dimensions and sense, the solution [GetSolution]
    gives for it, and one of the three closing lines of the loop, the
    iteration warning only on a tableau with more than 100 rows and more
    than 100 columns. *)
Theorem solve_always_returns st isMax m n :
  well_formed st m n -> 1 <= m -> 1 <= n ->
  exists res, main.solve st isMax = Some res /\
    (res = None <->
     IsFeasible st = Some false /\ exists t', MakeFeasible st = Some (false, t')) /\
    (forall o, res = Some o ->
       well_formed (main.final o) m n /\
       IsMaximization (main.final o) = IsMaximization st /\
       GetSolution (main.final o) = Some (main.solution o) /\
       ((main.message o = "Optimal solution reached!"%string /\
         IsOptimal (main.final o) = Some true)
        \/ (main.message o = "No valid pivot found. Solution may be unbounded."%string /\
            IsOptimal (main.final o) = Some false /\
            Pivot (main.final o) = Some (-1, -1))
        \/ (main.message o
            = "Warning: Maximum iterations reached. Process stopped."%string /\
            100 < m /\ 100 < n))).
Proof. apply solve_returns. Qed.

Lemma solve_always_returns_witness :
  (well_formed Examples.lp_two_constraints 3 3 /\ 1 <= 3 /\ 1 <= 3) /\
  exists o, main.solve Examples.lp_two_constraints true = Some (Some o) /\
    main.objectiveValue o = Examples.whole 9 /\
    IsOptimal (main.final o) = Some true.
Proof.
  assert (Hwf : well_formed Examples.lp_two_constraints 3 3) by solve_wf.
  split; [split_conj; first [exact Hwf | lia]|].
  destruct (solve_always_returns Examples.lp_two_constraints true 3 3 Hwf
              ltac:(lia) ltac:(lia)) as (res & E & _ & Hsome).
  assert (Eobj : match main.solve Examples.lp_two_constraints true with
                 | Some (Some o) => Some (main.message o, main.objectiveValue o)
                 | _ => None
                 end = Some ("Optimal solution reached!"%string, Examples.whole 9))
    by (vm_compute; reflexivity).
  rewrite E in Eobj. destruct res as [o|]; [|discriminate Eobj].
  injection Eobj as Emsg Evalue.
  exists o. split; [exact E|]. split; [exact Evalue|].
  destruct (Hsome o eq_refl) as (_ & _ & _ & [[_ H]|[(H & _)|(H & _)]]);
    [exact H | rewrite Emsg in H; discriminate H | rewrite Emsg in H; discriminate H].
Defined.

(** ** Package parser *)

(** X25: the slice of decision variables of [ConvertToTableau] holds every
    key of [p.Variables] exactly once, in ascending byte order, and does not
    depend on the order in which the map is walked: sorting any arrangement
    of the keys gives the same slice. *)
Theorem decisionVars_sorted p :
  NoDup (parser.decisionVars p) /\
  StronglySorted parser.string_le (parser.decisionVars p) /\
  (forall v, v ∈ parser.decisionVars p <-> is_Some (parser.Variables p !! v)) /\
  (forall keys, keys ≡ₚ (map_to_list (parser.Variables p)).*1 ->
     parser.sort_Strings keys = parser.decisionVars p).
Proof. apply decisionVars_spec. Qed.

(** X26: [ConvertToTableau] returns for every problem, without a panic.  The
    tableau has one row per constraint and the objective row, one column per
    decision variable and the right-hand side; its sense is the problem's;
    nothing is masked; the rows are labelled [s1], [s2], ... and [F], the
    columns ["-" + variable] in the order of the sorted variables and
    [const]. *)
Theorem ConvertToTableau_shape p :
  exists t, parser.ConvertToTableau p = Some t /\
    well_formed t (len (parser.Constraints p) + 1) (len (parser.decisionVars p) + 1) /\
    IsMaximization t = parser.IsMaximization p /\
    (forall i, 0 <= i < len (parser.Constraints p) + 1 ->
       index (dirtY t) i = Some false) /\
    (forall j, 0 <= j < len (parser.decisionVars p) + 1 ->
       index (dirtX t) j = Some false) /\
    (forall i, 0 <= i < len (parser.Constraints p) ->
       index (RowNames t) i = Some ("s" +:+ sprint_d (i + 1))) /\
    index (RowNames t) (len (parser.Constraints p)) = Some "F"%string /\
    (forall j v, index (parser.decisionVars p) j = Some v ->
       index (ColNames t) j = Some ("-" +:+ v)) /\
    index (ColNames t) (len (parser.decisionVars p)) = Some "const"%string.
Proof.
  destruct (ConvertToTableau_spec p)
    as (t & E & Hwf & Hsense & HY & HX & HRN & HF & HCN & Hconst & _).
  exists t. split; [exact E|]. split; [exact Hwf|]. split; [exact Hsense|].
  split; [exact HY|]. split; [exact HX|].
  split; [intros i Hi; apply HRN; lia|].
  split; [rewrite <- HF; f_equal; lia|].
  split; [exact HCN|]. rewrite <- Hconst. f_equal. lia.
Qed.

Lemma ConvertToTableau_shape_witness :
  exists t, parser.ConvertToTableau Examples.problem_two_constraints = Some t /\
    well_formed t 3 3 /\
    index (RowNames t) 1 = Some "s2"%string /\
    index (ColNames t) 1 = Some "-x2"%string.
Proof.
  destruct (ConvertToTableau_shape Examples.problem_two_constraints)
    as (t & E & Hwf & _ & _ & _ & HRN & _ & HCN & _).
  exists t. split; [exact E|].
  replace (len (parser.decisionVars Examples.problem_two_constraints) + 1) with 3 in Hwf
    by (vm_compute; reflexivity).
  split; [exact Hwf|].
  split; [apply (HRN 1); vm_compute; split; congruence|].
  apply (HCN 1). vm_compute. reflexivity.
Defined.

Lemma assigned_absent value terms v init :
  (forall term, term ∈ terms -> parser.Variable_ term <> v) ->
  parser.assigned value terms v init = init.
Proof.
  unfold parser.assigned. revert init.
  induction terms as [|term terms IH]; intros init Habs; [reflexivity|].
  cbn [foldl]. rewrite decide_False.
  - apply IH. intros term' Hin. apply Habs. by right.
  - intros [_ E]. apply (Habs term); [by left | exact E].
Qed.

Lemma assigned_last value before term after v init :
  parser.Variable_ term = v -> v <> ""%string ->
  (forall term', term' ∈ after -> parser.Variable_ term' <> v) ->
  parser.assigned value (before ++ term :: after) v init = value term.
Proof.
  intros E Hv Habs. unfold parser.assigned. rewrite foldl_app. cbn [foldl].
  rewrite decide_True by (split; [by rewrite E | exact E]).
  by apply assigned_absent.
Qed.

(** X27: the cells [ConvertToTableau] fills.  In the row of a constraint the
    column of a variable holds the coefficient of the last term of the
    left-hand side that names the variable (a repeated variable is not summed
    up), or 0/0 when no term names it, and the last column holds the
    right-hand side with the constant terms of the left-hand side subtracted
    one by one; the whole row is negated by [Neg] when the relation is
    [>=].  In the objective row the column of a variable holds the
    coefficient of the last term naming it, negated when maximizing.  The
    last two parts say what [assigned] is: the value of the last term that
    names the variable, the initial value when there is none. *)
Theorem ConvertToTableau_cells p :
  exists t, parser.ConvertToTableau p = Some t /\
    (forall i c j v,
       index (parser.Constraints p) i = Some c ->
       index (parser.decisionVars p) j = Some v ->
       entry t i j
       = parser.oriented c (parser.assigned parser.Coefficient (parser.LHS c) v zero_value)) /\
    (forall i c,
       index (parser.Constraints p) i = Some c ->
       entry t i (len (parser.decisionVars p))
       = parser.oriented c (parser.constants_moved (parser.LHS c) (parser.RHS c))) /\
    (forall j v,
       index (parser.decisionVars p) j = Some v ->
       entry t (len (parser.Constraints p)) j
       = parser.assigned
           (fun term => if parser.IsMaximization p
                        then fr.Neg (parser.Coefficient term)
                        else parser.Coefficient term)
           (parser.LHS (parser.ObjectiveFunction p)) v zero_value) /\
    (forall value before term after v init,
       parser.Variable_ term = v -> v <> ""%string ->
       (forall term', term' ∈ after -> parser.Variable_ term' <> v) ->
       parser.assigned value (before ++ term :: after) v init = value term) /\
    (forall value terms v init,
       (forall term, term ∈ terms -> parser.Variable_ term <> v) ->
       parser.assigned value terms v init = init).
Proof.
  destruct (ConvertToTableau_spec p)
    as (t & E & _ & _ & _ & _ & _ & _ & _ & _ & Hrows & Hobj).
  exists t. split; [exact E|].
  split.
  { intros i c j v Hc Hv. pose proof (index_range _ _ _ Hv).
    apply entry_cell. rewrite (Hrows i c j Hc) by lia.
    unfold parser.constraint_cell. by rewrite Hv. }
  split.
  { intros i c Hc. apply entry_cell. rewrite (Hrows i c _ Hc) by (unfold len; lia).
    unfold parser.constraint_cell. rewrite index_None by lia. reflexivity. }
  split.
  { intros j v Hv. pose proof (index_range _ _ _ Hv).
    apply entry_cell.
    replace (len (parser.Constraints p)) with (len (parser.Constraints p) + 1 - 1) by lia.
    rewrite Hobj by lia. unfold parser.objective_cell. by rewrite Hv. }
  split; [apply assigned_last | apply assigned_absent].
Qed.

Lemma ConvertToTableau_cells_witness :
  exists t, parser.ConvertToTableau Examples.problem_repeated_variable = Some t /\
    entry t 0 0 = Examples.whole (-5) /\
    entry t 0 1 = Examples.whole (-2) /\
    entry t 1 0 = Examples.whole 1.
Proof.
  destruct (ConvertToTableau_cells Examples.problem_repeated_variable)
    as (t & E & Hrows & Hrhs & Hobj & _).
  exists t. split; [exact E|].
  assert (Ec : index (parser.Constraints Examples.problem_repeated_variable) 0
               = Some {| parser.LHS := [Examples.term (Examples.whole 1) "x1";
                                        Examples.term (Examples.whole 5) "x1";
                                        Examples.term (Examples.whole 1) ""];
                         parser.RHS := Examples.whole 3;
                         parser.Relation := ">=" |}) by reflexivity.
  assert (Ev : index (parser.decisionVars Examples.problem_repeated_variable) 0
               = Some "x1"%string) by (vm_compute; reflexivity).
  split; [rewrite (Hrows 0 _ 0 _ Ec Ev); vm_compute; reflexivity|].
  split.
  2:{ specialize (Hobj 0 _ Ev).
      replace (len (parser.Constraints Examples.problem_repeated_variable)) with 1 in Hobj
        by reflexivity.
      rewrite Hobj. vm_compute. reflexivity. }
  specialize (Hrhs 0 _ Ec).
  replace (len (parser.decisionVars Examples.problem_repeated_variable)) with 1 in Hrhs
    by (vm_compute; reflexivity).
  rewrite Hrhs. vm_compute. reflexivity.
Defined.

(** X28: what [ConvertToTableau] never writes stays the zero value 0/0 of
    [Init], not the fraction 0/1: in the tableau it returns (one row per
    constraint and the objective row, one column per variable and the
    right-hand side) the cell of the objective row's right-hand side holds
    0/0, for every problem (constant terms of the objective are added to
    0/0, which absorbs them), and so does every coefficient cell, in a
    constraint row or in the objective row, whose variable no term of that
    row names. *)
Theorem ConvertToTableau_leaves_zero_value p :
  exists t, parser.ConvertToTableau p = Some t /\
    well_formed t (len (parser.Constraints p) + 1) (len (parser.decisionVars p) + 1) /\
    cell (Table t) (len (parser.Constraints p)) (len (parser.decisionVars p))
    = Some zero_value /\
    (forall i c j v,
       index (parser.Constraints p) i = Some c ->
       index (parser.decisionVars p) j = Some v ->
       (forall term, term ∈ parser.LHS c -> parser.Variable_ term <> v) ->
       cell (Table t) i j = Some zero_value) /\
    (forall j v,
       index (parser.decisionVars p) j = Some v ->
       (forall term, term ∈ parser.LHS (parser.ObjectiveFunction p) ->
                     parser.Variable_ term <> v) ->
       cell (Table t) (len (parser.Constraints p)) j = Some zero_value).
Proof.
  destruct (ConvertToTableau_spec p)
    as (t & E & Hwf & _ & _ & _ & _ & _ & _ & _ & Hrows & Hobj).
  exists t. split; [exact E|]. split; [exact Hwf|].
  split.
  { replace (len (parser.Constraints p)) with (len (parser.Constraints p) + 1 - 1) by lia.
    rewrite Hobj by (unfold len; lia). unfold parser.objective_cell.
    rewrite index_None by lia. reflexivity. }
  split.
  { intros i c j v Hc Hv Habs. pose proof (index_range _ _ _ Hv).
    rewrite (Hrows i c j Hc) by lia. f_equal.
    unfold parser.constraint_cell. rewrite Hv, (assigned_absent _ _ _ _ Habs).
    unfold parser.oriented. case_decide; [|reflexivity].
    by destruct (zero_value_absorbs_all zero_value) as (_ & _ & _ & _ & _ & _ & _ & _ & ->). }
  intros j v Hv Habs. pose proof (index_range _ _ _ Hv).
  replace (len (parser.Constraints p)) with (len (parser.Constraints p) + 1 - 1) by lia.
  rewrite Hobj by lia. f_equal. unfold parser.objective_cell.
  by rewrite Hv, (assigned_absent _ _ _ _ Habs).
Qed.

Lemma ConvertToTableau_leaves_zero_value_witness :
  exists t, parser.ConvertToTableau Examples.problem_two_constraints = Some t /\
    well_formed t 3 3 /\
    cell (Table t) 2 2 = Some zero_value.
Proof.
  destruct (ConvertToTableau_leaves_zero_value Examples.problem_two_constraints)
    as (t & E & Hwf & Hz & _).
  exists t. split; [exact E|].
  replace (len (parser.Constraints Examples.problem_two_constraints)) with 2 in Hwf, Hz
    by reflexivity.
  replace (len (parser.decisionVars Examples.problem_two_constraints)) with 2 in Hwf, Hz
    by (vm_compute; reflexivity).
  split; [exact Hwf | exact Hz].
Defined.

(** X29: a run of [main] on a parsed problem never reports an objective
    value.  For every problem the run comes to an end without a panic, and
    when it reaches the report the solution binds "objective" to 0/0 and the
    value printed as the objective is 0/0, for maximization and for
    minimization: the right-hand side of the objective row starts as 0/0 and
    every pivot keeps it so. *)
Theorem run_reports_zero_value p :
  exists res, main.run p = Some res /\
    forall o, res = Some o ->
      main.solution o !! "objective"%string = Some zero_value /\
      main.objectiveValue o = zero_value.
Proof. apply run_objective. Qed.

Lemma run_reports_zero_value_witness :
  exists o, main.run Examples.problem_two_constraints = Some (Some o) /\
    main.message o = "Optimal solution reached!"%string /\
    main.solution o !! "objective"%string = Some zero_value /\
    main.objectiveValue o = zero_value.
Proof.
  destruct (run_reports_zero_value Examples.problem_two_constraints) as (res & E & Hres).
  assert (Emsg : match main.run Examples.problem_two_constraints with
                 | Some (Some o) => Some (main.message o)
                 | _ => None
                 end = Some "Optimal solution reached!"%string)
    by (vm_compute; reflexivity).
  rewrite E in Emsg. destruct res as [o|]; [|discriminate Emsg].
  injection Emsg as Emsg.
  exists o. split; [exact E|]. split; [exact Emsg|]. by apply Hres.
Defined.
